(** * cardrank: deck, dealer, runs and wins (deck.go)

    A shallow embedding of the card source ([Deck]) and of the shoes of a
    deck type ([DeckType]), of one deal ([Run]), of the street and run
    iterator ([Dealer]), of its results ([Result]) and of the win view
    ([Win]), followed by the properties of the specification that concern
    them and by further properties of the code.

    Conventions of the embedding:
    - Go's [int] is a 64-bit two's complement integer: values are in [Z] and
      every addition and subtraction of the source goes through
      [GoInt.add] / [GoInt.sub], which wrap around.
    - A function that can panic (index out of range, [make] with a negative
      length) returns an [option]; [None] is the panic. Memory is not
      bounded: [make] and [append] do not fail for want of it.
    - A method with a pointer receiver takes the receiver's value and
      returns the updated value next to its result.
    - A nil slice and an empty slice are both the empty list, except where
      the source tests for nil ([Dealer.Results], [Result.LoOrder]).
    - Slices are lists of their elements; [RunStore] has the backing
      arrays and the sharing between slices, which [Run.Dupe] is about.
    - Names are those of the source. A field called [Type] is [Type_], and
      the [TypeDesc] embedded in a [Dealer] is its field [Desc]. Functions
      and constants of other files ([Type.Max], [EvalOf], [Order], the
      evaluator registries, [Eval.Desc], [Invalid], the cards of a deck
      type) are section variables. *)

From Stdlib Require Import ZArith Lia.
From stdpp Require Import base option list gmap strings sorting.

Local Open Scope Z_scope.

(** ** Machine integers *)

Module GoInt.

Definition min_int : Z := - 2 ^ 63.
Definition max_int : Z := 2 ^ 63 - 1.

(** Reduction of a mathematical integer to the 64-bit signed range. *)
Definition wrap (z : Z) : Z := (z + 2 ^ 63) mod 2 ^ 64 - 2 ^ 63.

Definition add (a b : Z) : Z := wrap (a + b).
Definition sub (a b : Z) : Z := wrap (a - b).
Definition mul (a b : Z) : Z := wrap (a * b).

(** [len(x)] of a slice or of a map. *)
Definition len {A} (l : list A) : Z := Z.of_nat (length l).

End GoInt.

(** [l[i]] on a slice: out of range is a panic. *)
Definition index {A} (l : list A) (i : Z) : option A :=
  if i <? 0 then None else l !! Z.to_nat i.

(** [l[i] = x] on a slice: out of range is a panic. *)
Definition store {A} (l : list A) (i : Z) (x : A) : option (list A) :=
  if (i <? 0) || (GoInt.len l <=? i) then None
  else Some (<[Z.to_nat i := x]> l).

(** [for range n] and [for i := range n]: the body runs for [i = 0 .. n-1]
    and not at all when [n <= 0]. [for_each] threads a state through a
    body that may panic. *)
Definition range (n : Z) : list Z := Z.of_nat <$> seq 0 (Z.to_nat n).

Fixpoint for_each {Ix St} (l : list Ix) (body : Ix → St → option St) (s : St)
    : option St :=
  match l with
  | [] => Some s
  | i :: l' => s' ← body i s; for_each l' body s'
  end.

(** [copy(dst, src)]: the elements of [dst] after the copy, which
    overwrites as many of them as the shorter of the two slices has. *)
Definition copy {A} (dst src : list A) : list A :=
  take (length dst) src ++ drop (length src) dst.

(** Cards are opaque values; the source encodes them in an unsigned
    integer. *)
Definition Card : Type := Z.

(** ** Deck *)

Module Deck.

Record t := mk { I : Z; L : Z; V : list Card }.

Definition DeckOf (cards : list Card) : t :=
  {| I := 0; L := GoInt.len cards; V := cards |}.

Definition Limit (d : t) (limit : Z) : t :=
  {| I := I d; L := limit; V := V d |}.

Definition Empty (d : t) : bool := L d <=? I d.

Definition Remaining (d : t) : Z :=
  let n := GoInt.sub (L d) (I d) in
  if 0 <=? n then n else 0.

Definition Reset (d : t) : t :=
  {| I := 0; L := L d; V := V d |}.

(** [All]: [make([]Card, d.L)] panics on a negative length and zeroes
    the cards, then [copy] fills in what [d.V] has. *)
Definition All (d : t) : option (list Card) :=
  if L d <? 0 then None
  else Some (copy (replicate (Z.to_nat (L d)) 0) (V d)).

(** The loop of [Draw]: [for l := ...; d.I < l; d.I++]. The number of
    iterations is fixed by the header, [l - d.I] when that is positive;
    each one reads [d.V[d.I]], which panics out of range. *)
Fixpoint Draw_loop (n : nat) (d : t) (cards : list Card)
    : option (list Card * t) :=
  match n with
  | O => Some (cards, d)
  | S n' =>
      c ← index (V d) (I d);
      Draw_loop n' {| I := GoInt.add (I d) 1; L := L d; V := V d |}
                (cards ++ [c])
  end.

Definition Draw (d : t) (count : Z) : option (list Card * t) :=
  if count <? 0 then Some ([], d)
  else
    let l := Z.min (GoInt.add (I d) count) (L d) in
    Draw_loop (Z.to_nat (l - I d)) d [].

(** A shuffler is handed the length and a swap callback; what it does
    with them is its own business. It is modelled by the sequence of
    swaps it asks for on each pass. *)
Definition Shuffler : Type := nat → Z → list (Z * Z).

Definition swap (v : list Card) (ij : Z * Z) : option (list Card) :=
  x ← index v ij.1;
  y ← index v ij.2;
  v' ← store v ij.1 y;
  store v' ij.2 x.

Fixpoint swaps (v : list Card) (l : list (Z * Z)) : option (list Card) :=
  match l with
  | [] => Some v
  | ij :: l' => v' ← swap v ij; swaps v' l'
  end.

Definition Shuffle (d : t) (shuffler : Shuffler) (shuffles : Z) : option t :=
  for_each (range shuffles)
    (λ pass d,
       v ← swaps (V d) (shuffler (Z.to_nat pass) (GoInt.len (V d)));
       Some {| I := I d; L := L d; V := v |})
    d.

(** A run of [Draw] calls, one per count, collecting what each returns. *)
Fixpoint Draws (d : t) (counts : list Z) : option (list (list Card) * t) :=
  match counts with
  | [] => Some ([], d)
  | c :: cs =>
      '(cards, d') ← Draw d c;
      '(rest, d'') ← Draws d' cs;
      Some (cards :: rest, d'')
  end.

(** *** Vocabulary of the statements about decks *)

(** A deck that [Draw] can read: the cursor is not negative and the
    limit does not pass the cards. *)
Definition readable (d : t) : Prop :=
  0 ≤ I d ∧ L d ≤ GoInt.len (V d).

(** What is left to draw: the usable length minus the cursor, floored
    at 0. *)
Definition remaining (d : t) : Z := Z.max 0 (L d - I d).

(** The data invariant of a deck: the cursor is between zero and the
    limit, and the limit does not pass the cards, whose number is an
    [int]. *)
Definition wellformed (d : t) : Prop :=
  0 ≤ I d ∧ I d ≤ L d ∧ L d ≤ GoInt.len (V d) ∧
  GoInt.len (V d) ≤ GoInt.max_int.

End Deck.

(** ** Deck types *)

Module DeckType.

(** A deck type is a [uint8]. *)
Definition t : Type := Z.

Section WithCards.
(** [typ.v()]: the unshuffled cards of the type, which [init] computes
    with [Unshuffled] from the ranks and suits of other files; nil for a
    value that is not a deck type. *)
Variable v : t → list Card.

(** [copy(d.V[i*n:], v)]: the slice expression panics when the offset
    is not within the slice. *)
Definition Shoe_copy (n : Z) (cards : list Card) (i : Z) (V : list Card)
    : option (list Card) :=
  let off := GoInt.mul i n in
  if (off <? 0) || (GoInt.len V <? off) then None
  else Some (take (Z.to_nat off) V ++ copy (drop (Z.to_nat off) V) cards).

(** [Shoe]: [make] panics on a negative length. *)
Definition Shoe (typ : t) (count : Z) : option Deck.t :=
  let cards := v typ in
  let n := GoInt.len cards in
  let total := GoInt.mul n count in
  if total <? 0 then None
  else
    V ← for_each (range count) (Shoe_copy n cards)
                 (replicate (Z.to_nat total) 0);
    Some {| Deck.I := 0; Deck.L := GoInt.mul count n; Deck.V := V |}.

Definition New (typ : t) : option Deck.t := Shoe typ 1.

Definition Shuffle (typ : t) (shuffler : Deck.Shuffler) (shuffles : Z)
    : option Deck.t :=
  d ← Shoe typ 1;
  Deck.Shuffle d shuffler shuffles.

(** [DeckFrench] is [DeckType(Two)], a rank of another file. *)
Variable DeckFrench : t.

Definition NewDeck : option Deck.t := New DeckFrench.

Definition NewShoe (count : Z) : option Deck.t := Shoe DeckFrench count.

End WithCards.

End DeckType.

(** ** Descriptors and evaluations (declared outside deck.go) *)

(** A [Type] is a small unsigned integer. *)
Definition TypeId : Type := Z.

Module StreetDesc.
(** Modelled from the spec: the declaration of [StreetDesc], which is not
    in deck.go. For each street: id, name, number of pocket cards dealt,
    of pocket cards turned up, of cards discarded before the pockets, of
    pocket cards that may be drawn, of board cards dealt and of cards
    discarded before the board. *)
Record t := mk {
  Id : Z; Name : string;
  Pocket : Z; PocketUp : Z; PocketDiscard : Z; PocketDraw : Z;
  Board : Z; BoardDiscard : Z }.
End StreetDesc.

Module TypeDesc.
(** Modelled from the spec: the declaration of [TypeDesc], which is not
    in deck.go. The type, the maximum number of positions, whether there
    is a low hand, whether there is a double board, and the streets in
    order; the fields that deck.go does not read are left out. *)
Record t := mk {
  Type_ : TypeId; Max : Z; Low : bool; Double : bool;
  Streets : list StreetDesc.t }.
End TypeDesc.

Module Eval.
(** Modelled from the spec: the declaration of [Eval], which is not in
    deck.go. An evaluation record with a high and a low hand; the fields
    are those that deck.go reads and writes. *)
Record t := mk {
  Type_ : TypeId;
  HiRank : Z; HiBest : list Card; HiUnused : list Card;
  LoRank : Z; LoBest : list Card; LoUnused : list Card }.

(** [EvalFunc]: an evaluator fills in the evaluation it is handed. *)
Definition EvalFunc : Type := t → list Card → list Card → t.
End Eval.

Module EvalDesc.
(** Modelled from the spec: the declaration of [EvalDesc], which is not
    in deck.go. The description of a hand, with its rank marker. *)
Record t := mk { Rank : Z; Best : list Card; Unused : list Card }.
End EvalDesc.

(** ** Run *)

Module Run.

Record t := mk {
  Discard : list Card;
  Pockets : list (list Card);
  Hi : list Card;
  Lo : list Card }.

Definition set_Discard (run : t) (v : list Card) : t :=
  {| Discard := v; Pockets := Pockets run; Hi := Hi run; Lo := Lo run |}.
Definition set_Pockets (run : t) (v : list (list Card)) : t :=
  {| Discard := Discard run; Pockets := v; Hi := Hi run; Lo := Lo run |}.
Definition set_Hi (run : t) (v : list Card) : t :=
  {| Discard := Discard run; Pockets := Pockets run; Hi := v; Lo := Lo run |}.
Definition set_Lo (run : t) (v : list Card) : t :=
  {| Discard := Discard run; Pockets := Pockets run; Hi := Hi run; Lo := v |}.

(** [make([][]Card, count)] panics on a negative count. *)
Definition NewRun (count : Z) : option t :=
  if count <? 0 then None
  else Some {| Discard := []; Pockets := replicate (Z.to_nat count) [];
               Hi := []; Lo := [] |}.

(** The contents of the run that [Dupe] returns: the pockets and the two
    boards are copied, [Discard] is left at its zero value. The storage
    side of [Dupe] is in [RunStore]. *)
Definition Dupe (run : t) : t :=
  {| Discard := [];
     Pockets := (λ pocket, pocket) <$> Pockets run;
     Hi := Hi run;
     Lo := Lo run |}.

Section Eval.
(** The evaluator registries and the helpers of other files. *)
Variable evals calcs : TypeId → Eval.EvalFunc.
Variable EvalOf : TypeId → Eval.t.
Variable Type_Double : TypeId → bool.

Definition Eval (run : t) (typ : TypeId) (active : option (gmap Z bool))
    (calc : bool) : list (option Eval.t) :=
  let f := if calc then calcs typ else evals typ in
  let double := Type_Double typ in
  (λ pocket_i : nat * list Card,
     let i := Z.of_nat pocket_i.1 in
     let is_active :=
       match active with
       | None => true
       | Some a => default false (a !! i)
       end in
     if is_active then
       let ev := f (EvalOf typ) pocket_i.2 (Hi run) in
       if double then
         let lo := f (EvalOf typ) pocket_i.2 (Lo run) in
         Some {| Eval.Type_ := Eval.Type_ ev;
                 Eval.HiRank := Eval.HiRank ev;
                 Eval.HiBest := Eval.HiBest ev;
                 Eval.HiUnused := Eval.HiUnused ev;
                 Eval.LoRank := Eval.HiRank lo;
                 Eval.LoBest := Eval.HiBest lo;
                 Eval.LoUnused := Eval.HiUnused lo |}
       else Some ev
     else None) <$> imap pair (Pockets run).
End Eval.

(** *** Vocabulary of the statements about runs *)

(** Every card that the run holds: the discard pile, the pockets in
    position order and the two boards. *)
Definition cards_of (run : t) : list Card :=
  Discard run ++ concat (Pockets run) ++ Hi run ++ Lo run.

End Run.

(** ** Runs in memory

    A [*Run] points to a struct of four slice headers; a slice header is
    nil or points to a backing array, which other headers may share. The
    store maps locations to the structs and arrays allocated so far, and
    [Dupe], [make], [copy] and [append] act on it as they do in Go. A
    header keeps the start of its array (deck.go cuts no slice of a run
    from the middle), so that its capacity is the length of the array. *)

Module RunStore.

Definition loc : Type := nat.

Inductive slice := Nil | Slice (p : loc) (n : nat).

Record run := mkrun {
  Discard : slice;
  Pockets : slice;
  Hi : slice;
  Lo : slice }.

Inductive cell :=
  | Cards (a : list Card)
  | Headers (a : list slice)
  | Struct (r : run).

Abbreviation store := (gmap loc cell).

(** [new] and [make] take a location that is not in use. *)
Definition alloc (h : store) (c : cell) : loc * store :=
  let l := fresh (dom h) in (l, <[l := c]> h).

Definition cards_at (h : store) (p : loc) : option (list Card) :=
  match h !! p with Some (Cards a) => Some a | _ => None end.

Definition headers_at (h : store) (p : loc) : option (list slice) :=
  match h !! p with Some (Headers a) => Some a | _ => None end.

Definition struct_at (h : store) (p : loc) : option run :=
  match h !! p with Some (Struct r) => Some r | _ => None end.

(** [len(s)] *)
Definition slice_len (s : slice) : nat :=
  match s with Nil => 0 | Slice _ n => n end.

(** The elements of a [[]Card] and of a [[][]Card]. *)
Definition read_cards (h : store) (s : slice) : option (list Card) :=
  match s with
  | Nil => Some []
  | Slice p n =>
      a ← cards_at h p;
      if decide (n ≤ length a)%nat then Some (take n a) else None
  end.

Definition read_headers (h : store) (s : slice) : option (list slice) :=
  match s with
  | Nil => Some []
  | Slice p n =>
      a ← headers_at h p;
      if decide (n ≤ length a)%nat then Some (take n a) else None
  end.

(** [make([]Card, n)] and [make([][]Card, n)]: zeroed arrays. *)
Definition make_cards (h : store) (n : nat) : slice * store :=
  let '(p, h) := alloc h (Cards (replicate n 0)) in (Slice p n, h).

Definition make_headers (h : store) (n : nat) : slice * store :=
  let '(p, h) := alloc h (Headers (replicate n Nil)) in (Slice p n, h).

(** [copy(dst, src)]: as many elements as the shorter of the two has. *)
Definition copy_cards (h : store) (dst src : slice) : option store :=
  cs ← read_cards h src;
  match dst with
  | Nil => Some h
  | Slice p n =>
      a ← cards_at h p;
      let k := (n `min` length cs)%nat in
      Some (<[p := Cards (take k cs ++ drop k a)]> h)
  end.

(** [s[i]] and [s[i] = x] on a [[][]Card]. *)
Definition header_index (h : store) (s : slice) (i : nat) : option slice :=
  hs ← read_headers h s; hs !! i.

Definition header_store (h : store) (s : slice) (i : nat) (x : slice)
    : option store :=
  match s with
  | Nil => None
  | Slice p n =>
      a ← headers_at h p;
      if decide (i < n ≤ length a)%nat
      then Some (<[p := Headers (<[i := x]> a)]> h)
      else None
  end.

(** [r.Pockets = s], [r.Hi = s], [r.Lo = s], [r.Discard = s] *)
Definition set_Pockets (h : store) (r : loc) (s : slice) : option store :=
  st ← struct_at h r;
  Some (<[r := Struct (mkrun (Discard st) s (Hi st) (Lo st))]> h).

Definition set_Hi (h : store) (r : loc) (s : slice) : option store :=
  st ← struct_at h r;
  Some (<[r := Struct (mkrun (Discard st) (Pockets st) s (Lo st))]> h).

Definition set_Lo (h : store) (r : loc) (s : slice) : option store :=
  st ← struct_at h r;
  Some (<[r := Struct (mkrun (Discard st) (Pockets st) (Hi st) s)]> h).

Definition set_Discard (h : store) (r : loc) (s : slice) : option store :=
  st ← struct_at h r;
  Some (<[r := Struct (mkrun s (Pockets st) (Hi st) (Lo st))]> h).

(** The body of the loop of [Dupe]:
    [r.Pockets[i] = make([]Card, len(run.Pockets[i]))] and
    [copy(r.Pockets[i], run.Pockets[i])]. *)
Definition Dupe_pocket (run r : loc) (i : nat) (h : store) : option store :=
  st ← struct_at h run;
  src ← header_index h (Pockets st) i;
  let '(s, h) := make_cards h (slice_len src) in
  rs ← struct_at h r;
  h ← header_store h (Pockets rs) i s;
  rs ← struct_at h r;
  dst ← header_index h (Pockets rs) i;
  st ← struct_at h run;
  src ← header_index h (Pockets st) i;
  copy_cards h dst src.

(** [if run.Pockets != nil { r.Pockets = make([][]Card, len(run.Pockets));
    for i := range len(run.Pockets) { ... } }] *)
Definition Dupe_pockets (run r : loc) (h : store) : option store :=
  st ← struct_at h run;
  match Pockets st with
  | Nil => Some h
  | Slice _ n =>
      let '(s, h) := make_headers h n in
      h ← set_Pockets h r s;
      for_each (seq 0 n) (Dupe_pocket run r) h
  end.

(** [if run.F != nil { r.F = make([]Card, len(run.F)); copy(r.F, run.F) }],
    which [Dupe] does for [Hi] and for [Lo]; [get] reads the field and
    [set] assigns it. *)
Definition Dupe_cards (get : run → slice)
    (set : store → loc → slice → option store) (run r : loc) (h : store)
    : option store :=
  st ← struct_at h run;
  match get st with
  | Nil => Some h
  | Slice _ n =>
      let '(s, h) := make_cards h n in
      h ← set h r s;
      rs ← struct_at h r;
      st ← struct_at h run;
      copy_cards h (get rs) (get st)
  end.

(** [Dupe]: the new run starts from the zero value of the struct; its
    [Discard] is never assigned. *)
Definition Dupe (h : store) (run : loc) : option (loc * store) :=
  let '(r, h) := alloc h (Struct (mkrun Nil Nil Nil Nil)) in
  h ← Dupe_pockets run r h;
  h ← Dupe_cards Hi set_Hi run r h;
  h ← Dupe_cards Lo set_Lo run r h;
  Some (r, h).

(** The run that a pointer stands for: the contents of its slices. *)
Definition view (h : store) (r : loc) : option Run.t :=
  st ← struct_at h r;
  discard ← read_cards h (Discard st);
  headers ← read_headers h (Pockets st);
  pockets ← mapM (read_cards h) headers;
  hi ← read_cards h (Hi st);
  lo ← read_cards h (Lo st);
  Some (Run.mk discard pockets hi lo).

(** *** Writing through a run *)

(** The card slices of a run. *)
Inductive field := FDiscard | FHi | FLo | FPocket (i : nat).

Definition get_field (h : store) (r : loc) (f : field) : option slice :=
  st ← struct_at h r;
  match f with
  | FDiscard => Some (Discard st)
  | FHi => Some (Hi st)
  | FLo => Some (Lo st)
  | FPocket i => header_index h (Pockets st) i
  end.

Definition set_field (h : store) (r : loc) (f : field) (s : slice)
    : option store :=
  match f with
  | FDiscard => set_Discard h r s
  | FHi => set_Hi h r s
  | FLo => set_Lo h r s
  | FPocket i => st ← struct_at h r; header_store h (Pockets st) i s
  end.

Section Append.
(** How much room [append] leaves behind the elements when it has to
    take a new array is the choice of the runtime. *)
Variable room : nat → nat.

(** [append(s, cs...)]: in place when the capacity allows it, else in a
    new array; with nothing to append, [s] itself. *)
Definition append (h : store) (s : slice) (cs : list Card)
    : option (slice * store) :=
  match cs with
  | [] => Some (s, h)
  | _ :: _ =>
      old ← read_cards h s;
      let n := (length old + length cs)%nat in
      let grow :=
        let '(p, h) := alloc h (Cards (old ++ cs ++ replicate (room n) 0)) in
        Some (Slice p n, h) in
      match s with
      | Nil => grow
      | Slice p _ =>
          a ← cards_at h p;
          if decide (n ≤ length a)%nat
          then Some (Slice p n, <[p := Cards (old ++ cs ++ drop n a)]> h)
          else grow
      end
  end.

(** What a holder of the run can do to its slices. *)
Inductive mutation :=
  | Assign (f : field) (j : nat) (c : Card)
  | Append (f : field) (cs : list Card)
  | Clear (f : field)
  | ClearPockets.

Definition mutate (h : store) (r : loc) (m : mutation) : option store :=
  match m with
  | Assign f j c =>
      s ← get_field h r f;
      match s with
      | Nil => None
      | Slice p n =>
          a ← cards_at h p;
          if decide (j < n ≤ length a)%nat
          then Some (<[p := Cards (<[j := c]> a)]> h)
          else None
      end
  | Append f cs =>
      s ← get_field h r f;
      '(s', h) ← append h s cs;
      set_field h r f s'
  | Clear f => set_field h r f Nil
  | ClearPockets => set_Pockets h r Nil
  end.

Fixpoint mutates (h : store) (r : loc) (ms : list mutation) : option store :=
  match ms with
  | [] => Some h
  | m :: ms' => h' ← mutate h r m; mutates h' r ms'
  end.
End Append.

(** *** What a run reaches *)

(** The four slices of a run. *)
Definition slices (st : run) : list slice :=
  [Discard st; Pockets st; Hi st; Lo st].

(** The locations that a run reaches: its struct, the arrays of its
    slices and the arrays of the pockets that its array of pockets
    holds. *)
Inductive reach (h : store) (r : loc) : loc → Prop :=
  | reach_struct : reach h r r
  | reach_field st p n :
      struct_at h r = Some st → Slice p n ∈ slices st → reach h r p
  | reach_pocket st q m a p n :
      struct_at h r = Some st → Pockets st = Slice q m →
      headers_at h q = Some a → Slice p n ∈ a → reach h r p.

(** The same locations, computed. *)
Definition pointers (ss : list slice) : list loc :=
  ss ≫= λ s, match s with Nil => [] | Slice p _ => [p] end.

Definition locs (h : store) (r : loc) : list loc :=
  r :: match struct_at h r with
       | None => []
       | Some st =>
           pointers (slices st) ++
           match Pockets st with
           | Nil => []
           | Slice q _ => pointers (default [] (headers_at h q))
           end
       end.

(** No dangling pointer: what the run reaches is allocated. *)
Definition closed (h : store) (r : loc) : Prop :=
  ∀ l, reach h r l → is_Some (h !! l).

(** Two runs that share no location. *)
Definition apart (h : store) (r1 r2 : loc) : Prop :=
  ∀ l, reach h r1 l → reach h r2 l → False.

(** *** Vocabulary of the statements about runs in memory *)

(** The cells other than [r] stay as they are. *)
Definition keeps (r : loc) (h h' : store) : Prop :=
  ∀ l c, l ≠ r → h !! l = Some c → h' !! l = Some c.

(** The arrays of cards stay as they are. *)
Definition keeps_cards (h h' : store) : Prop :=
  ∀ l cs, h !! l = Some (Cards cs) → h' !! l = Some (Cards cs).

(** In [h'], [s] is a slice of the cards [cs] whose array was not there
    in [h]. *)
Definition fresh_cards (h h' : store) (s : slice) (cs : list Card) : Prop :=
  (s = Nil ∧ cs = []) ∨
  (∃ p, s = Slice p (length cs) ∧ h !! p = None ∧ h' !! p = Some (Cards cs)).

(** The same for a slice of pockets. *)
Definition fresh_pockets (h h' : store) (s : slice)
    (pockets : list (list Card)) : Prop :=
  (s = Nil ∧ pockets = []) ∨
  (∃ q a, s = Slice q (length a) ∧ h !! q = None ∧
          h' !! q = Some (Headers a) ∧
          Forall2 (fresh_cards h h') a pockets).

(** The state of the loop of [Dupe] when the first [i] pockets have
    been copied. *)
Definition copying (h0 hstart : store) (r q : loc) (rs : run)
    (hs : list slice) (pockets : list (list Card)) (i : nat) (h : store)
    : Prop :=
  h0 ⊆ h ∧ keeps r hstart h ∧
  h !! r = Some (Struct rs) ∧
  ∃ a, h !! q = Some (Headers a) ∧ length a = length hs ∧
       Forall2 (fresh_cards h0 h) (take i a) (take i pockets).

(** A write through [x] that stores the slice [s]: only what [x] reaches
    changes, nothing is freed, and [x] then reaches what it reached,
    and the array of [s]. *)
Definition written (h h' : store) (x : loc) (s : slice) : Prop :=
  (∀ l, ¬ reach h x l → h' !! l = h !! l) ∧
  (∀ l, is_Some (h !! l) → is_Some (h' !! l)) ∧
  (∀ l, reach h' x l → reach h x l ∨ ∃ n, s = Slice l n).

(** What writing through [x] does to the store: the cells that were
    there and that [x] did not reach are as they were, nothing is freed,
    and [x] reaches what it reached before, and new cells. *)
Definition framed (h h' : store) (x : loc) : Prop :=
  (∀ l, is_Some (h !! l) → ¬ reach h x l → h' !! l = h !! l) ∧
  (∀ l, is_Some (h !! l) → is_Some (h' !! l)) ∧
  (∀ l, reach h' x l → reach h x l ∨ h !! l = None).

End RunStore.

(** ** Win *)

Module Win.

Record t := mk {
  Evals : list (option Eval.t);
  Order : list Z;
  Pivot : Z;
  Low : bool;
  Scoop : bool;
  Names : list string }.

Definition NewWin (evs : list (option Eval.t)) (order : list Z) (pivot : Z)
    (low scoop : bool) (names : list string) : t :=
  {| Evals := evs; Order := order; Pivot := pivot;
     Low := low; Scoop := scoop; Names := names |}.

Section WithDesc.
(** [Eval.Desc(low)] and the [Invalid] rank marker, both declared in
    other files. [Desc] is called on a pointer that may be nil, and may
    return nil. *)
Variable Eval_Desc : option Eval.t → bool → option EvalDesc.t.
Variable InvalidRank : Z.

(** [Invalid] on a receiver that may be nil ([None]). *)
Definition Invalid (win : option t) : option bool :=
  match win with
  | None => Some false
  | Some win =>
      if (Pivot win =? 0)
         || (GoInt.len (Evals win) =? 0)
         || (GoInt.len (Order win) =? 0)
      then Some false
      else
        pos ← index (Order win) 0;
        ev ← index (Evals win) pos;
        match Eval_Desc ev (Low win) with
        | None => Some true
        | Some d =>
            Some ((EvalDesc.Rank d =? 0)
                  || (EvalDesc.Rank d =? InvalidRank))
        end
  end.

(** [Desc]: the descriptions of the first [Pivot] positions of the
    order, without those that are nil or carry no valid rank. *)
Definition Desc (win : t) : option (list EvalDesc.t) :=
  for_each (range (Pivot win))
    (λ i v,
       pos ← index (Order win) i;
       ev ← index (Evals win) pos;
       match Eval_Desc ev (Low win) with
       | Some d =>
           if negb (EvalDesc.Rank d =? 0)
              && negb (EvalDesc.Rank d =? InvalidRank)
           then Some (v ++ [d]) else Some v
       | None => Some v
       end)
    [].
End WithDesc.

Definition Verb (win : t) : string :=
  if Scoop win then "scoops"
  else if 2 <? Pivot win then "push"
  else if Pivot win =? 2 then "split"
  else if Pivot win =? 0 then "none"
  else "wins".

End Win.

(** ** Result *)

Module Result.

(** [HiOrder] and [LoOrder] are slices that may be nil ([None]). *)
Record t := mk {
  Evals : list (option Eval.t);
  HiOrder : option (list Z);
  HiPivot : Z;
  LoOrder : option (list Z);
  LoPivot : Z }.

Section NewResult.
Variable evals calcs : TypeId → Eval.EvalFunc.
Variable EvalOf : TypeId → Eval.t.
Variable Type_Low Type_Double : TypeId → bool.
(** [Order(evs, low)]: the ordering utility, with the pivot. *)
Variable Order : list (option Eval.t) → bool → option (list Z) * Z.

Definition NewResult (typ : TypeId) (run : Run.t)
    (active : option (gmap Z bool)) (calc : bool) : t :=
  let evs := Run.Eval evals calcs EvalOf Type_Double run typ active calc in
  let hi := Order evs false in
  let lo := if Type_Low typ || Type_Double typ
            then Order evs true else (None, 0) in
  {| Evals := evs;
     HiOrder := hi.1; HiPivot := hi.2;
     LoOrder := lo.1; LoPivot := lo.2 |}.
End NewResult.

Section Win.
(** [Type.Low()], read from the registry of types. *)
Variable Type_Low : TypeId → bool.

(** [Win]: the head of the high order is indexed and the evaluation
    there dereferenced, nil or out of range is a panic. *)
Definition Win (res : t) (names : list string)
    : option (Win.t * option Win.t) :=
  pos ← index (default [] (HiOrder res)) 0;
  ev ← index (Evals res) pos;
  ev ← ev;
  let low := Type_Low (Eval.Type_ ev) in
  let lo :=
    match LoOrder res with
    | Some order =>
        if negb (LoPivot res =? 0)
        then Some (Win.NewWin (Evals res) order (LoPivot res)
                              true false names)
        else None
    | None => None
    end in
  let hi := Win.NewWin (Evals res) (default [] (HiOrder res)) (HiPivot res)
                       false (low && bool_decide (lo = None)) names in
  Some (hi, lo).
End Win.

End Result.

(** ** Dealer *)

Module Dealer.

(** [Active] is a [map[int]bool]: a missing key reads as false.
    [Results] is nil ([None]) until [NextResult] computes it, and holds
    pointers, nil ([None]) or not. *)
Record t := mk {
  Desc : TypeDesc.t;
  Deck : Deck.t;
  Count : Z;
  Active : gmap Z bool;
  Runs : list Run.t;
  Results : option (list (option Result.t));
  RunCount : Z;
  ST : Z;
  S : Z;
  R : Z;
  E : Z }.

Definition set_Deck (d : t) (v : Deck.t) : t :=
  mk (Desc d) v (Count d) (Active d) (Runs d) (Results d)
     (RunCount d) (ST d) (S d) (R d) (E d).
Definition set_Active (d : t) (v : gmap Z bool) : t :=
  mk (Desc d) (Deck d) (Count d) v (Runs d) (Results d)
     (RunCount d) (ST d) (S d) (R d) (E d).
Definition set_Runs (d : t) (v : list Run.t) : t :=
  mk (Desc d) (Deck d) (Count d) (Active d) v (Results d)
     (RunCount d) (ST d) (S d) (R d) (E d).
Definition set_Results (d : t) (v : option (list (option Result.t))) : t :=
  mk (Desc d) (Deck d) (Count d) (Active d) (Runs d) v
     (RunCount d) (ST d) (S d) (R d) (E d).
Definition set_RunCount (d : t) (v : Z) : t :=
  mk (Desc d) (Deck d) (Count d) (Active d) (Runs d) (Results d)
     v (ST d) (S d) (R d) (E d).
Definition set_ST (d : t) (v : Z) : t :=
  mk (Desc d) (Deck d) (Count d) (Active d) (Runs d) (Results d)
     (RunCount d) v (S d) (R d) (E d).
Definition set_S (d : t) (v : Z) : t :=
  mk (Desc d) (Deck d) (Count d) (Active d) (Runs d) (Results d)
     (RunCount d) (ST d) v (R d) (E d).
Definition set_R (d : t) (v : Z) : t :=
  mk (Desc d) (Deck d) (Count d) (Active d) (Runs d) (Results d)
     (RunCount d) (ST d) (S d) v (E d).
Definition set_E (d : t) (v : Z) : t :=
  mk (Desc d) (Deck d) (Count d) (Active d) (Runs d) (Results d)
     (RunCount d) (ST d) (S d) (R d) v.

Definition Streets (d : t) : list StreetDesc.t := TypeDesc.Streets (Desc d).

(** [d.Active[i]] *)
Definition is_active (active : gmap Z bool) (i : Z) : bool :=
  default false (active !! i).

(** [len(d.Active)] *)
Definition len_Active (d : t) : Z := Z.of_nat (size (Active d)).

(** [init]: one empty run, every position active, nothing started. *)
Definition init (desc : TypeDesc.t) (deck : Deck.t) (count : Z) : option t :=
  run ← Run.NewRun count;
  Some {| Desc := desc; Deck := deck; Count := count;
          Active := foldl (λ a i, <[i := true]> a) ∅ (range count);
          Runs := [run];
          Results := None;
          RunCount := 1; ST := -1; S := -1; R := -1; E := -1 |}.

Definition NewDealer (desc : TypeDesc.t) (deck : Deck.t) (count : Z)
    : option t :=
  init desc deck count.

Definition Reset (d : t) : option t :=
  init (Desc d) (Deck.Reset (Deck d)) (Count d).

Definition Inactive (d : t) : list Z :=
  filter (λ i, is_active (Active d) i = false) (range (Count d)).

Definition Deactivate (d : t) (positions : list Z) : bool * t :=
  if negb (R d =? -1) && negb (R d =? 0) then (false, d)
  else
    (true,
     set_Active d (foldl (λ a position, delete position a) (Active d)
                         positions)).

Definition HasNext (d : t) : bool :=
  let n := GoInt.len (Streets d) in
  negb (n =? 0) && (S d <? GoInt.sub n 1).

Definition Street (d : t) : Z := S d.

(** The accessors of the current street read its descriptor under the
    guard [0 <= d.S && d.S < len(d.Streets)] and answer with the zero
    value outside it. *)
Definition Id (d : t) : option Z :=
  if (0 <=? S d) && (S d <? GoInt.len (Streets d))
  then st ← index (Streets d) (S d); Some (StreetDesc.Id st)
  else Some 0.

Definition Name (d : t) : option string :=
  if (0 <=? S d) && (S d <? GoInt.len (Streets d))
  then st ← index (Streets d) (S d); Some (StreetDesc.Name st)
  else Some "".

Definition Pocket (d : t) : option Z :=
  if (0 <=? S d) && (S d <? GoInt.len (Streets d))
  then st ← index (Streets d) (S d); Some (StreetDesc.Pocket st)
  else Some 0.

Definition PocketUp (d : t) : option Z :=
  if (0 <=? S d) && (S d <? GoInt.len (Streets d))
  then st ← index (Streets d) (S d); Some (StreetDesc.PocketUp st)
  else Some 0.

Definition PocketDiscard (d : t) : option Z :=
  if (0 <=? S d) && (S d <? GoInt.len (Streets d))
  then st ← index (Streets d) (S d); Some (StreetDesc.PocketDiscard st)
  else Some 0.

Definition PocketDraw (d : t) : option Z :=
  if (0 <=? S d) && (S d <? GoInt.len (Streets d))
  then st ← index (Streets d) (S d); Some (StreetDesc.PocketDraw st)
  else Some 0.

Definition Board (d : t) : option Z :=
  if (0 <=? S d) && (S d <? GoInt.len (Streets d))
  then st ← index (Streets d) (S d); Some (StreetDesc.Board st)
  else Some 0.

Definition BoardDiscard (d : t) : option Z :=
  if (0 <=? S d) && (S d <? GoInt.len (Streets d))
  then st ← index (Streets d) (S d); Some (StreetDesc.BoardDiscard st)
  else Some 0.

Definition NextId (d : t) : option Z :=
  if (-1 <=? S d) && (S d <? GoInt.sub (GoInt.len (Streets d)) 1)
  then st ← index (Streets d) (GoInt.add (S d) 1); Some (StreetDesc.Id st)
  else Some 0.

Definition HasPocket (d : t) : option bool :=
  if (0 <=? S d) && (S d <? GoInt.len (Streets d))
  then st ← index (Streets d) (S d); Some (0 <? StreetDesc.Pocket st)
  else Some false.

Definition HasBoard (d : t) : option bool :=
  if (0 <=? S d) && (S d <? GoInt.len (Streets d))
  then st ← index (Streets d) (S d); Some (0 <? StreetDesc.Board st)
  else Some false.

(** [Discarded]: the guard lets the street index reach the number of
    streets, where [Next] leaves it at the end of a run. *)
Definition Discarded (d : t) : option (list Card) :=
  if (0 <=? S d) && (S d <=? GoInt.len (Streets d))
     && (0 <=? R d) && (R d <? RunCount d)
  then run ← index (Runs d) (R d); Some (Run.Discard run)
  else Some [].

(** [Run]: [(-1, nil)] outside the run range. *)
Definition Run (d : t) : option (Z * option Run.t) :=
  if (0 <=? R d) && (R d <? RunCount d)
  then run ← index (Runs d) (R d); Some (R d, Some run)
  else Some (-1, None).

Section WithCalc.
(** [Type.Cactus()], [Type.Pocket()] and [Type.Board()], read from the
    registry of types. *)
Variable Type_Cactus : TypeId → bool.
Variable Type_Pocket Type_Board : TypeId → Z.

Definition HasCalc (d : t) : option bool :=
  let typ := TypeDesc.Type_ (Desc d) in
  if negb (Count d =? 0) && (0 <=? R d) && (R d <? RunCount d)
     && Type_Cactus typ
  then
    let p := Type_Pocket typ in
    let b := Type_Board typ in
    if negb (p =? 2) && (S d =? 0) then Some false
    else if negb (b =? 0) then
      run ← index (Runs d) (R d);
      pocket ← index (Run.Pockets run) 0;
      Some (p <=? GoInt.len pocket)
    else Some false
  else Some false.
End WithCalc.

Section WithDeck.
(** The cards of the deck types, and the field [Deck] of a [TypeDesc],
    which the record above leaves out. *)
Variable v : DeckType.t → list Card.
Variable TypeDesc_Deck : TypeDesc.t → DeckType.t.

Definition NewShuffledDealer (desc : TypeDesc.t) (shuffler : Deck.Shuffler)
    (shuffles count : Z) : option t :=
  deck ← DeckType.Shuffle v (TypeDesc_Deck desc) shuffler shuffles;
  NewDealer desc deck count.
End WithDeck.

Section WithType.
(** [Type.Max()], read from the registry of types. *)
Variable Type_Max : TypeId → Z.

Definition HasActive (d : t) : bool :=
  (0 <=? S d) &&
  ((Type_Max (TypeDesc.Type_ (Desc d)) =? 1) || (1 <? len_Active d)).

(** [Deal] writes through the run pointer it is given and draws from
    the deck of the dealer: its steps act on the pair of the two.

    [burn n]: [if 0 < n { run.Discard = append(run.Discard,
    d.Deck.Draw(n)...) }]. *)
Definition burn (n : Z) (s : t * Run.t) : option (t * Run.t) :=
  if 0 <? n then
    '(cards, deck) ← Deck.Draw (Deck s.1) n;
    Some (set_Deck s.1 deck,
          Run.set_Discard s.2 (Run.Discard s.2 ++ cards))
  else Some s.

(** [run.Pockets[i] = append(run.Pockets[i], d.Deck.Draw(1)...)] *)
Definition deal_pocket (i : Z) (s : t * Run.t) : option (t * Run.t) :=
  pocket ← index (Run.Pockets s.2) i;
  '(cards, deck) ← Deck.Draw (Deck s.1) 1;
  pockets ← store (Run.Pockets s.2) i (pocket ++ cards);
  Some (set_Deck s.1 deck, Run.set_Pockets s.2 pockets).

(** [run.Hi = append(run.Hi, d.Deck.Draw(b)...)] *)
Definition deal_hi (b : Z) (s : t * Run.t) : option (t * Run.t) :=
  '(cards, deck) ← Deck.Draw (Deck s.1) b;
  Some (set_Deck s.1 deck, Run.set_Hi s.2 (Run.Hi s.2 ++ cards)).

(** [run.Lo = append(run.Lo, d.Deck.Draw(b)...)] *)
Definition deal_lo (b : Z) (s : t * Run.t) : option (t * Run.t) :=
  '(cards, deck) ← Deck.Draw (Deck s.1) b;
  Some (set_Deck s.1 deck, Run.set_Lo s.2 (Run.Lo s.2 ++ cards)).

(** The block of [Deal] marked [// pockets]. *)
Definition Deal_pockets (d : t) (desc : StreetDesc.t) (s : t * Run.t)
    : option (t * Run.t) :=
  let p := StreetDesc.Pocket desc in
  if 0 <? p then
    s ← burn (StreetDesc.PocketDiscard desc) s;
    for_each (range p) (λ _, for_each (range (Count d)) deal_pocket) s
  else Some s.

(** The block of [Deal] marked [// board], with its [// hi] and [// lo]
    parts. *)
Definition Deal_board (d : t) (desc : StreetDesc.t) (s : t * Run.t)
    : option (t * Run.t) :=
  let b := StreetDesc.Board desc in
  if 0 <? b then
    let disc := StreetDesc.BoardDiscard desc in
    s ← burn disc s;
    s ← deal_hi b s;
    if TypeDesc.Double (Desc d) then
      s ← burn disc s;
      deal_lo b s
    else Some s
  else Some s.

Definition Deal (d : t) (street : Z) (run : Run.t) : option (t * Run.t) :=
  desc ← index (Streets d) street;
  s ← Deal_pockets d desc (d, run);
  Deal_board d desc s.

(** [ChangeRuns]: [append] reserves [runs-1] nil slots and the loop
    fills each of them with [d.Runs[0].Dupe()]; [Runs[0]] is not
    written, so every slot receives a copy of the same run. [make]
    panics on a negative length. *)
Definition ChangeRuns (d : t) (runs : Z) : option (bool * t) :=
  if negb (R d =? 0)
     || negb (RunCount d =? 1)
     || negb (GoInt.len (Runs d) =? 1)
     || (GoInt.len (Streets d) <=? S d)
     || negb (HasActive d)
  then Some (false, d)
  else
    let n := GoInt.sub runs 1 in
    if n <? 0 then None
    else
      run0 ← index (Runs d) 0;
      let copies := replicate (Z.to_nat n) (Run.Dupe run0) in
      Some (true,
            set_RunCount (set_ST (set_Runs d (Runs d ++ copies)) (S d))
                         runs).

Definition Next (d : t) : option (bool * t) :=
  let d :=
    if (S d =? -1) && (R d =? -1) then set_R (set_S d 0) 0
    else set_S d (GoInt.add (S d) 1) in
  let n := GoInt.len (Streets d) in
  if ((n <=? S d) && (R d =? GoInt.sub (RunCount d) 1))
     || negb (HasActive d)
  then Some (false, d)
  else
    let d :=
      if (GoInt.len (Streets d) <=? S d) && (R d <? RunCount d)
      then set_R (set_S d (GoInt.add (ST d) 1)) (GoInt.add (R d) 1)
      else d in
    run ← index (Runs d) (R d);
    '(d, run) ← Deal d (S d) run;
    runs ← store (Runs d) (R d) run;
    let d := set_Runs d runs in
    Some ((S d <? GoInt.len (Streets d))
          || (R d <? GoInt.sub (RunCount d) 1), d).

(** [Result]: [(-1, nil)] outside the run range, else the result the
    cursor points at; indexing [Results] can panic. *)
Definition Result (d : t) : option (Z * option Result.t) :=
  if (0 <=? E d) && (E d <? RunCount d) then
    res ← index (default [] (Results d)) (E d);
    Some (E d, res)
  else Some (-1, None).

Section WithEval.
Variable evals calcs : TypeId → Eval.EvalFunc.
Variable EvalOf : TypeId → Eval.t.
Variable Type_Low Type_Double : TypeId → bool.
Variable Order : list (option Eval.t) → bool → option (list Z) * Z.

(** [for ; i < d.Count && !d.Active[i]; i++ {}]: the first active
    position, or [Count] when there is none. *)
Definition first_active (d : t) : Z :=
  default (Z.max 0 (Count d))
          (head (filter (λ i, is_active (Active d) i = true)
                        (range (Count d)))).

Definition compute_Results (d : t) : option t :=
  match Results d with
  | Some _ => Some d
  | None =>
      let n := len_Active d in
      let typ := TypeDesc.Type_ (Desc d) in
      if (n =? 1) && (RunCount d =? 1)
         && negb (TypeDesc.Max (Desc d) =? 1) then
        let i := first_active d in
        let lo := TypeDesc.Low (Desc d) || TypeDesc.Double (Desc d) in
        let res :=
          {| Result.Evals := [Some (EvalOf typ)];
             Result.HiOrder := Some [i];
             Result.HiPivot := 1;
             Result.LoOrder := if lo then Some [i] else None;
             Result.LoPivot := if lo then 1 else 0 |} in
        Some (set_Results d (Some [Some res]))
      else if (1 <? n) || (TypeDesc.Max (Desc d) =? 1) then
        if RunCount d <? 0 then None
        else
          results ←
            mapM (λ i,
                    run ← index (Runs d) i;
                    Some (Some (Result.NewResult evals calcs EvalOf
                                  Type_Low Type_Double Order
                                  typ run (Some (Active d)) false)))
                 (range (RunCount d));
          Some (set_Results d (Some results))
      else Some d
  end.

Definition NextResult (d : t) : option (bool * t) :=
  d ← compute_Results d;
  if RunCount d <=? E d then Some (false, d)
  else
    let d := set_E d (GoInt.add (E d) 1) in
    Some (E d <? RunCount d, d).
End WithEval.
End WithType.

(** *** Vocabulary of the statements about dealers *)

(** The state in which [ChangeRuns] goes ahead. *)
Definition ChangeRuns_allowed (Type_Max : TypeId → Z) (d : t) : Prop :=
  R d = 0 ∧
  RunCount d = 1 ∧
  GoInt.len (Runs d) = 1 ∧
  S d < GoInt.len (Streets d) ∧
  HasActive Type_Max d = true.

(** [k] successive calls of [Next], with what each returned. *)
Fixpoint Nexts (Type_Max : TypeId → Z) (k : nat) (d : t)
    : option (list bool * t) :=
  match k with
  | O => Some ([], d)
  | Datatypes.S k' =>
      '(returned, d1) ← Nexts Type_Max k' d;
      '(next, d2) ← Next Type_Max d1;
      Some (returned ++ [next], d2)
  end.

(** The street of the given index dealt into the first run: the street
    and run indexes are set, and [Deal] works on [Runs[0]]. *)
Definition deal_street (d : t) (street : Z) : option t :=
  let d := set_R (set_S d street) 0 in
  run ← index (Runs d) 0;
  '(d, run) ← Deal d street run;
  runs ← store (Runs d) 0 run;
  Some (set_Runs d runs).

(** The streets [0 .. k-1] dealt into the first run, each once, in
    order. *)
Fixpoint deal_streets (k : nat) (d : t) : option t :=
  match k with
  | O => Some d
  | Datatypes.S k' => d1 ← deal_streets k' d; deal_street d1 (Z.of_nat k')
  end.

(** What [Deal] keeps: the dealer changes in its deck only, the deck
    stays readable and the run keeps its number of pockets. *)
Definition Deal_inv (d : t) (run : Run.t) (s : t * Run.t) : Prop :=
  (∃ deck, s.1 = set_Deck d deck ∧ Deck.readable deck) ∧
  length (Run.Pockets s.2) = length (Run.Pockets run).

(** The state of a single-run hand in which the first [k] streets have
    been dealt. *)
Definition dealt (Type_Max : TypeId → Z) (n : Z) (k : nat) (d : t) : Prop :=
  ((k = 0%nat ∧ S d = -1 ∧ R d = -1) ∨
   (k ≠ 0%nat ∧ S d = Z.of_nat k - 1 ∧ R d = 0)) ∧
  RunCount d = 1 ∧
  GoInt.len (Streets d) = n ∧
  (Type_Max (TypeDesc.Type_ (Desc d)) = 1 ∨ 1 < len_Active d) ∧
  Deck.readable (Deck d) ∧
  ∃ run, Runs d = [run] ∧ GoInt.len (Run.Pockets run) = Count d.

(** A state of [Deal] with other active positions. *)
Definition with_Active (a : gmap Z bool) (s : t * Run.t) : t * Run.t :=
  (set_Active s.1 a, s.2).

(** A call of one of the methods that drive a hand. *)
Inductive call :=
  | Call_Next
  | Call_ChangeRuns (runs : Z)
  | Call_Deactivate (positions : list Z)
  | Call_NextResult.

Section Calls.
Variable Type_Max : TypeId → Z.
Variable evals calcs : TypeId → Eval.EvalFunc.
Variable EvalOf : TypeId → Eval.t.
Variable Type_Low Type_Double : TypeId → bool.
Variable Order : list (option Eval.t) → bool → option (list Z) * Z.

(** The dealer after a call, whatever the call returned. *)
Definition do_call (d : t) (c : call) : option t :=
  match c with
  | Call_Next => snd <$> Next Type_Max d
  | Call_ChangeRuns runs => snd <$> ChangeRuns Type_Max d runs
  | Call_Deactivate positions => Some (Deactivate d positions).2
  | Call_NextResult =>
      snd <$> NextResult evals calcs EvalOf Type_Low Type_Double Order d
  end.

Definition do_calls (d : t) (cs : list call) : option t :=
  for_each cs (λ c d, do_call d c) d.
End Calls.

(** The run count that a call of [ChangeRuns] is given is an [int], and
    not the least one: [runs-1] does not wrap around. *)
Definition proper (c : call) : Prop :=
  match c with
  | Call_ChangeRuns runs => GoInt.min_int < runs ≤ GoInt.max_int
  | _ => True
  end.

(** What the methods keep of a dealer: there are [RunCount] runs, at
    least one, the run index is -1 or the index of a run, every run has
    a pocket for each position, and the active positions are positions,
    marked true. *)
Definition consistent (d : t) : Prop :=
  GoInt.len (Runs d) = RunCount d ∧
  1 ≤ RunCount d ≤ GoInt.max_int ∧
  (R d = -1 ∨ 0 ≤ R d < RunCount d) ∧
  Forall (λ run, GoInt.len (Run.Pockets run) = Count d) (Runs d) ∧
  (∀ k b, Active d !! k = Some b → b = true ∧ 0 ≤ k < Count d).

(** Every card held by the runs of the dealer. *)
Definition dealt_cards (d : t) : list Card :=
  concat (Run.cards_of <$> Runs d).

(** The cards that were drawn while the deck went from [d] to [d']. *)
Definition drawn_between (d d' : Deck.t) : list Card :=
  take (Z.to_nat (Deck.I d' - Deck.I d))
       (drop (Z.to_nat (Deck.I d)) (Deck.V d)).

(** The street of index [rs.2] dealt into the run of index [rs.1]. *)
Definition deal_run_street (d : t) (rs : Z * Z) : option t :=
  let d := set_R (set_S d rs.2) rs.1 in
  run ← index (Runs d) rs.1;
  '(d, run) ← Deal d rs.2 run;
  runs ← store (Runs d) rs.1 run;
  Some (set_Runs d runs).

(** What is left to deal of a hand of [n] streets that was split into
    [m] runs at the street [st]: the streets after [st], for each run in
    turn. *)
Definition schedule (m st n : Z) : list (Z * Z) :=
  r ← range m; (λ k, (r, st + 1 + k)) <$> range (n - 1 - st).

Definition deal_schedule (l : list (Z * Z)) (d : t) : option t :=
  for_each l (λ rs d, deal_run_street d rs) d.

(** [k] successive calls of [NextResult], each followed by [Result]. *)
Section NextResults.
Variable evals calcs : TypeId → Eval.EvalFunc.
Variable EvalOf : TypeId → Eval.t.
Variable Type_Low Type_Double : TypeId → bool.
Variable Order : list (option Eval.t) → bool → option (list Z) * Z.

Fixpoint NextResults (k : nat) (d : t)
    : option (list (bool * (Z * option Result.t)) * t) :=
  match k with
  | O => Some ([], d)
  | Datatypes.S k' =>
      '(seen, d1) ← NextResults k' d;
      '(more, d2) ← NextResult evals calcs EvalOf Type_Low Type_Double
                               Order d1;
      res ← Result d2;
      Some (seen ++ [(more, res)], d2)
  end.
End NextResults.

(** What a step of [Deal] that returns leaves as it was: the dealer but
    for the cursor of its deck, and the number of pockets of the run. *)
Definition Deal_frame (d : t) (run : Run.t) (s : t * Run.t) : Prop :=
  (∃ deck, s.1 = set_Deck d deck ∧
           Deck.L deck = Deck.L (Deck d) ∧ Deck.V deck = Deck.V (Deck d)) ∧
  length (Run.Pockets s.2) = length (Run.Pockets run).

(** What a step of [Deal] that returns has done to the cards: the deck
    has its cards and a cursor that moved forward, and the run holds,
    besides the cards it had, those that the cursor passed. *)
Definition Deal_trace (d : t) (run : Run.t) (s : t * Run.t) : Prop :=
  ∃ deck,
    s.1 = set_Deck d deck ∧
    Deck.V deck = Deck.V (Deck d) ∧
    Deck.I (Deck d) ≤ Deck.I deck ∧
    Run.cards_of s.2 ≡ₚ Run.cards_of run ++ drawn_between (Deck d) deck.

(** A call other than [ChangeRuns]: it does not split the hand. *)
Definition unsplit (c : call) : Prop :=
  match c with Call_ChangeRuns _ => False | _ => True end.

(** The state of a hand of [n] streets that was split into [m] runs at
    the street [st], when the street [pos.2] of the run [pos.1] was the
    last to be dealt. *)
Definition split_state (Type_Max : TypeId → Z) (n m st : Z) (pos : Z * Z)
    (d : t) : Prop :=
  R d = pos.1 ∧ S d = pos.2 ∧
  RunCount d = m ∧ ST d = st ∧
  GoInt.len (Streets d) = n ∧ GoInt.len (Runs d) = m ∧
  (Type_Max (TypeDesc.Type_ (Desc d)) = 1 ∨ 1 < len_Active d) ∧
  Deck.readable (Deck d) ∧
  Forall (λ run, GoInt.len (Run.Pockets run) = Count d) (Runs d).

End Dealer.

(** ** Fixtures

    A four-street hold'em-like descriptor (two pocket cards, then a
    three-card flop, a turn and a river, each board street burning one
    card), a 52-card deck, and the decks, the win and the run in memory
    of the examples. *)

Module Fixture.

Definition street (pocket pocket_discard board board_discard : Z)
    : StreetDesc.t :=
  StreetDesc.mk 0 "" pocket 0 pocket_discard 0 board board_discard.

Definition holdem : TypeDesc.t :=
  TypeDesc.mk 0 10 false false
    [street 2 0 0 0; street 0 0 3 1; street 0 0 1 1; street 0 0 1 1].

Definition deck52 : Deck.t := Deck.DeckOf (range 52).

(** The registry answers 10 for the maximum of every type. *)
Definition max10 : TypeId → Z := λ _, 10.

Definition three_active : gmap Z bool :=
  foldl (λ a i, <[i := true]> a) ∅ (range 3).

(** Three positions after the flop: two calls of [Next]. *)
Definition at_flop : Dealer.t :=
  Dealer.mk holdem (Deck.mk 10 52 (range 52)) 3 three_active
    [Run.mk [6] [[0; 3]; [1; 4]; [2; 5]] [7; 8; 9] []]
    None 1 (-1) 1 0 (-1).

(** The same hand, split in two at the flop, on the turn of its second
    run: [ChangeRuns 2] and three more calls of [Next]. *)
Definition on_second_run : Dealer.t :=
  Dealer.mk holdem (Deck.mk 16 52 (range 52)) 3 three_active
    [Run.mk [6; 10; 12] [[0; 3]; [1; 4]; [2; 5]] [7; 8; 9; 11; 13] [];
     Run.mk [14] [[0; 3]; [1; 4]; [2; 5]] [7; 8; 9; 15] []]
    None 2 1 2 1 (-1).

(** The same hand, not split, after the river: four calls of [Next]. *)
Definition at_river : Dealer.t :=
  Dealer.mk holdem (Deck.mk 14 52 (range 52)) 3 three_active
    [Run.mk [6; 10; 12] [[0; 3]; [1; 4]; [2; 5]] [7; 8; 9; 11; 13] []]
    None 1 (-1) 3 0 (-1).

(** The calls that lead to [on_second_run]. *)
Definition split_calls : list Dealer.call :=
  [Dealer.Call_Next; Dealer.Call_Next; Dealer.Call_ChangeRuns 2;
   Dealer.Call_Next; Dealer.Call_Next; Dealer.Call_Next].

(** An evaluator that leaves the evaluation as it is, an evaluation
    with nothing in it, a registry of types that answers false, and an
    ordering that puts the first position alone on top. *)
Definition no_eval : TypeId → Eval.EvalFunc := λ _ ev _ _, ev.
Definition empty_eval : TypeId → Eval.t :=
  λ typ, Eval.mk typ 0 [] [] 0 [] [].
Definition never : TypeId → bool := λ _, false.
Definition first_wins : list (option Eval.t) → bool → option (list Z) * Z :=
  λ _ _, (Some [0; 1; 2], 1).

(** A deck of two cards, one of them already drawn. *)
Definition two_cards_one_drawn : Deck.t := Deck.mk 1 2 [10; 20].

(** A deck whose limit was raised past its cards. *)
Definition over_limit : Deck.t := Deck.Limit (Deck.DeckOf []) 1.

(** A deck whose cursor was set below zero. *)
Definition negative_cursor : Deck.t := Deck.mk (-1) 1 [10].

(** A shuffler that asks for no swap. *)
Definition no_swap : Deck.Shuffler := λ _ _, [].

(** A win whose pivot is 0: nobody qualifies. *)
Definition no_winner (ev : Eval.t) : Win.t :=
  Win.NewWin [Some ev] [0] 0 true false [].

(** A run in memory, at location 0: one burnt card, two pockets of two
    cards, a flop in an array with room for five cards, no low board. *)
Definition flop_store : gmap RunStore.loc RunStore.cell :=
  list_to_map
    [(0, RunStore.Struct
           (RunStore.mkrun (RunStore.Slice 1 1) (RunStore.Slice 2 2)
                           (RunStore.Slice 5 3) RunStore.Nil));
     (1, RunStore.Cards [6%Z]);
     (2, RunStore.Headers [RunStore.Slice 3 2; RunStore.Slice 4 2]);
     (3, RunStore.Cards [0%Z; 3%Z]);
     (4, RunStore.Cards [1%Z; 4%Z]);
     (5, RunStore.Cards [7%Z; 8%Z; 9%Z; 0%Z; 0%Z])]%nat.

Definition flop_run : Run.t :=
  Run.mk [6] [[0; 3]; [1; 4]] [7; 8; 9] [].

(** A runtime whose [append] leaves room for as many cards again. *)
Definition doubling : nat → nat := λ n, n.

End Fixture.

(** * Properties *)

(** ** Machine integers and loops *)

Module GoIntFacts.
Import GoInt.

Lemma wrap_small z : min_int ≤ z ≤ max_int → wrap z = z.
Proof.
  unfold min_int, max_int, wrap. intros Hz.
  rewrite Z.mod_small; lia.
Qed.

Lemma wrap_range z : min_int ≤ wrap z ≤ max_int.
Proof.
  unfold min_int, max_int, wrap.
  pose proof (Z.mod_pos_bound (z + 2 ^ 63) (2 ^ 64)). lia.
Qed.

Lemma add_small a b : min_int ≤ a + b ≤ max_int → add a b = a + b.
Proof. apply wrap_small. Qed.

Lemma sub_small a b : min_int ≤ a - b ≤ max_int → sub a b = a - b.
Proof. apply wrap_small. Qed.

Lemma len_nonneg {A} (l : list A) : 0 ≤ len l.
Proof. unfold len. lia. Qed.

End GoIntFacts.

Lemma index_Some {A} (l : list A) (i : Z) (x : A) :
  index l i = Some x ↔ 0 ≤ i ∧ l !! Z.to_nat i = Some x.
Proof.
  unfold index. destruct (Z.ltb_spec i 0); split.
  - discriminate.
  - lia.
  - auto.
  - tauto.
Qed.

Lemma index_of_nat {A} (l : list A) (n : nat) : index l (Z.of_nat n) = l !! n.
Proof.
  unfold index. destruct (Z.ltb_spec (Z.of_nat n) 0); [lia|].
  by rewrite Nat2Z.id.
Qed.

Lemma index_is_Some {A} (l : list A) (i : Z) :
  0 ≤ i < GoInt.len l → is_Some (index l i).
Proof.
  unfold GoInt.len. intros Hi. unfold index.
  destruct (Z.ltb_spec i 0); [lia|]. apply lookup_lt_is_Some. lia.
Qed.

Lemma store_Some {A} (l : list A) (i : Z) (x : A) :
  0 ≤ i < GoInt.len l → store l i x = Some (<[Z.to_nat i := x]> l).
Proof.
  unfold store. intros Hi.
  destruct (Z.ltb_spec i 0); [lia|].
  destruct (Z.leb_spec (GoInt.len l) i); [lia|]. done.
Qed.

Lemma range_length (n : Z) : length (range n) = Z.to_nat n.
Proof. unfold range. by rewrite length_fmap, length_seq. Qed.

Lemma range_succ (n : nat) :
  range (Z.of_nat (S n)) = range (Z.of_nat n) ++ [Z.of_nat n].
Proof.
  unfold range. rewrite !Nat2Z.id, seq_S, fmap_app. done.
Qed.

Lemma elem_of_range (n i : Z) : i ∈ range n ↔ 0 ≤ i < n.
Proof.
  unfold range. rewrite list_elem_of_fmap. split.
  - intros (k & -> & Hk). apply elem_of_seq in Hk. lia.
  - intros Hi. exists (Z.to_nat i). split; [lia|]. apply elem_of_seq. lia.
Qed.

(** A loop whose body never panics on states satisfying an invariant that
    it preserves runs to completion and keeps the invariant. *)
Lemma for_each_invariant {Ix St} (P : St → Prop) (Q : Ix → Prop)
    (body : Ix → St → option St) (l : list Ix) (s : St) :
  (∀ i s, Q i → P s → ∃ s', body i s = Some s' ∧ P s') →
  Forall Q l → P s →
  ∃ s', for_each l body s = Some s' ∧ P s'.
Proof.
  intros Hbody Hl. revert s. induction Hl as [|i l Hi Hl IH]; intros s Hs.
  - by exists s.
  - destruct (Hbody i s Hi Hs) as (s1 & Hs1 & HP1).
    destruct (IH s1 HP1) as (s2 & Hs2 & HP2).
    exists s2. split; [|done]. simpl. by rewrite Hs1.
Qed.

(** ** Deck *)

Module DeckFacts.
Import GoInt GoIntFacts.

Lemma Remaining_remaining d :
  min_int ≤ Deck.L d - Deck.I d ≤ max_int →
  Deck.Remaining d = Deck.remaining d.
Proof.
  intros H. unfold Deck.Remaining, Deck.remaining. rewrite sub_small by done.
  destruct (Z.leb_spec 0 (Deck.L d - Deck.I d)); lia.
Qed.

Lemma Draw_loop_spec (n : nat) : ∀ (d : Deck.t) (cards : list Card),
  0 ≤ Deck.I d →
  (n ≠ 0%nat →
   Deck.I d + Z.of_nat n ≤ len (Deck.V d) ∧
   Deck.I d + Z.of_nat n ≤ max_int) →
  Deck.Draw_loop n d cards =
    Some (cards ++ take n (drop (Z.to_nat (Deck.I d)) (Deck.V d)),
          Deck.mk (Deck.I d + Z.of_nat n) (Deck.L d) (Deck.V d)).
Proof.
  unfold len. induction n as [|n IH]; intros [i l v] cards; simpl; intros Hi Hn.
  - rewrite app_nil_r. do 2 f_equal. f_equal. lia.
  - destruct Hn as [Hv Hm]; [done|].
    destruct (lookup_lt_is_Some_2 v (Z.to_nat i)) as [c Hc]; [lia|].
    assert (Hidx : index v i = Some c) by (apply index_Some; split; [lia|done]).
    rewrite Hidx. simpl.
    assert (Hadd : add i 1 = i + 1)
      by (apply add_small; unfold min_int, max_int in *; lia).
    rewrite Hadd, IH; simpl; try lia.
    rewrite <- app_assoc. simpl.
    replace (Z.to_nat (i + 1)) with (S (Z.to_nat i)) by lia.
    rewrite (drop_S v c (Z.to_nat i) Hc). simpl.
    do 3 f_equal. lia.
Qed.

(** [Draw] on a readable deck never panics, whatever the count, and only
    moves the cursor, forward. *)
Lemma Draw_readable (d : Deck.t) (count : Z) :
  Deck.readable d →
  ∃ cards d',
    Deck.Draw d count = Some (cards, d') ∧ Deck.readable d' ∧
    Deck.I d ≤ Deck.I d' ∧
    Deck.L d' = Deck.L d ∧ Deck.V d' = Deck.V d.
Proof.
  intros [Hi Hl]. unfold Deck.Draw.
  destruct (Z.ltb_spec count 0).
  { exists [], d. by repeat split. }
  set (l := Z.min (add (Deck.I d) count) (Deck.L d)).
  pose proof (wrap_range (Deck.I d + count)) as Hw.
  fold (add (Deck.I d) count) in Hw.
  rewrite Draw_loop_spec; [|lia..].
  eexists _, _. split; [done|]. unfold Deck.readable. simpl. repeat split; lia.
Qed.

Lemma Draw_frame (d d' : Deck.t) (count : Z) (cards : list Card) :
  Deck.Draw d count = Some (cards, d') →
  Deck.L d' = Deck.L d ∧ Deck.V d' = Deck.V d.
Proof.
  unfold Deck.Draw. destruct (count <? 0); [by intros [= _ <-]|].
  generalize (Z.to_nat (Z.min (add (Deck.I d) count) (Deck.L d) - Deck.I d)).
  generalize (@nil Card). intros acc n. revert d acc.
  induction n as [|n IH]; intros d acc; simpl.
  - by intros [= _ <-].
  - destruct (index (Deck.V d) (Deck.I d)); [simpl|done].
    intros H. by apply IH in H.
Qed.

Lemma Draws_frame (counts : list Z) : ∀ (d d' : Deck.t) drawn,
  Deck.Draws d counts = Some (drawn, d') →
  Deck.L d' = Deck.L d ∧ Deck.V d' = Deck.V d.
Proof.
  induction counts as [|c cs IH]; intros d d' drawn; simpl.
  - by intros [= _ <-].
  - destruct (Deck.Draw d c) as [[cards d1]|] eqn:H1; [simpl|done].
    destruct (Deck.Draws d1 cs) as [[rest d2]|] eqn:H2; [simpl|done].
    intros [= _ <-]. apply Draw_frame in H1 as [<- <-]. by apply IH in H2.
Qed.

Lemma Shuffle_cursor (d d' : Deck.t) (shuffler : Deck.Shuffler) (shuffles : Z) :
  Deck.Shuffle d shuffler shuffles = Some d' →
  Deck.I d' = Deck.I d ∧ Deck.L d' = Deck.L d.
Proof.
  unfold Deck.Shuffle. generalize (range shuffles). intros l. revert d.
  induction l as [|pass l IH]; intros d; simpl.
  - by intros [= <-].
  - destruct (Deck.swaps _ _); [simpl|done]. intros H. by apply IH in H.
Qed.

(** C7, as amended. On a deck whose cursor is not negative and whose
    limit does not pass its cards, and for a count that the cursor can be
    advanced by without overflowing [int], [Draw count] does not panic
    and returns the next [min(count, remaining)] cards in sequence order
    (none when the count is negative), the cursor advances by exactly the
    number of cards returned, and it does not move past the limit. *)
Theorem Draw_spec (d : Deck.t) (count : Z) :
  0 ≤ Deck.I d →
  Deck.L d ≤ len (Deck.V d) →
  Deck.I d + count ≤ max_int →
  let n := Z.to_nat (Z.min count (Deck.remaining d)) in
  let cards := take n (drop (Z.to_nat (Deck.I d)) (Deck.V d)) in
  Deck.Draw d count =
    Some (cards, Deck.mk (Deck.I d + len cards) (Deck.L d) (Deck.V d)) ∧
  length cards = n ∧
  Deck.I d + len cards ≤ Z.max (Deck.I d) (Deck.L d).
Proof.
  intros Hi Hl Hm n cards. unfold Deck.remaining in n.
  assert (Hlen : length cards = n).
  { subst cards. rewrite length_take, length_drop. unfold len in Hl. lia. }
  unfold len. rewrite Hlen. split; [|split; [done|lia]].
  unfold Deck.Draw. destruct (Z.ltb_spec count 0) as [Hneg|Hpos].
  - assert (n = 0%nat) as Hn by lia. subst cards. rewrite Hn. simpl.
    destruct d; simpl. do 3 f_equal. lia.
  - rewrite add_small by (unfold min_int, max_int in *; lia).
    replace (Z.to_nat (Z.min (Deck.I d + count) (Deck.L d) - Deck.I d))
      with n by lia.
    rewrite Draw_loop_spec; [done|lia..].
Qed.

Lemma Draw_spec_witness :
  Deck.Draw Fixture.deck52 5 =
    Some ([0; 1; 2; 3; 4], Deck.mk 5 52 (range 52)).
Proof.
  destruct (Draw_spec Fixture.deck52 5) as (H & _ & _);
    [vm_compute; discriminate..|].
  exact H.
Defined.

(** C7, as stated, fails on three decks: a deck whose limit was raised
    past its cards panics, and so does a deck whose cursor is negative;
    and a count of [max_int] on a deck with one card drawn and one left
    overflows the bound of the loop and returns nothing. *)
Lemma Draw_spec_counterexample :
  Deck.Draw Fixture.over_limit 1 = None ∧
  Deck.Draw Fixture.negative_cursor 1 = None ∧
  Deck.remaining Fixture.two_cards_one_drawn = 1 ∧
  Deck.Draw Fixture.two_cards_one_drawn max_int =
    Some ([], Fixture.two_cards_one_drawn).
Proof. by vm_compute. Qed.

(** C8, as amended. When the deck was shuffled with its cursor at zero,
    then after any sequence of draws [Reset] gives back the deck as it
    was right after the shuffle, so that every sequence of [Draw] calls
    returns the cards it returned then, in the same order; [Reset]
    changes the cursor only. *)
Theorem Reset_redraw (d d0 d1 : Deck.t) (shuffler : Deck.Shuffler)
    (shuffles : Z) (counts : list Z) (drawn : list (list Card)) :
  Deck.I d = 0 →
  Deck.Shuffle d shuffler shuffles = Some d0 →
  Deck.Draws d0 counts = Some (drawn, d1) →
  Deck.Reset d1 = d0 ∧
  (∀ again, Deck.Draws (Deck.Reset d1) again = Deck.Draws d0 again) ∧
  Deck.V (Deck.Reset d1) = Deck.V d1 ∧
  Deck.L (Deck.Reset d1) = Deck.L d1 ∧
  Deck.I (Deck.Reset d1) = 0.
Proof.
  intros Hi Hsh Hdr.
  apply Shuffle_cursor in Hsh as [HI0 _]. rewrite Hi in HI0.
  apply Draws_frame in Hdr as [HL HV].
  assert (Deck.Reset d1 = d0) as Heq.
  { unfold Deck.Reset. rewrite HL, HV. destruct d0; simpl in *. by subst. }
  split; [done|]. split; [by rewrite Heq|]. done.
Qed.

Lemma Reset_redraw_witness :
  Deck.Reset (Deck.mk 5 52 (range 52)) = Fixture.deck52.
Proof.
  refine (proj1 (Reset_redraw Fixture.deck52 Fixture.deck52 _
                   Fixture.no_swap 3 [2; 3] [[0; 1]; [2; 3; 4]] _ _ _));
    reflexivity.
Defined.

(** C8, as stated, fails on a deck that was shuffled after a card had
    been drawn from it: shuffling leaves the cursor where it is, so the
    draw after the shuffle returns the second card, and the draw after
    [Reset] the first. *)
Lemma Reset_redraw_counterexample :
  ∃ d d0 d1,
    Deck.Draw (Deck.DeckOf [10; 20]) 1 = Some ([10], d) ∧
    Deck.Shuffle d Fixture.no_swap 1 = Some d0 ∧
    Deck.Draws d0 [1] = Some ([[20]], d1) ∧
    fst <$> Deck.Draws (Deck.Reset d1) [1] = Some [[10]] ∧
    fst <$> Deck.Draws (Deck.Reset d1) [1] ≠ fst <$> Deck.Draws d0 [1].
Proof.
  exists (Deck.mk 1 2 [10; 20]), (Deck.mk 1 2 [10; 20]), (Deck.mk 2 2 [10; 20]).
  by vm_compute.
Qed.

End DeckFacts.

(** ** Win *)

Module WinFacts.

(** C9. [Verb] is "scoops" whenever the scoop flag is set, whatever the
    pivot; otherwise "push" for a pivot above 2, "split" for 2, "none"
    for 0 and "wins" for the rest; so a tie of three or more is a
    "push", not a "split". *)
Theorem Verb_spec (win : Win.t) :
  (Win.Scoop win = true → Win.Verb win = "scoops") ∧
  (Win.Scoop win = false → 2 < Win.Pivot win → Win.Verb win = "push") ∧
  (Win.Scoop win = false → Win.Pivot win = 2 → Win.Verb win = "split") ∧
  (Win.Scoop win = false → Win.Pivot win = 0 → Win.Verb win = "none") ∧
  (Win.Scoop win = false → Win.Pivot win < 2 → Win.Pivot win ≠ 0 →
   Win.Verb win = "wins") ∧
  (Win.Scoop win = false → 3 ≤ Win.Pivot win → Win.Verb win ≠ "split").
Proof.
  unfold Win.Verb. destruct (Win.Scoop win);
    destruct (Z.ltb_spec 2 (Win.Pivot win));
    destruct (Z.eqb_spec (Win.Pivot win) 2);
    destruct (Z.eqb_spec (Win.Pivot win) 0);
    repeat split; intros; first [done | lia].
Qed.

Lemma Verb_spec_witness :
  Win.Verb (Win.NewWin [] [0; 1; 2] 3 false false []) = "push".
Proof.
  apply (proj1 (proj2 (Verb_spec _))); reflexivity.
Defined.

Section WithDesc.
Variable Eval_Desc : option Eval.t → bool → option EvalDesc.t.
Variable InvalidRank : Z.

(** Every early exit of [Invalid] answers false. *)
Lemma Invalid_early_exit (win : Win.t) :
  Win.Pivot win = 0 ∨ Win.Evals win = [] ∨ Win.Order win = [] →
  Win.Invalid Eval_Desc InvalidRank (Some win) = Some false.
Proof.
  unfold Win.Invalid. intros [-> | [-> | ->]]; simpl; [done| |].
  - by rewrite orb_true_r.
  - by rewrite !orb_true_r.
Qed.

(** Past the early exits, [Invalid] is decided by the description of
    the head of the order. *)
Lemma Invalid_head (win : Win.t) (pos : Z) (ev : option Eval.t) :
  Win.Pivot win ≠ 0 →
  index (Win.Order win) 0 = Some pos →
  index (Win.Evals win) pos = Some ev →
  Win.Invalid Eval_Desc InvalidRank (Some win) =
    Some match Eval_Desc ev (Win.Low win) with
         | None => true
         | Some d => (EvalDesc.Rank d =? 0)
                     || (EvalDesc.Rank d =? InvalidRank)
         end.
Proof.
  intros Hp Ho He. unfold Win.Invalid.
  assert ((GoInt.len (Win.Evals win) =? 0) = false) as ->.
  { apply Z.eqb_neq. intros H. apply index_Some in He as [_ He].
    apply lookup_lt_Some in He. unfold GoInt.len in H. lia. }
  assert ((GoInt.len (Win.Order win) =? 0) = false) as ->.
  { apply Z.eqb_neq. intros H. apply index_Some in Ho as [_ Ho].
    apply lookup_lt_Some in Ho. unfold GoInt.len in H. lia. }
  apply Z.eqb_neq in Hp as ->. cbn [orb].
  rewrite Ho. cbn [mbind option_bind]. rewrite He. cbn [mbind option_bind].
  by destruct (Eval_Desc _ _).
Qed.

(** C6, on the code. For a win whose pivot is 0, one of the cases in
    which the specification has [Invalid] answer true, [Invalid] answers
    false. *)
Theorem Invalid_no_winner (ev : Eval.t) :
  Win.Pivot (Fixture.no_winner ev) = 0 ∧
  Win.Invalid Eval_Desc InvalidRank (Some (Fixture.no_winner ev))
    = Some false.
Proof. split; [done|]. apply Invalid_early_exit. by left. Qed.
End WithDesc.

End WinFacts.

(** ** Dealer: positions and runs *)

Module DealerFacts.
Import GoInt GoIntFacts.

(** *** Deactivate *)

(** C5, as amended. Once the run index is neither -1 nor 0, that is once
    [Next] has moved on to the second or a later run of a split hand,
    every call to [Deactivate] returns false and leaves the dealer, and
    so its active positions, as they were. *)
Theorem Deactivate_rejected (d : Dealer.t) (positions : list Z) :
  Dealer.R d ≠ -1 → Dealer.R d ≠ 0 →
  Dealer.Deactivate d positions = (false, d).
Proof.
  intros H1 H0. unfold Dealer.Deactivate.
  apply Z.eqb_neq in H1 as ->. by apply Z.eqb_neq in H0 as ->.
Qed.

(** While the run index is -1 or 0 the positions are removed. *)
Lemma Deactivate_accepted (d : Dealer.t) (positions : list Z) :
  Dealer.R d = -1 ∨ Dealer.R d = 0 →
  Dealer.Deactivate d positions =
    (true,
     Dealer.set_Active d
       (foldl (λ a position, delete position a) (Dealer.Active d) positions)).
Proof. unfold Dealer.Deactivate. by intros [-> | ->]. Qed.

Lemma at_flop_reached :
  (d0 ← Dealer.NewDealer Fixture.holdem Fixture.deck52 3;
   '(_, d1) ← Dealer.Next Fixture.max10 d0;
   '(_, d2) ← Dealer.Next Fixture.max10 d1;
   Some d2) = Some Fixture.at_flop.
Proof. by vm_compute. Qed.

Lemma on_second_run_reached :
  ('(_, d3) ← Dealer.ChangeRuns Fixture.max10 Fixture.at_flop 2;
   '(_, d4) ← Dealer.Next Fixture.max10 d3;
   '(_, d5) ← Dealer.Next Fixture.max10 d4;
   '(_, d6) ← Dealer.Next Fixture.max10 d5;
   Some d6) = Some Fixture.on_second_run.
Proof. by vm_compute. Qed.

Lemma Deactivate_rejected_witness :
  Dealer.Deactivate Fixture.on_second_run [0]
    = (false, Fixture.on_second_run).
Proof. apply Deactivate_rejected; discriminate. Defined.

(** C5, as stated, fails right after the split: [ChangeRuns] leaves the
    run index at 0, so [Deactivate] still returns true and removes the
    position. *)
Lemma Deactivate_rejected_counterexample :
  (d0 ← Dealer.NewDealer Fixture.holdem Fixture.deck52 3;
   '(next, d1) ← Dealer.Next Fixture.max10 d0;
   '(changed, d2) ← Dealer.ChangeRuns Fixture.max10 d1 2;
   let '(deactivated, d3) := Dealer.Deactivate d2 [2] in
   Some (next, changed, Dealer.RunCount d2, GoInt.len (Dealer.Runs d2),
         deactivated,
         Dealer.is_active (Dealer.Active d2) 2,
         Dealer.is_active (Dealer.Active d3) 2))
  = Some (true, true, 2, 2, true, true, false).
Proof. by vm_compute. Qed.

(** *** ChangeRuns *)

Section WithType.
Variable Type_Max : TypeId → Z.

Lemma ChangeRuns_guard (d : Dealer.t) :
  negb (Dealer.R d =? 0)
  || negb (Dealer.RunCount d =? 1)
  || negb (len (Dealer.Runs d) =? 1)
  || (len (Dealer.Streets d) <=? Dealer.S d)
  || negb (Dealer.HasActive Type_Max d) = false
  ↔ Dealer.ChangeRuns_allowed Type_Max d.
Proof.
  unfold Dealer.ChangeRuns_allowed.
  destruct (Z.eqb_spec (Dealer.R d) 0);
    destruct (Z.eqb_spec (Dealer.RunCount d) 1);
    destruct (Z.eqb_spec (len (Dealer.Runs d)) 1);
    destruct (Z.leb_spec (len (Dealer.Streets d)) (Dealer.S d));
    destruct (Dealer.HasActive Type_Max d); simpl;
    split; first [done | intros (? & ? & ? & ? & ?); done | lia | idtac].
  all: intros (? & ? & ? & ? & ?); first [done | lia].
Qed.

(** C4, as amended. [ChangeRuns n] returns false and leaves the dealer
    unchanged unless the run index is 0, [RunCount] and the length of
    [Runs] are 1, the street index is below the number of streets and
    [HasActive] holds. When they do and [n] is at least 1, it returns
    true, appends [n-1] runs to the one there is, each of them what
    [Dupe] makes of it (its pockets and its two boards, with an empty
    discard pile), so that [Runs] has length [n], records the street
    index in [ST] and sets [RunCount] to [n]; nothing else changes. *)
Theorem ChangeRuns_spec (d : Dealer.t) (n : Z) :
  (¬ Dealer.ChangeRuns_allowed Type_Max d →
   Dealer.ChangeRuns Type_Max d n = Some (false, d)) ∧
  (Dealer.ChangeRuns_allowed Type_Max d → 1 ≤ n ≤ max_int →
   ∃ run0 d',
     Dealer.Runs d = [run0] ∧
     Dealer.ChangeRuns Type_Max d n = Some (true, d') ∧
     Dealer.Runs d' =
       run0 :: replicate (Z.to_nat (n - 1)) (Run.Dupe run0) ∧
     len (Dealer.Runs d') = n ∧
     Run.Discard (Run.Dupe run0) = [] ∧
     Run.Pockets (Run.Dupe run0) = Run.Pockets run0 ∧
     Run.Hi (Run.Dupe run0) = Run.Hi run0 ∧
     Run.Lo (Run.Dupe run0) = Run.Lo run0 ∧
     Dealer.ST d' = Dealer.S d ∧
     Dealer.RunCount d' = n ∧
     d = Dealer.set_RunCount
           (Dealer.set_ST (Dealer.set_Runs d' (Dealer.Runs d))
                          (Dealer.ST d))
           (Dealer.RunCount d)).
Proof.
  split.
  - intros Hno. unfold Dealer.ChangeRuns.
    destruct (_ || _) eqn:Hg; [done|].
    by apply ChangeRuns_guard in Hg.
  - intros Hok Hn. unfold Dealer.ChangeRuns.
    pose proof Hok as (_ & _ & Hlen & _ & _).
    apply ChangeRuns_guard in Hok as ->.
    rewrite sub_small by (unfold min_int, max_int in *; lia).
    destruct (Z.ltb_spec (n - 1) 0); [lia|].
    destruct (Dealer.Runs d) as [|run0 [|]] eqn:Hruns;
      unfold len in Hlen; simpl in Hlen; try lia.
    exists run0. eexists. split; [done|]. split; [reflexivity|].
    simpl. repeat split.
    + unfold len. simpl. rewrite length_replicate. lia.
    + unfold Run.Dupe. simpl. by rewrite list_fmap_id.
    + destruct d; simpl in *. by rewrite Hruns.
Qed.
End WithType.

Lemma ChangeRuns_spec_witness :
  ∃ d',
    Dealer.ChangeRuns Fixture.max10 Fixture.at_flop 3 = Some (true, d') ∧
    len (Dealer.Runs d') = 3.
Proof.
  destruct (proj2 (ChangeRuns_spec Fixture.max10 Fixture.at_flop 3))
    as (run0 & d' & _ & H & _ & Hl & _).
  - vm_compute. repeat split; discriminate.
  - vm_compute. split; discriminate.
  - exists d'. split; [exact H | exact Hl].
Defined.

(** C4, as stated, fails twice. After the flop, whose burn card is in
    the discard pile of the run, the run that [ChangeRuns 2] appends has
    an empty discard pile: it is not a copy of the whole run. And with a
    run count of 0 [ChangeRuns] panics instead of returning true. *)
Lemma ChangeRuns_spec_counterexample :
  ('(changed, d) ← Dealer.ChangeRuns Fixture.max10 Fixture.at_flop 2;
   Some (changed, Run.Discard <$> Dealer.Runs d, Run.Hi <$> Dealer.Runs d))
    = Some (true, [[6]; []], [[7; 8; 9]; [7; 8; 9]]) ∧
  Dealer.ChangeRuns Fixture.max10 Fixture.at_flop 0 = None.
Proof. by vm_compute. Qed.

End DealerFacts.

(** ** Dealer: dealing the streets *)

Module DealFacts.
Import GoInt GoIntFacts.

Lemma burn_inv d run n s :
  Dealer.Deal_inv d run s →
  ∃ s', Dealer.burn n s = Some s' ∧ Dealer.Deal_inv d run s'.
Proof.
  intros [(deck & Hd & Hr) Hp]. unfold Dealer.burn.
  destruct (0 <? n); [|exists s; by repeat split; eauto].
  destruct s as [d1 run1]. simpl in *. subst d1. simpl.
  destruct (DeckFacts.Draw_readable deck n Hr)
    as (cards & deck' & -> & Hr' & _).
  simpl. eexists. split; [done|]. split; [|done].
  exists deck'. by split.
Qed.

Lemma deal_hi_inv d run b s :
  Dealer.Deal_inv d run s →
  ∃ s', Dealer.deal_hi b s = Some s' ∧ Dealer.Deal_inv d run s'.
Proof.
  intros [(deck & Hd & Hr) Hp]. unfold Dealer.deal_hi.
  destruct s as [d1 run1]. simpl in *. subst d1. simpl.
  destruct (DeckFacts.Draw_readable deck b Hr)
    as (cards & deck' & -> & Hr' & _).
  simpl. eexists. split; [done|]. split; [|done].
  exists deck'. by split.
Qed.

Lemma deal_lo_inv d run b s :
  Dealer.Deal_inv d run s →
  ∃ s', Dealer.deal_lo b s = Some s' ∧ Dealer.Deal_inv d run s'.
Proof.
  intros [(deck & Hd & Hr) Hp]. unfold Dealer.deal_lo.
  destruct s as [d1 run1]. simpl in *. subst d1. simpl.
  destruct (DeckFacts.Draw_readable deck b Hr)
    as (cards & deck' & -> & Hr' & _).
  simpl. eexists. split; [done|]. split; [|done].
  exists deck'. by split.
Qed.

Lemma deal_pocket_inv d run i s :
  0 ≤ i < len (Run.Pockets run) →
  Dealer.Deal_inv d run s →
  ∃ s', Dealer.deal_pocket i s = Some s' ∧ Dealer.Deal_inv d run s'.
Proof.
  intros Hi [(deck & Hd & Hr) Hp]. unfold Dealer.deal_pocket.
  destruct s as [d1 run1]. simpl in *. subst d1. simpl.
  destruct (index_is_Some (Run.Pockets run1) i) as [pocket ->].
  { unfold len in *. lia. }
  simpl.
  destruct (DeckFacts.Draw_readable deck 1 Hr)
    as (cards & deck' & -> & Hr' & _).
  simpl. rewrite store_Some by (unfold len in *; lia). simpl.
  eexists. split; [done|]. split.
  - exists deck'. by split.
  - simpl. by rewrite length_insert.
Qed.

Lemma Deal_pockets_inv d run desc s :
  len (Run.Pockets run) = Dealer.Count d →
  Dealer.Deal_inv d run s →
  ∃ s', Dealer.Deal_pockets d desc s = Some s' ∧ Dealer.Deal_inv d run s'.
Proof.
  intros Hp H0. unfold Dealer.Deal_pockets.
  destruct (0 <? StreetDesc.Pocket desc); [|by exists s].
  destruct (burn_inv d run (StreetDesc.PocketDiscard desc) _ H0)
    as (s1 & -> & H1). simpl.
  apply (for_each_invariant (Dealer.Deal_inv d run) (λ _, True));
    [|by apply Forall_true|done].
  intros _ s2 _ H2.
  apply (for_each_invariant (Dealer.Deal_inv d run)
           (λ i, 0 ≤ i < len (Run.Pockets run))); [| |done].
  - intros i s3 Hi H3. by apply deal_pocket_inv.
  - apply Forall_forall. intros i Hi. apply elem_of_range in Hi. lia.
Qed.

Lemma Deal_board_inv d run desc s :
  Dealer.Deal_inv d run s →
  ∃ s', Dealer.Deal_board d desc s = Some s' ∧ Dealer.Deal_inv d run s'.
Proof.
  intros H1. unfold Dealer.Deal_board.
  destruct (0 <? StreetDesc.Board desc); [|by exists s].
  destruct (burn_inv d run (StreetDesc.BoardDiscard desc) _ H1)
    as (s2 & -> & H2). simpl.
  destruct (deal_hi_inv d run (StreetDesc.Board desc) _ H2)
    as (s3 & -> & H3). simpl.
  destruct (TypeDesc.Double (Dealer.Desc d)); [|by exists s3].
  destruct (burn_inv d run (StreetDesc.BoardDiscard desc) _ H3)
    as (s4 & -> & H4). simpl.
  by apply deal_lo_inv.
Qed.

(** [Deal] of a street of the descriptor, from a readable deck, into a
    run with a pocket per position, does not panic. *)
Lemma Deal_runs (d : Dealer.t) (street : Z) (run : Run.t) :
  Deck.readable (Dealer.Deck d) →
  0 ≤ street < len (Dealer.Streets d) →
  len (Run.Pockets run) = Dealer.Count d →
  ∃ deck run',
    Dealer.Deal d street run = Some (Dealer.set_Deck d deck, run') ∧
    Deck.readable deck ∧
    len (Run.Pockets run') = Dealer.Count d.
Proof.
  intros Hr Hs Hp. unfold Dealer.Deal.
  destruct (index_is_Some (Dealer.Streets d) street Hs) as [desc ->]. simpl.
  assert (Dealer.Deal_inv d run (d, run)) as H0.
  { split; [|done]. exists (Dealer.Deck d). split; [by destruct d|done]. }
  destruct (Deal_pockets_inv d run desc _ Hp H0) as (s1 & -> & H1). simpl.
  destruct (Deal_board_inv d run desc _ H1)
    as ([d2 run2] & -> & [(deck & Hd & Hdeck) Hlen]).
  simpl in *. subst d2. exists deck, run2. split; [done|]. split; [done|].
  unfold len in *. lia.
Qed.

(** [init] makes every position active: there are [count] of them. *)
Lemma activate_size (n : nat) : ∀ (a : nat) (m : gmap Z bool),
  (∀ k, Z.of_nat a ≤ k → m !! k = None) →
  size (foldl (λ m i, <[i := true]> m) m (Z.of_nat <$> seq a n))
    = (size m + n)%nat.
Proof.
  induction n as [|n IH]; intros a m Hm; simpl; [lia|].
  rewrite IH.
  - rewrite map_size_insert_None by (apply Hm; lia). lia.
  - intros k Hk. rewrite lookup_insert_ne by lia. apply Hm. lia.
Qed.

Lemma init_Active (desc : TypeDesc.t) (deck : Deck.t) (count : Z)
    (d : Dealer.t) :
  Dealer.init desc deck count = Some d →
  0 ≤ count ∧ Dealer.len_Active d = count.
Proof.
  unfold Dealer.init, Run.NewRun.
  destruct (Z.ltb_spec count 0); [done|]. simpl. intros [= <-].
  split; [done|]. unfold Dealer.len_Active, range. simpl.
  rewrite activate_size by (intros; apply lookup_empty).
  rewrite map_size_empty. lia.
Qed.

(** Field updates and accessors of a dealer given by its fields. *)
Ltac dealer_simpl :=
  unfold Dealer.set_Deck, Dealer.set_Active, Dealer.set_Runs,
    Dealer.set_Results, Dealer.set_RunCount, Dealer.set_ST, Dealer.set_S,
    Dealer.set_R, Dealer.set_E, Dealer.Streets, Dealer.len_Active in *;
  simpl in *.

Section SingleRun.
Variable Type_Max : TypeId → Z.

Lemma deal_street_dealt (n : Z) (k : nat) (d : Dealer.t) :
  Dealer.dealt Type_Max n k d → Z.of_nat k < n →
  ∃ d', Dealer.deal_street d (Z.of_nat k) = Some d' ∧
        Dealer.dealt Type_Max n (S k) d'.
Proof.
  intros (Hk & Hrc & Hn & Hact & Hdeck & run & Hruns & Hp) Hlt.
  unfold Dealer.deal_street.
  destruct d as [desc deck count active runs results rc st s r e].
  dealer_simpl. subst runs. simpl.
  destruct (Deal_runs
              (Dealer.mk desc deck count active [run] results rc st
                 (Z.of_nat k) 0 e) (Z.of_nat k) run)
    as (deck' & run' & -> & Hdeck' & Hp'); dealer_simpl; [done|lia|done|].
  eexists. split; [reflexivity|].
  unfold Dealer.dealt. dealer_simpl. split_and!; try done.
  - right. split_and!; lia.
  - by exists run'.
Qed.

Lemma Next_dealt (n : Z) (k : nat) (d : Dealer.t) :
  Dealer.dealt Type_Max n k d → Z.of_nat k < n → n ≤ max_int →
  Dealer.Next Type_Max d =
    d' ← Dealer.deal_street d (Z.of_nat k); Some (true, d').
Proof.
  intros (Hk & Hrc & Hn & Hact & Hdeck & run & Hruns & Hp) Hlt Hmax.
  assert (Dealer.HasActive Type_Max
            (Dealer.set_R (Dealer.set_S d (Z.of_nat k)) 0) = true) as Hhas.
  { unfold Dealer.HasActive. dealer_simpl.
    destruct (Z.leb_spec 0 (Z.of_nat k)); [|lia]. simpl.
    destruct Hact as [-> | Hact]; [done|].
    destruct (Z.ltb_spec 1 (Z.of_nat (size (Dealer.Active d)))); [|lia].
    by rewrite orb_true_r. }
  assert ((if (Dealer.S d =? -1) && (Dealer.R d =? -1)
           then Dealer.set_R (Dealer.set_S d 0) 0
           else Dealer.set_S d (add (Dealer.S d) 1))
          = Dealer.set_R (Dealer.set_S d (Z.of_nat k)) 0) as Hstep.
  { destruct Hk as [(-> & -> & ->) | (Hk & -> & Hr)]; [done|].
    destruct (Z.eqb_spec (Z.of_nat k - 1) (-1)); [lia|]. simpl.
    rewrite add_small by (unfold min_int, max_int in *; lia).
    destruct d; dealer_simpl; subst; f_equal; lia. }
  unfold Dealer.Next, Dealer.deal_street. rewrite Hstep, Hhas.
  destruct d as [desc deck count active runs results rc st s r e].
  dealer_simpl. subst runs rc. simpl.
  destruct (Z.leb_spec (len (TypeDesc.Streets desc)) (Z.of_nat k)); [lia|].
  simpl.
  destruct (Deal_runs
              (Dealer.mk desc deck count active [run] results 1 st
                 (Z.of_nat k) 0 e) (Z.of_nat k) run)
    as (deck' & run' & -> & Hdeck' & Hp'); dealer_simpl; [done|lia|done|].
  destruct (Z.ltb_spec (Z.of_nat k) (len (TypeDesc.Streets desc))); [|lia].
  done.
Qed.

(** The call of [Next] that comes when every street has been dealt
    returns false and moves the street index only. *)
Lemma Next_done (n : Z) (k : nat) (d : Dealer.t) :
  Dealer.dealt Type_Max n k d → Z.of_nat k = n → n ≤ max_int →
  Dealer.Next Type_Max d =
    Some (false, Dealer.set_R (Dealer.set_S d n) 0).
Proof.
  intros (Hk & Hrc & Hn & Hact & Hdeck & run & Hruns & Hp) Hlt Hmax.
  assert ((if (Dealer.S d =? -1) && (Dealer.R d =? -1)
           then Dealer.set_R (Dealer.set_S d 0) 0
           else Dealer.set_S d (add (Dealer.S d) 1))
          = Dealer.set_R (Dealer.set_S d n) 0) as Hstep.
  { rewrite <- Hlt in *.
    destruct Hk as [(-> & -> & ->) | (Hk & -> & Hr)]; [done|].
    destruct (Z.eqb_spec (Z.of_nat k - 1) (-1)); [lia|]. simpl.
    rewrite add_small by (unfold min_int, max_int in *; lia).
    destruct d; dealer_simpl; subst; f_equal; lia. }
  unfold Dealer.Next. rewrite Hstep.
  destruct d as [desc deck count active runs results rc st s r e].
  dealer_simpl. subst rc. simpl.
  destruct (Z.leb_spec (len (TypeDesc.Streets desc)) n); [|lia].
  done.
Qed.

Lemma Nexts_dealt (n : Z) (d0 : Dealer.t) (k : nat) :
  Dealer.dealt Type_Max n 0 d0 → Z.of_nat k ≤ n → n ≤ max_int →
  ∃ dk,
    Dealer.deal_streets k d0 = Some dk ∧
    Dealer.dealt Type_Max n k dk ∧
    Dealer.Nexts Type_Max k d0 = Some (replicate k true, dk).
Proof.
  intros H0 Hk Hmax. induction k as [|k IH].
  - by exists d0.
  - destruct IH as (dk & Hdeal & Hdk & Hnexts); [lia|].
    destruct (deal_street_dealt n k dk Hdk) as (d' & Hd' & Hdealt'); [lia|].
    exists d'. simpl. rewrite Hdeal, Hnexts. simpl.
    rewrite (Next_dealt n k dk Hdk) by lia. rewrite Hd'. simpl.
    by rewrite <- replicate_S_end.
Qed.

(** C1, as amended. Take a new dealer over a readable deck, with at least
    two positions or a type whose maximum is 1, nobody deactivated and a
    single run. Then the first [k] calls of [Next], for every [k] up to the
    number of streets, all return true and leave the dealer as dealing
    the streets [0 .. k-1] into the run, each once and in order, leaves
    it; and the call after the last street returns false and changes
    neither the runs nor the deck. *)
Theorem Next_single_run (desc : TypeDesc.t) (deck : Deck.t) (count : Z)
    (d0 : Dealer.t) :
  Dealer.NewDealer desc deck count = Some d0 →
  Deck.readable deck →
  Type_Max (TypeDesc.Type_ desc) = 1 ∨ 2 ≤ count →
  len (TypeDesc.Streets desc) ≤ max_int →
  let n := length (TypeDesc.Streets desc) in
  (∀ k, (k ≤ n)%nat →
     ∃ dk, Dealer.deal_streets k d0 = Some dk ∧
           Dealer.Nexts Type_Max k d0 = Some (replicate k true, dk)) ∧
  (∃ dn d_end,
     Dealer.deal_streets n d0 = Some dn ∧
     Dealer.Nexts Type_Max (S n) d0
       = Some (replicate n true ++ [false], d_end) ∧
     Dealer.Runs d_end = Dealer.Runs dn ∧
     Dealer.Deck d_end = Dealer.Deck dn).
Proof.
  intros Hnew Hdeck Hcount Hmax n.
  assert (Dealer.dealt Type_Max (len (TypeDesc.Streets desc)) 0 d0) as H0.
  { unfold Dealer.NewDealer in Hnew.
    destruct (init_Active _ _ _ _ Hnew) as [Hc Hsize].
    unfold Dealer.init, Run.NewRun in Hnew.
    destruct (Z.ltb_spec count 0); [lia|]. simpl in Hnew.
    injection Hnew as <-. unfold Dealer.dealt. dealer_simpl.
    split_and!; try done.
    - by left.
    - destruct Hcount as [-> | Hcount]; [by left|right].
      unfold Dealer.len_Active in Hsize. simpl in Hsize. lia.
    - eexists. split; [done|]. unfold len. simpl.
      rewrite length_replicate. lia. }
  split.
  - intros k Hk.
    destruct (Nexts_dealt _ d0 k H0) as (dk & Hdeal & _ & Hnexts);
      [unfold len; lia|done|].
    by exists dk.
  - destruct (Nexts_dealt _ d0 n H0) as (dn & Hdeal & Hdn & Hnexts);
      [unfold len; lia|done|].
    exists dn. eexists. split; [done|]. split.
    + simpl. rewrite Hnexts. simpl.
      rewrite (Next_done _ n dn Hdn) by done. reflexivity.
    + done.
Qed.

End SingleRun.

Lemma Next_single_run_witness :
  ∃ d0 dn d_end,
    Dealer.NewDealer Fixture.holdem Fixture.deck52 3 = Some d0 ∧
    Dealer.deal_streets 4 d0 = Some dn ∧
    Dealer.Nexts Fixture.max10 5 d0
      = Some ([true; true; true; true; false], d_end) ∧
    Dealer.Runs d_end = Dealer.Runs dn ∧
    Dealer.Deck d_end = Dealer.Deck dn.
Proof.
  eexists. 
  destruct (Next_single_run Fixture.max10 Fixture.holdem Fixture.deck52 3 _
              eq_refl) as [_ (dn & d_end & H)].
  - by vm_compute.
  - right. lia.
  - by vm_compute.
  - exists dn, d_end. split; [reflexivity|]. exact H.
Defined.

(** C1, as stated, fails for a dealer with a single position in a type
    that seats ten: the first call of [Next] returns false, and none of
    the four streets is dealt. It also fails over a deck whose limit was
    raised past its cards: the first call of [Next] panics. *)
Lemma Next_single_run_counterexample :
  (d0 ← Dealer.NewDealer Fixture.holdem Fixture.deck52 1;
   '(next, d1) ← Dealer.Next Fixture.max10 d0;
   Some (len (Dealer.Streets d0), Dealer.RunCount d0,
         Dealer.is_active (Dealer.Active d0) 0,
         next, Dealer.Runs d1, Deck.I (Dealer.Deck d1)))
    = Some (4, 1, true, false, [Run.mk [] [[]] [] []], 0) ∧
  (d0 ← Dealer.NewDealer Fixture.holdem Fixture.over_limit 3;
   Dealer.Next Fixture.max10 d0) = None.
Proof. by vm_compute. Qed.

(** *** Deal and the active positions *)

Lemma for_each_fmap {Ix St} (f : St → St) (body : Ix → St → option St)
    (l : list Ix) : ∀ s,
  (∀ i s, body i (f s) = f <$> body i s) →
  for_each l body (f s) = f <$> for_each l body s.
Proof.
  induction l as [|i l IH]; intros s Hbody; simpl; [done|].
  rewrite Hbody. destruct (body i s) as [s'|]; simpl; [by apply IH|done].
Qed.

Lemma burn_with_Active a n s :
  Dealer.burn n (Dealer.with_Active a s)
    = Dealer.with_Active a <$> Dealer.burn n s.
Proof.
  unfold Dealer.burn. destruct (0 <? n); [|done]. destruct s as [d run].
  simpl. by destruct (Deck.Draw (Dealer.Deck d) n) as [[cards deck]|].
Qed.

Lemma deal_pocket_with_Active a i s :
  Dealer.deal_pocket i (Dealer.with_Active a s)
    = Dealer.with_Active a <$> Dealer.deal_pocket i s.
Proof.
  unfold Dealer.deal_pocket. destruct s as [d run]. simpl.
  destruct (index (Run.Pockets run) i); [simpl|done].
  destruct (Deck.Draw (Dealer.Deck d) 1) as [[cards deck]|]; [simpl|done].
  by destruct (store _ _ _).
Qed.

Lemma deal_hi_with_Active a b s :
  Dealer.deal_hi b (Dealer.with_Active a s)
    = Dealer.with_Active a <$> Dealer.deal_hi b s.
Proof.
  unfold Dealer.deal_hi. destruct s as [d run]. simpl.
  by destruct (Deck.Draw (Dealer.Deck d) b) as [[cards deck]|].
Qed.

Lemma deal_lo_with_Active a b s :
  Dealer.deal_lo b (Dealer.with_Active a s)
    = Dealer.with_Active a <$> Dealer.deal_lo b s.
Proof.
  unfold Dealer.deal_lo. destruct s as [d run]. simpl.
  by destruct (Deck.Draw (Dealer.Deck d) b) as [[cards deck]|].
Qed.

(** [Deal] never reads [Active]: whatever the active positions are, it
    deals the same cards to the same pockets. *)
Lemma Deal_ignores_Active (d : Dealer.t) (a : gmap Z bool) (street : Z)
    (run : Run.t) :
  Dealer.Deal (Dealer.set_Active d a) street run
    = Dealer.with_Active a <$> Dealer.Deal d street run.
Proof.
  unfold Dealer.Deal. change (Dealer.Streets (Dealer.set_Active d a))
    with (Dealer.Streets d).
  destruct (index (Dealer.Streets d) street) as [desc|]; [simpl|done].
  change (Dealer.set_Active d a, run) with (Dealer.with_Active a (d, run)).
  generalize (d, run). intros s.
  assert (Dealer.Deal_pockets (Dealer.set_Active d a) desc
            (Dealer.with_Active a s)
          = Dealer.with_Active a <$> Dealer.Deal_pockets d desc s) as ->.
  { unfold Dealer.Deal_pockets. destruct (0 <? _); [|done].
    rewrite burn_with_Active. destruct (Dealer.burn _ s) as [s1|]; [simpl|done].
    apply for_each_fmap. intros _ s2.
    apply for_each_fmap. intros i s3. apply deal_pocket_with_Active. }
  destruct (Dealer.Deal_pockets d desc s) as [s1|]; [simpl|done].
  unfold Dealer.Deal_board. destruct (0 <? _); [|done].
  rewrite burn_with_Active. destruct (Dealer.burn _ s1) as [s2|]; [simpl|done].
  rewrite deal_hi_with_Active.
  destruct (Dealer.deal_hi _ s2) as [s3|]; [simpl|done].
  destruct (TypeDesc.Double (Dealer.Desc d)); [|done].
  rewrite burn_with_Active. destruct (Dealer.burn _ s3) as [s4|]; [simpl|done].
  apply deal_lo_with_Active.
Qed.

(** C2, on the code. Of three positions the second is deactivated before
    the first street; [Next] then deals the two pocket rounds to all
    three, the deactivated one included, which receives the second and
    the fifth card of the deck. *)
Theorem Deal_deactivated :
  (d0 ← Dealer.NewDealer Fixture.holdem Fixture.deck52 3;
   let '(deactivated, d1) := Dealer.Deactivate d0 [1] in
   '(next, d2) ← Dealer.Next Fixture.max10 d1;
   Some (deactivated, Dealer.is_active (Dealer.Active d2) 1, next,
         Run.Pockets <$> Dealer.Runs d2))
  = Some (true, false, true, [[[0; 3]; [1; 4]; [2; 5]]]).
Proof. by vm_compute. Qed.

End DealFacts.

(** ** Dealer: results *)

Module ResultFacts.
Import GoInt GoIntFacts.

Section WithEval.
Variable evals calcs : TypeId → Eval.EvalFunc.
Variable EvalOf : TypeId → Eval.t.
Variable Type_Low Type_Double : TypeId → bool.
Variable Order : list (option Eval.t) → bool → option (list Z) * Z.

Local Abbreviation compute_Results :=
  (Dealer.compute_Results evals calcs EvalOf Type_Low Type_Double Order).
Local Abbreviation NextResult :=
  (Dealer.NextResult evals calcs EvalOf Type_Low Type_Double Order).

(** The cases that [NextResult] provides for: several active positions,
    a type whose maximum is 1, or one active position in a single run.
    There is then a result, not nil, for each run. *)
Lemma compute_Results_covered (d : Dealer.t) :
  Dealer.Results d = None →
  0 ≤ Dealer.RunCount d →
  len (Dealer.Runs d) = Dealer.RunCount d →
  1 < Dealer.len_Active d ∨ TypeDesc.Max (Dealer.Desc d) = 1 ∨
    (Dealer.len_Active d = 1 ∧ Dealer.RunCount d = 1) →
  ∃ results,
    compute_Results d = Some (Dealer.set_Results d (Some results)) ∧
    len results = Dealer.RunCount d ∧
    Forall is_Some results.
Proof.
  intros Hnil Hrc Hruns Hcase. unfold Dealer.compute_Results. rewrite Hnil.
  destruct ((Dealer.len_Active d =? 1) && (Dealer.RunCount d =? 1)
            && negb (TypeDesc.Max (Dealer.Desc d) =? 1)) eqn:Hone.
  { apply andb_prop in Hone as [Hone _].
    apply andb_prop in Hone as [_ Hone%Z.eqb_eq].
    eexists. split; [done|]. rewrite Hone. split; [done|].
    by repeat constructor. }
  assert ((1 <? Dealer.len_Active d)
          || (TypeDesc.Max (Dealer.Desc d) =? 1) = true) as ->.
  { destruct (Z.ltb_spec 1 (Dealer.len_Active d)); [done|].
    destruct (Z.eqb_spec (TypeDesc.Max (Dealer.Desc d)) 1); [done|].
    destruct Hcase as [? | [? | [Hn H1]]]; [lia|done|].
    rewrite Hn, H1 in Hone. simpl in Hone.
    by destruct (Z.eqb_spec (TypeDesc.Max (Dealer.Desc d)) 1). }
  destruct (Z.ltb_spec (Dealer.RunCount d) 0); [lia|].
  match goal with
  | |- context [mapM ?f ?l] =>
      destruct (mapM f l) as [results|] eqn:Hmap
  end.
  - exists results. split; [done|].
    apply mapM_Some in Hmap. split.
    + apply Forall2_length in Hmap. rewrite range_length in Hmap.
      unfold len. lia.
    + eapply Forall2_Forall_r; [exact Hmap|].
      apply Forall_forall. intros i _ res.
      destruct (index (Dealer.Runs d) i); simpl; [|done].
      by intros [= <-].
  - exfalso. apply eq_None_not_Some in Hmap. apply Hmap.
    apply mapM_is_Some. apply Forall_forall. intros i Hi.
    apply elem_of_range in Hi.
    destruct (index_is_Some (Dealer.Runs d) i) as [run Hrun]; [lia|].
    simpl. by rewrite Hrun.
Qed.

(** The case that [NextResult] leaves out: one active position left in
    a hand that was split, in a type that seats more than one. No result
    is computed, the first call still returns true, and [Result] then
    indexes the nil [Results]: it panics. *)
Lemma NextResult_missed (d : Dealer.t) :
  Dealer.Results d = None →
  Dealer.len_Active d = 1 →
  1 < Dealer.RunCount d →
  TypeDesc.Max (Dealer.Desc d) ≠ 1 →
  Dealer.E d = -1 →
  NextResult d = Some (true, Dealer.set_E d 0) ∧
  Dealer.Result (Dealer.set_E d 0) = None.
Proof.
  intros Hnil Hn Hrc Hmax He.
  assert (compute_Results d = Some d) as Hc.
  { unfold Dealer.compute_Results. rewrite Hnil, Hn.
    destruct (Z.eqb_spec (Dealer.RunCount d) 1); [lia|].
    by apply Z.eqb_neq in Hmax as ->. }
  unfold Dealer.NextResult, Dealer.Result. rewrite Hc. simpl. rewrite He.
  destruct (Z.leb_spec (Dealer.RunCount d) (-1)); [lia|].
  change (add (-1) 1) with 0.
  unfold Dealer.set_E. simpl. rewrite Hnil.
  destruct (Z.ltb_spec 0 (Dealer.RunCount d)); [done|lia].
Qed.

(** The cursor never passes [RunCount]: a call that returns true moved
    it by one to an index below [RunCount], a call that returns false
    leaves it at [RunCount]. *)
Lemma NextResult_cursor (d d' : Dealer.t) (more : bool) :
  NextResult d = Some (more, d') →
  -1 ≤ Dealer.E d ≤ Dealer.RunCount d → Dealer.RunCount d ≤ max_int →
  Dealer.RunCount d' = Dealer.RunCount d ∧
  if more
  then Dealer.E d' = Dealer.E d + 1 ∧ Dealer.E d' < Dealer.RunCount d
  else Dealer.E d' = Dealer.RunCount d.
Proof.
  unfold Dealer.NextResult. intros Hnext He Hmax.
  destruct (compute_Results d) as [d1|] eqn:Hc; [simpl in Hnext|done].
  assert (Dealer.RunCount d1 = Dealer.RunCount d ∧ Dealer.E d1 = Dealer.E d)
    as [Hrc HE].
  { unfold Dealer.compute_Results in Hc.
    repeat match type of Hc with
           | match ?x with _ => _ end = _ => destruct x; simplify_eq
           | (if ?x then _ else _) = _ => destruct x; simplify_eq
           | _ ≫= _ = _ => apply bind_Some in Hc as (? & _ & Hc)
           end; simplify_eq; by split. }
  rewrite Hrc, HE in Hnext.
  destruct (Z.leb_spec (Dealer.RunCount d) (Dealer.E d)).
  - injection Hnext as <- <-. rewrite Hrc, HE. split; [done|lia].
  - injection Hnext as <- <-. unfold Dealer.set_E. simpl. rewrite Hrc.
    rewrite add_small by (unfold min_int, max_int in *; lia).
    split; [done|].
    destruct (Z.ltb_spec (Dealer.E d + 1) (Dealer.RunCount d)); lia.
Qed.

(** C10, on the code. Two positions, the hand split into two runs after
    the first street, then one position deactivated: one position is
    active. [NextResult] returns true and moves the cursor to 0, but
    leaves [Results] nil, and [Result] panics on it. *)
Theorem Result_after_split_and_fold :
  (d0 ← Dealer.NewDealer Fixture.holdem Fixture.deck52 2;
   '(next, d1) ← Dealer.Next Fixture.max10 d0;
   '(changed, d2) ← Dealer.ChangeRuns Fixture.max10 d1 2;
   let '(deactivated, d3) := Dealer.Deactivate d2 [1] in
   '(more, d4) ← NextResult d3;
   Some (next, changed, deactivated,
         Dealer.len_Active d4, Dealer.RunCount d4,
         more, Dealer.E d4, Dealer.Results d4, Dealer.Result d4))
  = Some (true, true, true, 1, 2, true, 0, None, None).
Proof. by vm_compute. Qed.

End WithEval.

End ResultFacts.

(** ** Runs in memory *)

Module RunStoreFacts.
Import RunStore.

(** One step of the option monad. *)
Ltac opt := cbn [mbind option_bind].

Lemma alloc_spec (h h' : store) (c : cell) (l : loc) :
  alloc h c = (l, h') → h !! l = None ∧ h' = <[l := c]> h.
Proof.
  unfold alloc. intros [= <- <-]. split; [|done].
  apply not_elem_of_dom. apply is_fresh.
Qed.

Lemma struct_at_Some h p st :
  struct_at h p = Some st ↔ h !! p = Some (Struct st).
Proof.
  unfold struct_at. destruct (h !! p) as [[]|]; naive_solver.
Qed.

Lemma cards_at_Some h p a : cards_at h p = Some a ↔ h !! p = Some (Cards a).
Proof.
  unfold cards_at. destruct (h !! p) as [[]|]; naive_solver.
Qed.

Lemma headers_at_Some h p a :
  headers_at h p = Some a ↔ h !! p = Some (Headers a).
Proof.
  unfold headers_at. destruct (h !! p) as [[]|]; naive_solver.
Qed.

Lemma read_cards_length h s cs :
  read_cards h s = Some cs → length cs = slice_len s.
Proof.
  destruct s as [|p n]; simpl; [by intros [= <-]|].
  destruct (cards_at h p) as [a|]; [simpl|done].
  case_decide; [|done]. intros [= <-]. rewrite length_take. lia.
Qed.

(** Reading goes by the cells that the slice points to. *)
Lemma read_cards_agree h h' s :
  (∀ p n, s = Slice p n → h' !! p = h !! p) →
  read_cards h' s = read_cards h s.
Proof.
  intros H. destruct s as [|p n]; [done|]. simpl.
  unfold cards_at. by rewrite (H p n).
Qed.

Lemma read_headers_agree h h' s :
  (∀ p n, s = Slice p n → h' !! p = h !! p) →
  read_headers h' s = read_headers h s.
Proof.
  intros H. destruct s as [|p n]; [done|]. simpl.
  unfold headers_at. by rewrite (H p n).
Qed.

Lemma read_cards_mono h h' s cs :
  h ⊆ h' → read_cards h s = Some cs → read_cards h' s = Some cs.
Proof.
  intros Hsub. destruct s as [|p n]; [done|]. simpl.
  destruct (cards_at h p) as [a|] eqn:Ha; [simpl|done].
  apply cards_at_Some in Ha.
  apply (lookup_weaken _ _ _ _ Ha) in Hsub.
  apply cards_at_Some in Hsub. by rewrite Hsub.
Qed.

Lemma read_headers_mono h h' s hs :
  h ⊆ h' → read_headers h s = Some hs → read_headers h' s = Some hs.
Proof.
  intros Hsub. destruct s as [|p n]; [done|]. simpl.
  destruct (headers_at h p) as [a|] eqn:Ha; [simpl|done].
  apply headers_at_Some in Ha.
  apply (lookup_weaken _ _ _ _ Ha) in Hsub.
  apply headers_at_Some in Hsub. by rewrite Hsub.
Qed.

Lemma struct_at_mono h h' p st :
  h ⊆ h' → struct_at h p = Some st → struct_at h' p = Some st.
Proof.
  rewrite !struct_at_Some. intros Hsub Hp. by eapply lookup_weaken.
Qed.

Lemma mapM_ext_in {A B} (f g : A → option B) (l : list A) :
  (∀ x, x ∈ l → f x = g x) → mapM f l = mapM g l.
Proof.
  induction l as [|x l IH]; intros H; simpl; [done|].
  rewrite (H x) by apply list_elem_of_here.
  rewrite IH; [done|]. intros y Hy. apply H. by apply list_elem_of_further.
Qed.

Lemma fresh_cards_read h h' s cs :
  fresh_cards h h' s cs → read_cards h' s = Some cs.
Proof.
  intros [[-> ->] | (p & -> & _ & Hp)]; [done|]. simpl.
  apply cards_at_Some in Hp. rewrite Hp. simpl.
  rewrite decide_True by done. by rewrite firstn_all.
Qed.

Lemma keeps_keeps_cards r rs h h' :
  keeps r h h' → h !! r = Some (Struct rs) → keeps_cards h h'.
Proof. intros Hk Hr l cs Hl. apply Hk; [|done]. intros ->. congruence. Qed.

Lemma fresh_cards_keeps h0 h h' s cs :
  keeps_cards h h' → fresh_cards h0 h s cs → fresh_cards h0 h' s cs.
Proof.
  intros Hk [[-> ->] | (p & -> & Hp0 & Hp)]; [by left|right].
  exists p. split; [done|]. split; [done|]. by apply Hk.
Qed.

Lemma fresh_pockets_keeps r rs h0 h h' s pockets :
  keeps r h h' → h !! r = Some (Struct rs) →
  fresh_pockets h0 h s pockets → fresh_pockets h0 h' s pockets.
Proof.
  intros Hk Hr [[-> ->] | (q & a & -> & Hq0 & Hq & Hall)]; [by left|right].
  exists q, a. split; [done|]. split; [done|]. split.
  - apply Hk; [|done]. intros ->. congruence.
  - eapply Forall2_impl; [exact Hall|]. intros s cs.
    apply fresh_cards_keeps. by eapply keeps_keeps_cards.
Qed.

Lemma keeps_trans r h1 h2 h3 : keeps r h1 h2 → keeps r h2 h3 → keeps r h1 h3.
Proof. intros H12 H23 l c Hl Hc. by apply H23, H12. Qed.

Lemma keeps_refl r h : keeps r h h.
Proof. by intros l c. Qed.

Lemma subseteq_fresh (h0 h : store) (l : loc) :
  h0 ⊆ h → h !! l = None → h0 !! l = None.
Proof. intros Hsub Hl. by eapply lookup_weaken_None. Qed.

Lemma copy_zeroed (cs : list Card) :
  take (length cs `min` length cs)%nat cs
    ++ drop (length cs `min` length cs)%nat (replicate (length cs) 0) = cs.
Proof.
  rewrite Nat.min_id, firstn_all, drop_replicate, Nat.sub_diag. simpl.
  by rewrite app_nil_r.
Qed.

(** The block that copies [Hi], and [Lo]: the field of the new run gets
    a slice of the same cards in an array of its own. *)
Lemma Dupe_cards_spec (get : run → slice)
    (set : store → loc → slice → option store) (upd : run → slice → run)
    (h0 h : store) (p r : loc) (st rs : run) (cs : list Card) :
  (∀ h r s rs, struct_at h r = Some rs →
               set h r s = Some (<[r := Struct (upd rs s)]> h)) →
  (∀ rs s, get (upd rs s) = s) →
  (∀ rs, get rs = Nil → upd rs Nil = rs) →
  get rs = Nil →
  h0 ⊆ h → struct_at h0 p = Some st → read_cards h0 (get st) = Some cs →
  struct_at h r = Some rs → h0 !! r = None →
  ∃ h' s,
    Dupe_cards get set p r h = Some h' ∧
    h0 ⊆ h' ∧ keeps r h h' ∧
    struct_at h' r = Some (upd rs s) ∧
    fresh_cards h0 h' s cs.
Proof.
  intros Hset Hget Hnil Hrs Hsub Hp Hcs Hr Hr0. unfold Dupe_cards.
  rewrite (struct_at_mono _ _ _ _ Hsub Hp). simpl.
  destruct (get st) as [|ph n] eqn:Hst.
  { injection Hcs as <-. exists h, Nil. rewrite Hnil by done.
    split_and!; try done; [apply keeps_refl | by left]. }
  pose proof (read_cards_length _ _ _ Hcs) as Hlen. simpl in Hlen. subst n.
  unfold make_cards, alloc. set (x := fresh (dom h)).
  assert (h !! x = None) as Hx by apply not_elem_of_dom, is_fresh.
  assert (h0 !! x = None) as Hx0 by apply (subseteq_fresh h0 h x Hsub Hx).
  apply struct_at_Some in Hr, Hp.
  assert (r ≠ x) as Hrx by congruence.
  assert (p ≠ x) as Hpx.
  { intros ->. apply (lookup_weaken _ _ _ _ Hp) in Hsub. congruence. }
  assert (p ≠ r) as Hpr by congruence.
  rewrite (Hset _ _ _ rs) by (apply struct_at_Some; by simplify_map_eq).
  simpl.
  set (h2 := <[r:=Struct (upd rs (Slice x (length cs)))]>
               (<[x:=Cards (replicate (length cs) 0)]> h)).
  assert (h0 ⊆ h2) as Hsub2.
  { apply insert_subseteq_r; [done|].
    by apply insert_subseteq_r. }
  assert (struct_at h2 r = Some (upd rs (Slice x (length cs)))) as ->
    by (apply struct_at_Some; subst h2; by simplify_map_eq).
  simpl.
  rewrite (struct_at_mono _ _ _ _ Hsub2 (proj2 (struct_at_Some _ _ _) Hp)).
  simpl. rewrite Hget, Hst. unfold copy_cards.
  rewrite (read_cards_mono _ _ _ _ Hsub2 Hcs). simpl.
  assert (cards_at h2 x = Some (replicate (length cs) 0)) as ->
    by (apply cards_at_Some; subst h2; by simplify_map_eq).
  simpl. rewrite copy_zeroed. subst h2.
  eexists _, (Slice x (length cs)). split; [done|]. split_and!.
  - by apply insert_subseteq_r.
  - intros l c Hl Hc. assert (l ≠ x) by congruence. by simplify_map_eq.
  - apply struct_at_Some. by simplify_map_eq.
  - right. exists x. split; [done|]. split; [done|]. by simplify_map_eq.
Qed.

Lemma for_each_seq_invariant {St} (P : nat → St → Prop)
    (body : nat → St → option St) (n : nat) (s : St) :
  P 0%nat s →
  (∀ i s, (i < n)%nat → P i s → ∃ s', body i s = Some s' ∧ P (S i) s') →
  ∃ s', for_each (seq 0 n) body s = Some s' ∧ P n s'.
Proof.
  intros H0 Hstep.
  assert (∀ k a s, (a + k = n)%nat → P a s →
            ∃ s', for_each (seq a k) body s = Some s' ∧ P n s') as Hgen.
  { induction k as [|k IH]; intros a s1 Hak Hs1; simpl.
    - exists s1. split; [done|]. by replace n with a by lia.
    - destruct (Hstep a s1) as (s2 & -> & Hs2); [lia|done|]. simpl.
      apply IH; [lia|done]. }
  by apply (Hgen n 0%nat s).
Qed.

Section Pockets.
Variables (h0 hstart : store) (p r q : loc) (st rs : run).
Variables (hs : list slice) (pockets : list (list Card)).
Hypothesis Hp : h0 !! p = Some (Struct st).
Hypothesis Hhs : read_headers h0 (Pockets st) = Some hs.
Hypothesis Hpockets : Forall2 (λ s cs, read_cards h0 s = Some cs) hs pockets.
Hypothesis Hr0 : h0 !! r = None.
Hypothesis Hq0 : hstart !! q = None.
Hypothesis Hstart : h0 ⊆ hstart.
Hypothesis Hrs : Pockets rs = Slice q (length hs).

Local Abbreviation copying := (copying h0 hstart r q rs hs pockets).

Lemma Dupe_pocket_spec (i : nat) (h : store) :
  (i < length hs)%nat → copying i h →
  ∃ h', Dupe_pocket p r i h = Some h' ∧ copying (S i) h'.
Proof.
  intros Hi (Hsub & Hkeep & Hr & a & Hq & Hlen & Hall).
  destruct (lookup_lt_is_Some_2 hs i Hi) as [src Hsrc].
  destruct (Forall2_lookup_l _ _ _ _ _ Hpockets Hsrc) as (cs & Hcs & Hread).
  pose proof (read_cards_length _ _ _ Hread) as Hlencs.
  assert (h0 !! q = None) as Hq00
    by apply (subseteq_fresh h0 hstart q Hstart Hq0).
  assert (∀ h', h0 ⊆ h' → header_index h' (Pockets st) i = Some src) as Hidx.
  { intros h' Hsub'. unfold header_index.
    rewrite (read_headers_mono _ _ _ _ Hsub' Hhs). by opt. }
  assert (∀ h', h0 ⊆ h' → struct_at h' p = Some st) as Hstp.
  { intros h' Hsub'. apply (struct_at_mono h0); [done|].
    by apply struct_at_Some. }
  unfold Dupe_pocket. rewrite Hstp by done. opt. rewrite Hidx by done. opt.
  unfold make_cards, alloc. set (x := fresh (dom h)).
  assert (h !! x = None) as Hx by apply not_elem_of_dom, is_fresh.
  assert (h0 !! x = None) as Hx0 by apply (subseteq_fresh h0 h x Hsub Hx).
  assert (r ≠ x) as Hrx by congruence.
  assert (q ≠ x) as Hqx by congruence.
  assert (r ≠ q) as Hrq by congruence.
  rewrite <- Hlencs.
  set (h1 := <[x := Cards (replicate (length cs) 0)]> h).
  assert (struct_at h1 r = Some rs) as ->
    by (apply struct_at_Some; subst h1; by simplify_map_eq).
  opt. rewrite Hrs. unfold header_store.
  assert (headers_at h1 q = Some a) as ->
    by (apply headers_at_Some; subst h1; by simplify_map_eq).
  opt. rewrite decide_True by lia. opt.
  set (a' := <[i := Slice x (length cs)]> a).
  set (h2 := <[q := Headers a']> h1).
  assert (h0 ⊆ h2) as Hsub2.
  { subst h2 h1. apply insert_subseteq_r; [done|]. by apply insert_subseteq_r. }
  assert (struct_at h2 r = Some rs) as ->
    by (apply struct_at_Some; subst h2 h1; by simplify_map_eq).
  opt. rewrite Hrs.
  assert (a' !! i = Some (Slice x (length cs))) as Ha'i
    by (subst a'; apply list_lookup_insert_eq; lia).
  assert (header_index h2 (Slice q (length hs)) i
          = Some (Slice x (length cs))) as ->.
  { unfold header_index, read_headers.
    assert (headers_at h2 q = Some a') as ->
      by (apply headers_at_Some; subst h2; by simplify_map_eq).
    opt. rewrite decide_True by (subst a'; rewrite length_insert; lia).
    opt. rewrite lookup_take_lt by done. done. }
  opt. rewrite Hstp by done. opt. rewrite Hidx by done. opt.
  unfold copy_cards.
  rewrite (read_cards_mono _ _ _ _ Hsub2 Hread). opt.
  assert (cards_at h2 x = Some (replicate (length cs) 0)) as ->
    by (apply cards_at_Some; subst h2 h1; by simplify_map_eq).
  opt. rewrite copy_zeroed.
  eexists. split; [done|]. unfold copying. split_and!.
  - by apply insert_subseteq_r.
  - intros l c Hl Hc. assert (l ≠ q) by congruence.
    pose proof (Hkeep l c Hl Hc). assert (l ≠ x) by congruence.
    subst h2 h1. by simplify_map_eq.
  - subst h2 h1. by simplify_map_eq.
  - exists a'. split; [subst h2 h1; by simplify_map_eq|].
    split; [subst a'; by rewrite length_insert|].
    rewrite (take_S_r _ _ _ Ha'i), (take_S_r _ _ _ Hcs).
    apply Forall2_app.
    + subst a'. rewrite take_insert_ge by lia.
      eapply Forall2_impl; [exact Hall|]. intros s' cs'.
      apply fresh_cards_keeps. intros l c Hl.
      assert (l ≠ q) by congruence. assert (l ≠ x) by congruence.
      subst h2 h1. by simplify_map_eq.
    + constructor; [|constructor]. right. exists x.
      split; [done|]. split; [done|]. subst h2 h1. by simplify_map_eq.
Qed.

End Pockets.

(** The block that copies the pockets. *)
Lemma Dupe_pockets_spec (h0 h : store) (p r : loc) (st rs : run)
    (hs : list slice) (pockets : list (list Card)) :
  h0 ⊆ h → h0 !! p = Some (Struct st) →
  read_headers h0 (Pockets st) = Some hs →
  mapM (read_cards h0) hs = Some pockets →
  h !! r = Some (Struct rs) → Pockets rs = Nil → h0 !! r = None →
  ∃ h' s,
    Dupe_pockets p r h = Some h' ∧
    h0 ⊆ h' ∧ keeps r h h' ∧
    h' !! r = Some (Struct (mkrun (Discard rs) s (Hi rs) (Lo rs))) ∧
    fresh_pockets h0 h' s pockets.
Proof.
  intros Hsub Hp Hhs Hpockets Hr Hnil Hr0. apply mapM_Some in Hpockets.
  unfold Dupe_pockets.
  rewrite (struct_at_mono h0 h p st Hsub) by by apply struct_at_Some. opt.
  destruct (Pockets st) as [|ph n] eqn:Hst.
  { injection Hhs as <-. apply Forall2_nil_inv_l in Hpockets as ->.
    exists h, Nil. split_and!; try done; [apply keeps_refl| |by left].
    destruct rs; simpl in *. by subst. }
  assert (length hs = n) as Hn.
  { simpl in Hhs. destruct (headers_at h0 ph); [simpl in Hhs|done].
    case_decide; [|done]. injection Hhs as <-. rewrite length_take. lia. }
  subst n. unfold make_headers, alloc. set (q := fresh (dom h)).
  assert (h !! q = None) as Hq by apply not_elem_of_dom, is_fresh.
  assert (r ≠ q) as Hrq by congruence.
  unfold set_Pockets.
  assert (struct_at (<[q := Headers (replicate (length hs) Nil)]> h) r
          = Some rs) as -> by (apply struct_at_Some; by simplify_map_eq).
  opt.
  set (rs' := mkrun (Discard rs) (Slice q (length hs)) (Hi rs) (Lo rs)).
  set (h2 := <[r := Struct rs']>
               (<[q := Headers (replicate (length hs) Nil)]> h)).
  destruct (for_each_seq_invariant
              (copying h0 h r q rs' hs pockets)
              (Dupe_pocket p r) (length hs) h2) as (h' & Hloop & Hend).
  - unfold copying. split_and!.
    + subst h2. apply insert_subseteq_r; [done|].
      apply insert_subseteq_r; [by eapply subseteq_fresh|done].
    + intros l c Hl Hc. assert (l ≠ q) by congruence.
      subst h2. by simplify_map_eq.
    + subst h2. by simplify_map_eq.
    + exists (replicate (length hs) Nil).
      split; [subst h2; by simplify_map_eq|].
      split; [by rewrite length_replicate|]. rewrite !take_0. constructor.
  - intros i s Hi Hs.
    apply (Dupe_pocket_spec h0 h p r q st rs' hs pockets); try done.
    by rewrite Hst.
  - destruct Hend as (Hsub' & Hkeep & Hr' & a & Hq' & Hlen & Hall).
    exists h', (Slice q (length hs)). split; [done|]. split_and!; try done.
    right. exists q, a. rewrite Hlen. split; [done|].
    split; [apply (subseteq_fresh h0 h q Hsub Hq)|]. split; [done|].
    pose proof (Forall2_length _ _ _ Hpockets) as Hlenp.
    rewrite <- Hlen, firstn_all in Hall.
    by rewrite Hlen, Hlenp, firstn_all in Hall.
Qed.

(** The run that the new pointer stands for, and what it reaches. *)
Lemma fresh_run_view (h0 h : store) (r : loc) (ps his los : slice)
    (pockets : list (list Card)) (hi lo : list Card) :
  h !! r = Some (Struct (mkrun Nil ps his los)) →
  fresh_pockets h0 h ps pockets →
  fresh_cards h0 h his hi → fresh_cards h0 h los lo →
  view h r = Some (Run.mk [] pockets hi lo).
Proof.
  intros Hr Hps Hhi Hlo. unfold view.
  apply struct_at_Some in Hr. rewrite Hr. opt. cbn [read_cards Discard]. opt.
  cbn [Pockets Hi Lo].
  rewrite (fresh_cards_read _ _ _ _ Hhi), (fresh_cards_read _ _ _ _ Hlo).
  destruct Hps as [[-> ->] | (q & a & -> & Hq0 & Hq & Hall)]; [done|].
  unfold read_headers. apply headers_at_Some in Hq. rewrite Hq. opt.
  rewrite decide_True by done. opt. rewrite firstn_all.
  assert (mapM (read_cards h) a = Some pockets) as ->; [|done].
  apply mapM_Some. eapply Forall2_impl; [exact Hall|].
  intros s cs. apply fresh_cards_read.
Qed.

Lemma fresh_run_reach (h0 h : store) (r : loc) (ps his los : slice)
    (pockets : list (list Card)) (hi lo : list Card) (l : loc) :
  h0 !! r = None →
  h !! r = Some (Struct (mkrun Nil ps his los)) →
  fresh_pockets h0 h ps pockets →
  fresh_cards h0 h his hi → fresh_cards h0 h los lo →
  reach h r l → h0 !! l = None ∧ is_Some (h !! l).
Proof.
  intros Hr0 Hr Hps Hhi Hlo Hreach.
  assert (∀ s cs p n, fresh_cards h0 h s cs → s = Slice p n →
            h0 !! p = None ∧ is_Some (h !! p)) as Hcards.
  { intros s cs p n [[-> _] | (p' & -> & Hp0 & Hp)] [= <- <-]; eauto. }
  destruct Hreach as [|st p n Hst Hs|st q m a p n Hst Hs Ha Hin];
    try (apply struct_at_Some in Hst; rewrite Hr in Hst;
         injection Hst as <-; simpl in Hs).
  - eauto.
  - unfold slices in Hs. simpl in Hs.
    apply elem_of_cons in Hs as [Hs | Hs]; [done|].
    apply elem_of_cons in Hs as [Hs | Hs].
    { destruct Hps as [[-> _] | (q & a & -> & Hq0 & Hq & _)]; [done|].
      injection Hs as ->. eauto. }
    apply elem_of_cons in Hs as [Hs | Hs];
      [by apply (Hcards _ _ p n Hhi)|].
    apply elem_of_cons in Hs as [Hs | Hs];
      [by apply (Hcards _ _ p n Hlo)|].
    by apply elem_of_nil in Hs.
  - destruct Hps as [[-> _] | (q' & a' & -> & Hq0 & Hq & Hall)]; [done|].
    injection Hs as <- <-. apply headers_at_Some in Ha.
    rewrite Hq in Ha. injection Ha as <-.
    apply list_elem_of_lookup in Hin as [i Hi].
    destruct (Forall2_lookup_l _ _ _ _ _ Hall Hi) as (cs & _ & Hfresh).
    by apply (Hcards _ _ p n Hfresh).
Qed.

Lemma view_Some (h : store) (r : loc) (v : Run.t) :
  view h r = Some v →
  ∃ st hs,
    h !! r = Some (Struct st) ∧
    read_cards h (Discard st) = Some (Run.Discard v) ∧
    read_headers h (Pockets st) = Some hs ∧
    mapM (read_cards h) hs = Some (Run.Pockets v) ∧
    read_cards h (Hi st) = Some (Run.Hi v) ∧
    read_cards h (Lo st) = Some (Run.Lo v).
Proof.
  unfold view. intros H.
  apply bind_Some in H as (st & Hst & H).
  apply bind_Some in H as (discard & Hdiscard & H).
  apply bind_Some in H as (hs & Hhs & H).
  apply bind_Some in H as (pockets & Hpockets & H).
  apply bind_Some in H as (hi & Hhi & H).
  apply bind_Some in H as (lo & Hlo & H).
  injection H as <-. exists st, hs. by apply struct_at_Some in Hst.
Qed.

(** [Dupe] on a run that can be read: it does not panic, it leaves every
    cell of the store as it was, and the new run, made of new cells
    only, holds the pockets and the boards of the old one and an empty
    discard pile. *)
Lemma Dupe_spec (h : store) (p : loc) (v : Run.t) :
  view h p = Some v →
  ∃ q h',
    Dupe h p = Some (q, h') ∧
    h ⊆ h' ∧
    view h' q = Some (Run.Dupe v) ∧
    (∀ l, reach h' q l → h !! l = None ∧ is_Some (h' !! l)).
Proof.
  intros (st & hs & Hp & Hdiscard & Hhs & Hpockets & Hhi & Hlo)%view_Some.
  unfold Dupe, alloc. set (r := fresh (dom h)).
  assert (h !! r = None) as Hr0 by apply not_elem_of_dom, is_fresh.
  set (h1 := <[r := Struct (mkrun Nil Nil Nil Nil)]> h).
  assert (h ⊆ h1) as Hsub1 by by apply insert_subseteq.
  destruct (Dupe_pockets_spec h h1 p r st (mkrun Nil Nil Nil Nil) hs
              (Run.Pockets v))
    as (h2 & ps & -> & Hsub2 & Hkeep2 & Hr2 & Hps); try done.
  { subst h1. by simplify_map_eq. }
  opt. simpl in Hr2.
  destruct (Dupe_cards_spec Hi set_Hi
              (λ rs s, mkrun (Discard rs) (Pockets rs) s (Lo rs))
              h h2 p r st (mkrun Nil ps Nil Nil) (Run.Hi v))
    as (h3 & his & -> & Hsub3 & Hkeep3 & Hr3 & Hhis); try done.
  { intros h' r' s rs Hrs. unfold set_Hi. by rewrite Hrs. }
  { intros [] Hnil. simpl in *. by subst. }
  { by apply struct_at_Some. }
  { by apply struct_at_Some. }
  opt. simpl in Hr3.
  destruct (Dupe_cards_spec Lo set_Lo
              (λ rs s, mkrun (Discard rs) (Pockets rs) (Hi rs) s)
              h h3 p r st (mkrun Nil ps his Nil) (Run.Lo v))
    as (h4 & los & -> & Hsub4 & Hkeep4 & Hr4 & Hlos); try done.
  { intros h' r' s rs Hrs. unfold set_Lo. by rewrite Hrs. }
  { intros [] Hnil. simpl in *. by subst. }
  { by apply struct_at_Some. }
  opt. simpl in Hr4. apply struct_at_Some in Hr3, Hr4.
  assert (fresh_pockets h h4 ps (Run.Pockets v)) as Hps4.
  { eapply fresh_pockets_keeps; [exact Hkeep4|exact Hr3|].
    eapply fresh_pockets_keeps; [exact Hkeep3|exact Hr2|done]. }
  assert (fresh_cards h h4 his (Run.Hi v)) as Hhis4.
  { eapply fresh_cards_keeps; [|exact Hhis].
    eapply keeps_keeps_cards; [exact Hkeep4|exact Hr3]. }
  exists r, h4. split; [done|]. split; [done|]. split.
  - rewrite (fresh_run_view h h4 r ps his los _ _ _ Hr4 Hps4 Hhis4 Hlos).
    unfold Run.Dupe. by rewrite list_fmap_id.
  - intros l.
    by apply (fresh_run_reach h h4 r ps his los (Run.Pockets v) (Run.Hi v)
                (Run.Lo v) l Hr0 Hr4).
Qed.

(** *** Reading a run goes by what it reaches *)

Lemma reach_Pockets (h : store) (r q : loc) (st : run) (m : nat) :
  struct_at h r = Some st → Pockets st = Slice q m → reach h r q.
Proof.
  intros Hr Hq. apply (reach_field h r st q m Hr).
  unfold slices. rewrite Hq. set_solver.
Qed.

Lemma reach_agree (h h' : store) (r l : loc) :
  (∀ l, reach h r l → h' !! l = h !! l) →
  reach h' r l → reach h r l.
Proof.
  intros Hagree Hreach.
  assert (struct_at h' r = struct_at h r) as Hst
    by (unfold struct_at; by rewrite (Hagree r (reach_struct h r))).
  destruct Hreach as [|st p n Hr Hs|st q m a p n Hr Hs Ha Hin].
  - constructor.
  - rewrite Hst in Hr. by eapply reach_field.
  - rewrite Hst in Hr.
    assert (reach h r q) as Hq by by eapply reach_Pockets.
    unfold headers_at in Ha. rewrite (Hagree q Hq) in Ha.
    by eapply reach_pocket.
Qed.

Lemma view_agree (h h' : store) (r : loc) :
  (∀ l, reach h r l → h' !! l = h !! l) →
  view h' r = view h r.
Proof.
  intros Hagree. unfold view.
  assert (struct_at h' r = struct_at h r) as ->
    by (unfold struct_at; by rewrite (Hagree r (reach_struct h r))).
  destruct (struct_at h r) as [st|] eqn:Hst; [opt|done].
  assert (∀ s, s ∈ slices st → read_cards h' s = read_cards h s) as Hcards.
  { intros s Hs. apply read_cards_agree. intros p n ->.
    apply Hagree. by eapply reach_field. }
  assert (read_headers h' (Pockets st) = read_headers h (Pockets st)) as ->.
  { apply read_headers_agree. intros p n Hp. apply Hagree.
    by eapply reach_Pockets. }
  rewrite !Hcards by (unfold slices; set_solver).
  destruct (read_cards h (Discard st)); [opt|done].
  destruct (read_headers h (Pockets st)) as [hs|] eqn:Hhs; [opt|done].
  assert (mapM (read_cards h') hs = mapM (read_cards h) hs) as ->; [|done].
  apply mapM_ext_in. intros s Hs. apply read_cards_agree. intros p n ->.
  apply Hagree. destruct (Pockets st) as [|q m] eqn:Hq.
  { injection Hhs as <-. by apply elem_of_nil in Hs. }
  simpl in Hhs. destruct (headers_at h q) as [a|] eqn:Ha; [simpl in Hhs|done].
  case_decide; [|done]. injection Hhs as <-.
  apply elem_of_take in Hs as (i & Hi & _).
  eapply reach_pocket; [done..|]. apply list_elem_of_lookup. eauto.
Qed.

(** What the computed list holds is what the run reaches. *)
Lemma elem_of_pointers (ss : list slice) (p : loc) :
  p ∈ pointers ss ↔ ∃ n, Slice p n ∈ ss.
Proof.
  unfold pointers. rewrite list_elem_of_bind. split.
  - intros ([|p' n] & Hp & Hs); [by apply elem_of_nil in Hp|].
    apply list_elem_of_singleton in Hp as ->. by exists n.
  - intros [n Hn]. exists (Slice p n). split; [set_solver|done].
Qed.

Lemma reach_locs (h : store) (r l : loc) : reach h r l → l ∈ locs h r.
Proof.
  unfold locs. intros [|st p n Hr Hs|st q m a p n Hr Hs Ha Hin].
  - set_solver.
  - rewrite Hr. apply list_elem_of_further, elem_of_app. left.
    apply elem_of_pointers. by exists n.
  - rewrite Hr, Hs, Ha. apply list_elem_of_further, elem_of_app. right.
    apply elem_of_pointers. by exists n.
Qed.

Lemma closed_locs (h : store) (r : loc) :
  Forall (λ l, is_Some (h !! l)) (locs h r) → closed h r.
Proof.
  intros Hall l Hl. apply reach_locs in Hl.
  by apply (proj1 (Forall_forall _ _) Hall).
Qed.

(** *** Writing through a run stays within what it reaches *)

Lemma elem_of_insert_inv {A} (l : list A) (i : nat) (x y : A) :
  y ∈ <[i := x]> l → y = x ∨ y ∈ l.
Proof.
  intros [j Hj]%list_elem_of_lookup.
  destruct (decide (i = j)) as [->|Hij].
  - destruct (decide (j < length l)%nat).
    + rewrite list_lookup_insert_eq in Hj by done. left. congruence.
    + rewrite list_insert_ge in Hj by lia. right.
      apply list_elem_of_lookup. eauto.
  - rewrite list_lookup_insert_ne in Hj by done. right.
    apply list_elem_of_lookup. eauto.
Qed.

(** A new or rewritten array of cards adds nothing to what a run
    reaches. *)
Lemma reach_insert_cards (h : store) (p x l : loc) (a' : list Card) :
  reach (<[p := Cards a']> h) x l → reach h x l.
Proof.
  assert (∀ z st, struct_at (<[p := Cards a']> h) z = Some st →
            struct_at h z = Some st) as Hst.
  { intros z st. rewrite !struct_at_Some.
    destruct (decide (p = z)) as [->|]; by simplify_map_eq. }
  assert (∀ z a, headers_at (<[p := Cards a']> h) z = Some a →
            headers_at h z = Some a) as Hhd.
  { intros z a. rewrite !headers_at_Some.
    destruct (decide (p = z)) as [->|]; by simplify_map_eq. }
  intros [|st q n Hr Hs|st q m a q' n Hr Hs Ha Hin].
  - constructor.
  - eapply reach_field; eauto.
  - eapply reach_pocket; eauto.
Qed.

Lemma get_field_reach (h : store) (x : loc) (f : field) (p : loc) (n : nat) :
  get_field h x f = Some (Slice p n) → reach h x p.
Proof.
  unfold get_field. intros H. apply bind_Some in H as (st & Hst & H).
  destruct f as [| | |i];
    try (injection H as H; apply (reach_field h x st p n Hst);
         unfold slices; rewrite H; set_solver).
  unfold header_index in H. apply bind_Some in H as (hs & Hhs & Hi).
  destruct (Pockets st) as [|q m] eqn:Hq.
  { injection Hhs as <-. by rewrite lookup_nil in Hi. }
  simpl in Hhs. apply bind_Some in Hhs as (a & Ha & Hhs).
  case_decide; [|done]. injection Hhs as <-.
  apply lookup_take_Some in Hi as [Hi _].
  eapply reach_pocket; [done..|]. apply list_elem_of_lookup. eauto.
Qed.

(** The three ways of [append]: nothing to do, in place, in a new
    array. *)
Lemma append_spec (room : nat → nat) (h h1 : store) (s s' : slice)
    (cs : list Card) :
  append room h s cs = Some (s', h1) →
  (s' = s ∧ h1 = h) ∨
  (∃ p n n' a a', s = Slice p n ∧ s' = Slice p n' ∧
                  h !! p = Some (Cards a) ∧ h1 = <[p := Cards a']> h) ∨
  (∃ y n' a', h !! y = None ∧ s' = Slice y n' ∧ h1 = <[y := Cards a']> h).
Proof.
  unfold append. destruct cs as [|c cs]; [intros [= <- <-]; by left|].
  intros H. apply bind_Some in H as (old & Hold & H).
  destruct s as [|p n].
  - unfold alloc in H. injection H as <- <-. right. right.
    eexists _, _, _. split; [apply not_elem_of_dom, is_fresh|done].
  - apply bind_Some in H as (a & Ha & H). apply cards_at_Some in Ha.
    case_decide.
    + injection H as <- <-. right. left. by eexists _, _, _, _, _.
    + unfold alloc in H. injection H as <- <-. right. right.
      eexists _, _, _. split; [apply not_elem_of_dom, is_fresh|done].
Qed.

Lemma struct_update_written (h : store) (x : loc) (st st' : run) (s : slice) :
  h !! x = Some (Struct st) →
  Pockets st' = Pockets st ∨ Pockets st' = Nil →
  (∀ t, t ∈ slices st' → t = s ∨ t ∈ slices st) →
  written h (<[x := Struct st']> h) x s.
Proof.
  intros Hx Hp Hs. split_and!.
  - intros l Hl. apply lookup_insert_ne. intros <-. apply Hl. constructor.
  - intros l Hl. destruct (decide (x = l)) as [<-|]; by simplify_map_eq.
  - intros l [|st1 p n Hr Hin|st1 q m a p n Hr Hq Ha Hin].
    + left. constructor.
    + apply struct_at_Some in Hr. simplify_map_eq.
      destruct (Hs _ Hin) as [<- | Hin']; [by eauto|].
      left. eapply reach_field; [by apply struct_at_Some|done].
    + apply struct_at_Some in Hr. simplify_map_eq.
      destruct Hp as [Hp | Hp]; [|congruence]. rewrite Hp in Hq.
      apply headers_at_Some in Ha.
      destruct (decide (x = q)) as [<-|]; [by simplify_map_eq|].
      rewrite lookup_insert_ne in Ha by done.
      left. eapply reach_pocket;
        [by apply struct_at_Some|done|by apply headers_at_Some|done].
Qed.

Lemma header_update_written (h : store) (x q : loc) (st : run) (m i : nat)
    (a : list slice) (s : slice) :
  h !! x = Some (Struct st) → Pockets st = Slice q m →
  h !! q = Some (Headers a) →
  written h (<[q := Headers (<[i := s]> a)]> h) x s.
Proof.
  intros Hx Hq Ha.
  assert (x ≠ q) as Hxq by congruence.
  assert (reach h x q) as Hreach
    by (eapply reach_Pockets; [by apply struct_at_Some|done]).
  split_and!.
  - intros l Hl. apply lookup_insert_ne. by intros <-.
  - intros l Hl. destruct (decide (q = l)) as [<-|]; by simplify_map_eq.
  - intros l [|st1 p n Hr Hin|st1 q1 m1 a1 p n Hr Hq1 Ha1 Hin].
    + left. constructor.
    + apply struct_at_Some in Hr. simplify_map_eq.
      left. eapply reach_field; [by apply struct_at_Some|done].
    + apply struct_at_Some in Hr. simplify_map_eq.
      rewrite Hq in Hq1. injection Hq1 as <- <-.
      apply headers_at_Some in Ha1. rewrite lookup_insert_eq in Ha1.
      injection Ha1 as <-.
      apply elem_of_insert_inv in Hin as [<- | Hin]; [by eauto|].
      left. eapply reach_pocket;
        [by apply struct_at_Some|done|by apply headers_at_Some|done].
Qed.

Lemma set_field_written (h h' : store) (x : loc) (f : field) (s : slice) :
  set_field h x f s = Some h' → written h h' x s.
Proof.
  unfold set_field, set_Discard, set_Hi, set_Lo. intros H.
  destruct f as [| | |i]; apply bind_Some in H as (st & Hst & H);
    apply struct_at_Some in Hst.
  1-3: injection H as <-; apply (struct_update_written h x st); [done|by left|];
       unfold slices; simpl; intros t; rewrite !elem_of_cons; tauto.
  unfold header_store in H. destruct (Pockets st) as [|q m] eqn:Hq; [done|].
  apply bind_Some in H as (a & Ha & H). apply headers_at_Some in Ha.
  case_decide; [|done]. injection H as <-.
  by eapply header_update_written.
Qed.

Lemma set_Pockets_Nil_written (h h' : store) (x : loc) :
  set_Pockets h x Nil = Some h' → written h h' x Nil.
Proof.
  unfold set_Pockets. intros H. apply bind_Some in H as (st & Hst & H).
  apply struct_at_Some in Hst. injection H as <-.
  apply (struct_update_written h x st); [done|by right|].
  unfold slices. simpl. intros t. rewrite !elem_of_cons. tauto.
Qed.

Lemma framed_refl (h : store) (x : loc) : framed h h x.
Proof. split_and!; eauto. Qed.

Lemma framed_trans (h h1 h2 : store) (x : loc) :
  framed h h1 x → framed h1 h2 x → framed h h2 x.
Proof.
  intros (Hf1 & Hd1 & Hr1) (Hf2 & Hd2 & Hr2). split_and!.
  - intros l Hl Hnot. rewrite <- (Hf1 l Hl Hnot). apply Hf2; [by apply Hd1|].
    intros [Hreach | Hnone]%Hr1; [done|].
    rewrite Hnone in Hl. by destruct Hl.
  - intros l Hl. by apply Hd2, Hd1.
  - intros l [Hreach | Hnone]%Hr2; [by apply Hr1|]. right.
    destruct (h !! l) eqn:Hl; [|done].
    destruct (Hd1 l) as [c' Hc]; [by eauto|]. congruence.
Qed.

Section Mutate.
Variable room : nat → nat.

Lemma mutate_framed (h h' : store) (x : loc) (m : mutation) :
  mutate room h x m = Some h' → framed h h' x.
Proof.
  destruct m as [f j c|f cs|f|]; simpl; intros H.
  - apply bind_Some in H as ([|p n] & Hget & H); [done|].
    apply bind_Some in H as (a & Ha & H). case_decide; [|done].
    injection H as <-. apply get_field_reach in Hget.
    apply cards_at_Some in Ha. split_and!.
    + intros l _ Hl. apply lookup_insert_ne. by intros <-.
    + intros l Hl. destruct (decide (p = l)) as [<-|]; by simplify_map_eq.
    + intros l Hl. left. by eapply reach_insert_cards.
  - apply bind_Some in H as (s & Hget & H).
    apply bind_Some in H as ([s' h1] & Happ & H).
    apply set_field_written in H as (Hw1 & Hw2 & Hw3).
    apply append_spec in Happ
      as [[-> ->] | [(p & n & n' & a & a' & -> & -> & Hp & ->)
                    | (y & n' & a' & Hy & -> & ->)]].
    + split_and!; [by eauto|done|].
      intros l [Hreach | [n ->]]%Hw3; [by left|].
      left. by eapply get_field_reach.
    + apply get_field_reach in Hget. split_and!.
      * intros l Hl Hnot. rewrite Hw1.
        -- apply lookup_insert_ne. by intros <-.
        -- intros Hreach. by apply Hnot, (reach_insert_cards h p x l a').
      * intros l Hl. apply Hw2.
        destruct (decide (p = l)) as [<-|]; by simplify_map_eq.
      * intros l [Hreach | [n0 [= <- _]]]%Hw3; [|by left].
        left. by eapply reach_insert_cards.
    + split_and!.
      * intros l Hl Hnot. rewrite Hw1.
        -- apply lookup_insert_ne. intros <-. rewrite Hy in Hl. by destruct Hl.
        -- intros Hreach. by apply Hnot, (reach_insert_cards h y x l a').
      * intros l Hl. apply Hw2.
        destruct (decide (y = l)) as [<-|]; by simplify_map_eq.
      * intros l [Hreach | [n0 [= <- _]]]%Hw3; [|by right].
        left. by eapply reach_insert_cards.
  - apply set_field_written in H as (Hw1 & Hw2 & Hw3).
    split_and!; [by eauto|done|].
    intros l [Hreach | [n [=]]]%Hw3. by left.
  - apply set_Pockets_Nil_written in H as (Hw1 & Hw2 & Hw3).
    split_and!; [by eauto|done|].
    intros l [Hreach | [n [=]]]%Hw3. by left.
Qed.

Lemma mutates_framed (ms : list mutation) : ∀ (h h' : store) (x : loc),
  mutates room h x ms = Some h' → framed h h' x.
Proof.
  induction ms as [|m ms IH]; intros h h' x; simpl.
  - intros [= <-]. apply framed_refl.
  - intros H. apply bind_Some in H as (h1 & Hm & Hms).
    eapply framed_trans; [by eapply mutate_framed|by apply IH].
Qed.

(** Writing through one run does not change what another run holds,
    when the two share no location and the other has no dangling
    pointer. *)
Lemma mutates_apart (h h' : store) (x y : loc) (ms : list mutation) :
  mutates room h x ms = Some h' →
  closed h y → apart h x y →
  view h' y = view h y.
Proof.
  intros (Hframe & _ & _)%mutates_framed Hclosed Hapart.
  apply view_agree. intros l Hl. apply Hframe; [by apply Hclosed|].
  intros Hx. by apply (Hapart l).
Qed.

(** C3, as amended. [Dupe] of a run that has no dangling pointer returns
    a run whose pockets, high board and low board are equal by content
    to those of the original, and whose discard pile is empty: the
    discard pile is not copied. The copy is held in storage of its own:
    after the duplication, whatever is assigned to, appended to or
    cleared in the slices of one of the two runs, the other run holds
    what it held. *)
Theorem Dupe_independent (h : store) (p : loc) (v : Run.t) :
  closed h p → view h p = Some v →
  ∃ q h',
    Dupe h p = Some (q, h') ∧
    view h' p = Some v ∧
    view h' q = Some (Run.Dupe v) ∧
    Run.Discard (Run.Dupe v) = [] ∧
    Run.Pockets (Run.Dupe v) = Run.Pockets v ∧
    Run.Hi (Run.Dupe v) = Run.Hi v ∧
    Run.Lo (Run.Dupe v) = Run.Lo v ∧
    (∀ ms h'', mutates room h' q ms = Some h'' → view h'' p = Some v) ∧
    (∀ ms h'', mutates room h' p ms = Some h'' →
               view h'' q = Some (Run.Dupe v)).
Proof.
  intros Hclosed Hview.
  destruct (Dupe_spec h p v Hview) as (q & h' & HDupe & Hsub & Hq & Hnew).
  assert (∀ l, reach h p l → h' !! l = h !! l) as Hagree.
  { intros l [c Hc]%Hclosed. rewrite Hc. by eapply lookup_weaken. }
  assert (view h' p = Some v) as Hp by by rewrite (view_agree h h' p Hagree).
  assert (closed h' p) as Hclosed'.
  { intros l Hl%(reach_agree h h' p l Hagree).
    rewrite (Hagree l Hl). by apply Hclosed. }
  assert (closed h' q) as Hclosedq by (intros l Hl; by apply Hnew).
  assert (apart h' p q) as Hapart.
  { intros l Hl%(reach_agree h h' p l Hagree) [Hnone _]%Hnew.
    apply Hclosed in Hl. rewrite Hnone in Hl. by destruct Hl. }
  exists q, h'. split_and!; try done.
  - unfold Run.Dupe. simpl. apply list_fmap_id.
  - intros ms h'' Hms. rewrite <- Hp.
    apply (mutates_apart h' h'' q p ms Hms Hclosed').
    intros l Hlq Hlp. by apply (Hapart l).
  - intros ms h'' Hms. rewrite <- Hq.
    by apply (mutates_apart h' h'' p q ms Hms Hclosedq).
Qed.

End Mutate.

Lemma Dupe_independent_witness :
  ∃ q h',
    Dupe Fixture.flop_store 0%nat = Some (q, h') ∧
    view h' 0%nat = Some Fixture.flop_run ∧
    view h' q = Some (Run.Dupe Fixture.flop_run) ∧
    Run.Discard (Run.Dupe Fixture.flop_run) = [] ∧
    Run.Pockets (Run.Dupe Fixture.flop_run) = Run.Pockets Fixture.flop_run ∧
    Run.Hi (Run.Dupe Fixture.flop_run) = Run.Hi Fixture.flop_run ∧
    Run.Lo (Run.Dupe Fixture.flop_run) = Run.Lo Fixture.flop_run ∧
    (∀ ms h'', mutates Fixture.doubling h' q ms = Some h'' →
               view h'' 0%nat = Some Fixture.flop_run) ∧
    (∀ ms h'', mutates Fixture.doubling h' 0%nat ms = Some h'' →
               view h'' q = Some (Run.Dupe Fixture.flop_run)).
Proof.
  apply (Dupe_independent Fixture.doubling Fixture.flop_store 0%nat
           Fixture.flop_run).
  - apply closed_locs. vm_compute. repeat (constructor; [by eexists|]).
    constructor.
  - reflexivity.
Defined.

(** C3, as stated, fails on the discard pile: the run with one burnt
    card is duplicated into a run with none. *)
Lemma Dupe_independent_counterexample :
  ∃ q h',
    Dupe Fixture.flop_store 0%nat = Some (q, h') ∧
    Run.Discard <$> view Fixture.flop_store 0%nat = Some [6] ∧
    Run.Discard <$> view h' q = Some [].
Proof.
  eexists _, _. split; [vm_compute; reflexivity|]. split; by vm_compute.
Qed.

End RunStoreFacts.

(** ** Deck: drawing, listing and shuffling *)

Module DrawFacts.
Import GoInt GoIntFacts.

(** On a readable deck, a count that does not overflow the cursor
    draws the next cards, as many as the count and the limit allow. *)
Lemma Draw_cards (d : Deck.t) (count : Z) :
  Deck.readable d → 0 ≤ count → Deck.I d + count ≤ max_int →
  let n := Z.to_nat (Z.min count (Deck.L d - Deck.I d)) in
  Deck.Draw d count =
    Some (take n (drop (Z.to_nat (Deck.I d)) (Deck.V d)),
          Deck.mk (Deck.I d + Z.of_nat n) (Deck.L d) (Deck.V d)).
Proof.
  intros [Hi Hl] Hc Hm n. unfold Deck.Draw.
  destruct (Z.ltb_spec count 0); [lia|].
  rewrite add_small by (unfold min_int, max_int in *; lia).
  replace (Z.to_nat (Z.min (Deck.I d + count) (Deck.L d) - Deck.I d))
    with n by lia.
  rewrite DeckFacts.Draw_loop_spec; [done|lia..].
Qed.

Lemma Draw_cards_length (d : Deck.t) (n : nat) :
  Deck.readable d → Z.of_nat n ≤ Z.max 0 (Deck.L d - Deck.I d) →
  length (take n (drop (Z.to_nat (Deck.I d)) (Deck.V d))) = n.
Proof.
  intros [Hi Hl] Hn. rewrite length_take, length_drop. unfold len in Hl. lia.
Qed.

(** X1. [Draw] returns no card and leaves the deck as it is when the count
    is negative and when the deck is empty, whatever the count and
    whatever the state of the deck. *)
Theorem Draw_nothing (d : Deck.t) (count : Z) :
  count < 0 ∨ Deck.Empty d = true →
  Deck.Draw d count = Some ([], d).
Proof.
  unfold Deck.Draw, Deck.Empty. intros H.
  destruct (Z.ltb_spec count 0); [done|].
  destruct H as [H|H]; [lia|]. apply Z.leb_le in H.
  replace (Z.to_nat _) with 0%nat by lia. done.
Qed.

Lemma Draw_nothing_witness :
  Deck.Draw (Deck.mk 2 2 [10; 20]) max_int = Some ([], Deck.mk 2 2 [10; 20]).
Proof. apply Draw_nothing. right. reflexivity. Defined.

(** X2. Drawing in two goes is drawing at once: on a readable deck, [Draw a]
    followed by [Draw b] returns, one after the other, the cards that
    [Draw (a+b)] returns, and leaves the deck in the same state. *)
Theorem Draw_split (d : Deck.t) (a b : Z) :
  Deck.readable d → 0 ≤ a → 0 ≤ b → Deck.I d + a + b ≤ max_int →
  ∃ c1 d1 c2 d2,
    Deck.Draw d a = Some (c1, d1) ∧
    Deck.Draw d1 b = Some (c2, d2) ∧
    Deck.Draw d (a + b) = Some (c1 ++ c2, d2).
Proof.
  intros Hr Ha Hb Hm. pose proof Hr as [Hi Hl].
  set (n1 := Z.to_nat (Z.min a (Deck.L d - Deck.I d))).
  set (d1 := Deck.mk (Deck.I d + Z.of_nat n1) (Deck.L d) (Deck.V d)).
  assert (Deck.readable d1) as Hr1 by (split; simpl; lia).
  set (n2 := Z.to_nat (Z.min b (Deck.L d1 - Deck.I d1))).
  exists (take n1 (drop (Z.to_nat (Deck.I d)) (Deck.V d))), d1,
    (take n2 (drop (Z.to_nat (Deck.I d1)) (Deck.V d1))),
    (Deck.mk (Deck.I d1 + Z.of_nat n2) (Deck.L d1) (Deck.V d1)).
  split_and!.
  - apply Draw_cards; [done|done|lia].
  - apply Draw_cards; [done|done|simpl; lia].
  - rewrite Draw_cards by (done || lia). simpl in *.
    replace (Z.to_nat (Z.min (a + b) (Deck.L d - Deck.I d)))
      with (n1 + n2)%nat by lia.
    replace (Z.to_nat (Deck.I d + Z.of_nat n1))
      with (Z.to_nat (Deck.I d) + n1)%nat by lia.
    rewrite <- drop_drop, <- take_take_drop.
    do 3 f_equal. lia.
Qed.

Lemma Draw_split_witness :
  ∃ d1 d2,
    Deck.Draw Fixture.deck52 2 = Some ([0; 1], d1) ∧
    Deck.Draw d1 3 = Some ([2; 3; 4], d2) ∧
    Deck.Draw Fixture.deck52 5 = Some ([0; 1; 2; 3; 4], d2).
Proof.
  destruct (Draw_split Fixture.deck52 2 3) as (c1 & d1 & c2 & d2 & H1 & H2 & H);
    [by vm_compute | lia | lia | by vm_compute |].
  exists d1, d2.
  assert (Some (c1, d1) = Some ([0; 1], Deck.mk 2 52 (range 52))) as [= -> ->]
    by (rewrite <- H1; reflexivity).
  assert (Some (c2, d2) = Some ([2; 3; 4], Deck.mk 5 52 (range 52)))
    as [= -> ->] by (rewrite <- H2; reflexivity).
  split_and!; [exact H1 | exact H2 | exact H].
Defined.

(** X3. On a deck that keeps its invariant, [Draw] with a count that does
    not overflow the cursor takes [min(count, Remaining)] cards off
    [Remaining], keeps the invariant, and leaves the deck [Empty]
    exactly when the count was at least what remained. *)
Theorem Draw_Remaining (d : Deck.t) (count : Z) :
  Deck.wellformed d → 0 ≤ count → Deck.I d + count ≤ max_int →
  ∃ cards d',
    Deck.Draw d count = Some (cards, d') ∧
    Deck.wellformed d' ∧
    len cards = Z.min count (Deck.Remaining d) ∧
    Deck.Remaining d' = Deck.Remaining d - len cards ∧
    (Deck.Empty d' = true ↔ Deck.Remaining d ≤ count).
Proof.
  intros (Hi & Hil & Hl & Hv) Hc Hm.
  assert (Deck.readable d) as Hr by done.
  rewrite (Draw_cards d count) by done.
  set (n := Z.to_nat (Z.min count (Deck.L d - Deck.I d))).
  eexists _, _. split; [done|].
  assert (Deck.Remaining d = Deck.L d - Deck.I d) as ->.
  { rewrite DeckFacts.Remaining_remaining
      by (unfold min_int, max_int in *; lia).
    unfold Deck.remaining. lia. }
  unfold len. rewrite Draw_cards_length by (done || lia).
  split_and!.
  - unfold Deck.wellformed. simpl. lia.
  - lia.
  - unfold Deck.Remaining. simpl.
    rewrite sub_small by (unfold min_int, max_int in *; lia).
    destruct (Z.leb_spec 0 (Deck.L d - (Deck.I d + Z.of_nat n))); lia.
  - unfold Deck.Empty. simpl. rewrite Z.leb_le. lia.
Qed.

Lemma Draw_Remaining_witness :
  ∃ cards d',
    Deck.Draw Fixture.two_cards_one_drawn 5 = Some (cards, d') ∧
    len cards = 1 ∧ Deck.Remaining d' = 0 ∧ Deck.Empty d' = true.
Proof.
  destruct (Draw_Remaining Fixture.two_cards_one_drawn 5)
    as (cards & d' & H & _ & Hlen & Hrem & Hempty).
  - vm_compute. split_and!; discriminate.
  - lia.
  - by vm_compute.
  - exists cards, d'. split; [exact H|].
    change (Deck.Remaining Fixture.two_cards_one_drawn) with 1 in *.
    split; [lia|]. split; [lia|]. apply Hempty. lia.
Defined.

(** X4. [All] returns as many cards as the limit, the cards of the deck
    from the first one, with zero cards after them when the limit passes
    the cards, and the same after any draws: it does not read the
    cursor. When the limit is the number of cards, as [DeckOf] sets it,
    these are the cards of the deck. *)
Theorem All_spec (d : Deck.t) :
  0 ≤ Deck.L d →
  ∃ cards,
    Deck.All d = Some cards ∧
    len cards = Deck.L d ∧
    cards = take (Z.to_nat (Deck.L d)) (Deck.V d)
            ++ replicate (Z.to_nat (Deck.L d) - length (Deck.V d)) 0 ∧
    (Deck.L d = len (Deck.V d) → cards = Deck.V d) ∧
    (∀ counts drawn d',
       Deck.Draws d counts = Some (drawn, d') → Deck.All d' = Some cards).
Proof.
  intros Hl.
  assert (∀ d, 0 ≤ Deck.L d →
            Deck.All d =
              Some (take (Z.to_nat (Deck.L d)) (Deck.V d)
                    ++ replicate (Z.to_nat (Deck.L d) - length (Deck.V d)) 0))
    as Hall.
  { clear. intros d Hl. unfold Deck.All, copy.
    destruct (Z.ltb_spec (Deck.L d) 0); [lia|].
    by rewrite length_replicate, drop_replicate. }
  eexists. split; [by apply Hall|]. split_and!.
  - unfold len. rewrite length_app, length_take, length_replicate. lia.
  - done.
  - unfold len. intros Heq. rewrite Heq, Nat2Z.id, firstn_all, Nat.sub_diag.
    simpl. by rewrite app_nil_r.
  - intros counts drawn d' Hd. apply DeckFacts.Draws_frame in Hd as [HL HV].
    rewrite Hall by lia. by rewrite HL, HV.
Qed.

Lemma All_spec_witness :
  ∃ d',
    Deck.Draws (Deck.DeckOf [10; 20; 30]) [1; 1]
      = Some ([[10]; [20]], d') ∧
    Deck.All d' = Some [10; 20; 30].
Proof.
  destruct (All_spec (Deck.DeckOf [10; 20; 30]))
    as (cards & _ & _ & _ & Hcards & Hdraws); [by vm_compute|].
  exists (Deck.mk 2 3 [10; 20; 30]). split; [reflexivity|].
  rewrite (Hdraws [1; 1] [[10]; [20]] (Deck.mk 2 3 [10; 20; 30]) eq_refl).
  f_equal. by apply Hcards.
Defined.

Lemma swap_Permutation (v v' : list Card) (ij : Z * Z) :
  Deck.swap v ij = Some v' → v' ≡ₚ v.
Proof.
  unfold Deck.swap. destruct ij as [i j]. simpl.
  destruct (index v i) as [x|] eqn:Hx; [simpl|done].
  destruct (index v j) as [y|] eqn:Hy; [simpl|done].
  apply index_Some in Hx as [Hi Hx]. apply index_Some in Hy as [Hj Hy].
  rewrite store_Some by (apply lookup_lt_Some in Hx; unfold len; lia). simpl.
  rewrite store_Some
    by (apply lookup_lt_Some in Hy; unfold len; rewrite length_insert; lia).
  intros [= <-]. by apply Permutation_insert_swap.
Qed.

Lemma swaps_Permutation (l : list (Z * Z)) : ∀ (v v' : list Card),
  Deck.swaps v l = Some v' → v' ≡ₚ v.
Proof.
  induction l as [|ij l IH]; intros v v'; simpl.
  - by intros [= <-].
  - destruct (Deck.swap v ij) as [v1|] eqn:H1; [simpl|done].
    intros H. apply IH in H. apply swap_Permutation in H1. by rewrite H.
Qed.

(** A shuffle that returns has permuted the cards. *)
Lemma Shuffle_Permutation (d d' : Deck.t) (shuffler : Deck.Shuffler)
    (shuffles : Z) :
  Deck.Shuffle d shuffler shuffles = Some d' → Deck.V d' ≡ₚ Deck.V d.
Proof.
  unfold Deck.Shuffle. generalize (range shuffles). intros l. revert d.
  induction l as [|pass l IH]; intros d; simpl.
  - by intros [= <-].
  - destruct (Deck.swaps _ _) as [v|] eqn:Hv; [simpl|done].
    intros H. apply IH in H. simpl in H. apply swaps_Permutation in Hv.
    by rewrite H.
Qed.

Lemma swaps_in_range (l : list (Z * Z)) : ∀ (v : list Card),
  Forall (λ ij, 0 ≤ ij.1 < len v ∧ 0 ≤ ij.2 < len v) l →
  is_Some (Deck.swaps v l).
Proof.
  induction l as [|[i j] l IH]; intros v Hl; simpl; [done|].
  apply Forall_cons in Hl as [[Hi Hj] Hl]. simpl in *.
  unfold Deck.swap. simpl.
  destruct (index_is_Some v i Hi) as [x ->].
  destruct (index_is_Some v j Hj) as [y ->]. simpl.
  rewrite store_Some by done. simpl.
  rewrite store_Some by (unfold len in *; rewrite length_insert; lia). simpl.
  apply IH. unfold len in *. by rewrite !length_insert.
Qed.

(** A shuffler that asks for swaps of positions of the deck does not
    make [Shuffle] panic. *)
Lemma Shuffle_in_range (d : Deck.t) (shuffler : Deck.Shuffler)
    (shuffles : Z) :
  (∀ pass, Forall (λ ij, 0 ≤ ij.1 < len (Deck.V d) ∧
                         0 ≤ ij.2 < len (Deck.V d))
             (shuffler pass (len (Deck.V d)))) →
  is_Some (Deck.Shuffle d shuffler shuffles).
Proof.
  unfold Deck.Shuffle. generalize (range shuffles). intros l.
  revert d. induction l as [|pass l IH]; intros d Hsh; simpl; [eauto|].
  destruct (swaps_in_range _ (Deck.V d) (Hsh (Z.to_nat pass))) as [v Hv].
  rewrite Hv. simpl. apply IH. simpl.
  apply swaps_Permutation, Permutation_length in Hv.
  unfold len in *. by rewrite Hv.
Qed.

(** X5. [Shuffle] with a shuffler that asks, as it should, for swaps of
    positions of the deck does not panic, leaves a permutation of the
    cards, and moves neither the cursor nor the limit; asked for no
    pass, or for a negative number of them, it changes nothing. *)
Theorem Shuffle_permutes (d : Deck.t) (shuffler : Deck.Shuffler)
    (shuffles : Z) :
  (∀ pass, Forall (λ ij, 0 ≤ ij.1 < len (Deck.V d) ∧
                         0 ≤ ij.2 < len (Deck.V d))
             (shuffler pass (len (Deck.V d)))) →
  ∃ d',
    Deck.Shuffle d shuffler shuffles = Some d' ∧
    Deck.V d' ≡ₚ Deck.V d ∧
    Deck.I d' = Deck.I d ∧ Deck.L d' = Deck.L d ∧
    (shuffles ≤ 0 → d' = d).
Proof.
  intros Hsh.
  destruct (Shuffle_in_range d shuffler shuffles Hsh) as [d' Hd'].
  exists d'. split; [done|]. split; [by eapply Shuffle_Permutation|].
  destruct (DeckFacts.Shuffle_cursor _ _ _ _ Hd') as [HI HL].
  split_and!; try done.
  intros Hn. unfold Deck.Shuffle, range in Hd'.
  replace (Z.to_nat shuffles) with 0%nat in Hd' by lia.
  by injection Hd'.
Qed.

Lemma Shuffle_permutes_witness :
  ∃ d',
    Deck.Shuffle (Deck.DeckOf [10; 20; 30]) (λ _ _, [(0, 2); (1, 2)]) 1
      = Some d' ∧
    Deck.V d' ≡ₚ [10; 20; 30].
Proof.
  destruct (Shuffle_permutes (Deck.DeckOf [10; 20; 30])
              (λ _ _, [(0, 2); (1, 2)]) 1) as (d' & H & Hp & _).
  - intros _. repeat constructor; simpl; lia.
  - exists d'. split; [exact H | exact Hp].
Defined.

(** X6. The invariant of a deck, cursor within the limit and limit within
    the cards, holds of what [DeckOf] returns and is kept by [Draw],
    whatever the count, by [Reset], by [Shuffle], and by [Limit] when
    the new limit is between the cursor and the number of cards. *)
Theorem wellformed_kept (cards : list Card) (d : Deck.t) :
  (len cards ≤ max_int → Deck.wellformed (Deck.DeckOf cards)) ∧
  (Deck.wellformed d →
   (∀ count, ∃ drawn d',
      Deck.Draw d count = Some (drawn, d') ∧ Deck.wellformed d') ∧
   Deck.wellformed (Deck.Reset d) ∧
   (∀ shuffler shuffles d',
      Deck.Shuffle d shuffler shuffles = Some d' → Deck.wellformed d') ∧
   (∀ limit, Deck.I d ≤ limit ≤ len (Deck.V d) →
             Deck.wellformed (Deck.Limit d limit))).
Proof.
  split.
  { intros Hc. unfold Deck.wellformed. simpl.
    pose proof (len_nonneg cards). lia. }
  intros (Hi & Hil & Hl & Hv). split_and!.
  - intros count. unfold Deck.Draw.
    destruct (Z.ltb_spec count 0); [by exists [], d|].
    pose proof (wrap_range (Deck.I d + count)) as Hw.
    fold (add (Deck.I d) count) in Hw.
    rewrite DeckFacts.Draw_loop_spec by lia.
    eexists _, _. split; [done|]. unfold Deck.wellformed. simpl. lia.
  - unfold Deck.wellformed. simpl. lia.
  - intros shuffler shuffles d' Hd'.
    destruct (DeckFacts.Shuffle_cursor _ _ _ _ Hd') as [HI HL].
    apply Shuffle_Permutation, Permutation_length in Hd'.
    unfold Deck.wellformed, len in *. rewrite HI, HL, Hd'. lia.
  - intros limit Hlimit. unfold Deck.wellformed. simpl. lia.
Qed.

Lemma wellformed_kept_witness :
  Deck.wellformed (Deck.DeckOf [10; 20]) ∧
  Deck.wellformed (Deck.Reset Fixture.two_cards_one_drawn).
Proof.
  split.
  - apply (proj1 (wellformed_kept [10; 20] Fixture.two_cards_one_drawn)).
    by vm_compute.
  - apply (proj2 (wellformed_kept [10; 20] Fixture.two_cards_one_drawn)).
    vm_compute. split_and!; discriminate.
Defined.

End DrawFacts.

(** ** More on loops and ranges *)

Lemma for_each_app {Ix St} (body : Ix → St → option St) (l1 l2 : list Ix)
    (s : St) :
  for_each (l1 ++ l2) body s = s' ← for_each l1 body s; for_each l2 body s'.
Proof.
  revert s. induction l1 as [|i l1 IH]; intros s; simpl; [done|].
  destruct (body i s); simpl; [apply IH|done].
Qed.

(** ** Deck types *)

Module DeckTypeFacts.
Import GoInt GoIntFacts.

Section WithCards.
Variable v : DeckType.t → list Card.

Lemma Shoe_copies (cards : list Card) (count : nat) (k : nat) :
  (k ≤ count)%nat → len cards * Z.of_nat count ≤ max_int →
  for_each (range (Z.of_nat k)) (DeckType.Shoe_copy (len cards) cards)
           (replicate (length cards * count) 0)
  = Some (concat (replicate k cards)
          ++ replicate (length cards * (count - k)) 0).
Proof.
  intros Hk Hm. induction k as [|k IH].
  - simpl. by rewrite Nat.sub_0_r.
  - rewrite range_succ, for_each_app, IH by lia. simpl.
    unfold DeckType.Shoe_copy.
    assert (mul (Z.of_nat k) (len cards) = Z.of_nat (k * length cards)) as ->.
    { unfold mul. rewrite wrap_small; unfold len, min_int, max_int in *; nia. }
    destruct (Z.ltb_spec (Z.of_nat (k * length cards)) 0); [lia|].
    assert (length (concat (replicate k cards)) = (k * length cards)%nat)
      as Hlen.
    { clear. induction k as [|k IH]; simpl; [done|].
      rewrite length_app, IH. lia. }
    unfold len at 1. rewrite length_app, Hlen, length_replicate.
    destruct (Z.ltb_spec
                (Z.of_nat (k * length cards
                           + length cards * (count - k))%nat)
                (Z.of_nat (k * length cards))); [lia|].
    simpl. f_equal. rewrite Nat2Z.id.
    rewrite take_app_length', drop_app_length' by done.
    unfold copy. rewrite length_replicate, drop_replicate.
    rewrite firstn_all2 by nia.
    rewrite app_assoc. f_equal.
    + clear. induction k as [|k IH]; simpl; [by rewrite app_nil_r|].
      by rewrite <- app_assoc, IH.
    + f_equal. nia.
Qed.

Lemma Shoe_decks (typ : DeckType.t) (count : Z) :
  0 ≤ count → len (v typ) * count ≤ max_int →
  DeckType.Shoe v typ count =
    Some (Deck.mk 0 (count * len (v typ))
            (concat (replicate (Z.to_nat count) (v typ)))).
Proof.
  intros Hc Hm. unfold DeckType.Shoe.
  assert (mul (len (v typ)) count = len (v typ) * count) as ->.
  { unfold mul. apply wrap_small. unfold len, min_int, max_int in *. nia. }
  assert (mul count (len (v typ)) = count * len (v typ)) as ->.
  { unfold mul. apply wrap_small. unfold len, min_int, max_int in *. nia. }
  destruct (Z.ltb_spec (len (v typ) * count) 0);
    [unfold len in *; nia|].
  pose proof (Shoe_copies (v typ) (Z.to_nat count) (Z.to_nat count))
    as Hloop.
  rewrite !Z2Nat.id in Hloop by done.
  replace (Z.to_nat (len (v typ) * count))
    with (length (v typ) * Z.to_nat count)%nat by (unfold len; nia).
  rewrite Hloop by (done || lia). simpl.
  by rewrite Nat.sub_diag, Nat.mul_0_r, app_nil_r.
Qed.


(** X8. A new deck holds the cards of its type in their order, drawn from
    the first; a deck from [Shuffle], with a shuffler that swaps
    positions of the deck, deals each of them once, in some order, and
    is then empty. *)
Theorem Shuffle_deals_every_card (typ : DeckType.t)
    (shuffler : Deck.Shuffler) (shuffles : Z) :
  len (v typ) ≤ max_int →
  (∀ pass, Forall (λ ij, 0 ≤ ij.1 < len (v typ) ∧ 0 ≤ ij.2 < len (v typ))
             (shuffler pass (len (v typ)))) →
  DeckType.New v typ = Some (Deck.DeckOf (v typ)) ∧
  ∃ d cards d',
    DeckType.Shuffle v typ shuffler shuffles = Some d ∧
    Deck.I d = 0 ∧
    Deck.Draw d (len (v typ)) = Some (cards, d') ∧
    cards ≡ₚ v typ ∧
    Deck.Empty d' = true.
Proof.
  intros Hm Hsh.
  assert (DeckType.Shoe v typ 1 = Some (Deck.DeckOf (v typ))) as Hshoe.
  { rewrite Shoe_decks by lia. simpl.
    rewrite app_nil_r. unfold Deck.DeckOf. do 2 f_equal. lia. }
  split; [done|]. unfold DeckType.Shuffle. rewrite Hshoe. simpl.
  destruct (DrawFacts.Shuffle_in_range (Deck.DeckOf (v typ)) shuffler shuffles)
    as [d Hd]; [done|].
  pose proof (DrawFacts.Shuffle_Permutation _ _ _ _ Hd) as Hperm.
  destruct (DeckFacts.Shuffle_cursor _ _ _ _ Hd) as [HI HL].
  simpl in *. exists d. rewrite Hd.
  assert (Deck.readable d) as Hr.
  { split; [lia|]. rewrite HL. apply Permutation_length in Hperm.
    unfold len. lia. }
  rewrite DrawFacts.Draw_cards by first [done | lia | unfold len; lia].
  eexists _, _. split_and!; try done.
  - rewrite HI, HL. simpl. rewrite Z.sub_0_r, Z.min_id. unfold len at 1.
    rewrite Nat2Z.id, drop_0, firstn_all2; [done|].
    apply Permutation_length in Hperm. lia.
  - unfold Deck.Empty. simpl. apply Z.leb_le. lia.
Qed.

End WithCards.


Lemma Shuffle_deals_every_card_witness :
  DeckType.New (λ _, [10; 20; 30]) 0 = Some (Deck.DeckOf [10; 20; 30]).
Proof.
  apply (Shuffle_deals_every_card (λ _, [10; 20; 30]) 0
           (λ _ _, [(0, 2); (1, 2)]) 1).
  - by vm_compute.
  - intros _. repeat constructor; simpl; unfold len; simpl; lia.
Defined.

End DeckTypeFacts.

(** A loop whose body keeps an invariant whenever it returns keeps it
    when it returns. *)
Lemma for_each_preserves {Ix St} (P : St → Prop)
    (body : Ix → St → option St) (l : list Ix) : ∀ (s s' : St),
  (∀ i s s', body i s = Some s' → P s → P s') →
  for_each l body s = Some s' → P s → P s'.
Proof.
  induction l as [|i l IH]; intros s s' Hbody; simpl.
  - by intros [= <-].
  - destruct (body i s) as [s1|] eqn:H1; [simpl|done].
    intros H Hs. eapply IH; [done|done|]. by eapply Hbody.
Qed.

Lemma range_NoDup (n : Z) : NoDup (range n).
Proof.
  unfold range. apply NoDup_fmap; [apply _|]. apply NoDup_seq.
Qed.

Lemma range_sorted (n : Z) : StronglySorted Z.lt (range n).
Proof.
  unfold range. generalize 0%nat. induction (Z.to_nat n) as [|k IH]; intros a.
  - constructor.
  - simpl. constructor; [apply IH|].
    apply Forall_forall. intros i Hi.
    apply list_elem_of_fmap in Hi as (j & -> & Hj).
    apply elem_of_seq in Hj. lia.
Qed.

Lemma filter_sorted {A} (R : relation A) (P : A → Prop)
    `{∀ x, Decision (P x)} (l : list A) :
  StronglySorted R l → StronglySorted R (filter P l).
Proof.
  induction 1 as [|x l Hl IH Hx]; [constructor|].
  rewrite filter_cons. destruct (decide (P x)); [|done].
  constructor; [done|]. apply Forall_forall. intros y Hy.
  apply list_elem_of_filter in Hy as [_ Hy].
  rewrite Forall_forall in Hx. by apply Hx.
Qed.

(** ** Dealer: active and inactive positions *)

Module PositionFacts.
Import GoInt GoIntFacts.

Lemma is_active_deletes (positions : list Z) : ∀ (a : gmap Z bool) (i : Z),
  Dealer.is_active (foldl (λ a position, delete position a) a positions) i
  = Dealer.is_active a i && bool_decide (i ∉ positions).
Proof.
  unfold Dealer.is_active.
  induction positions as [|p ps IH]; intros a i; cbn [foldl].
  - rewrite bool_decide_true by apply not_elem_of_nil. by rewrite andb_true_r.
  - rewrite IH. destruct (decide (i = p)) as [->|Hne].
    + rewrite lookup_delete_eq. simpl.
      rewrite (bool_decide_false (p ∉ p :: ps));
        [|rewrite not_elem_of_cons; tauto].
      by rewrite andb_false_r.
    + rewrite lookup_delete_ne by done. f_equal.
      apply bool_decide_ext. rewrite not_elem_of_cons. tauto.
Qed.

Lemma elem_of_Inactive (d : Dealer.t) (i : Z) :
  i ∈ Dealer.Inactive d ↔
  0 ≤ i < Dealer.Count d ∧ Dealer.is_active (Dealer.Active d) i = false.
Proof.
  unfold Dealer.Inactive. rewrite list_elem_of_filter, elem_of_range. tauto.
Qed.

(** X9. While the run index is -1 or 0, [Deactivate] returns true and
    changes the active positions only; [Inactive] then lists, in
    ascending order and each once, the positions that were inactive
    together with those of the positions given that are positions of
    the dealer: a position out of range, or given twice, or already
    inactive, is passed over. *)
Theorem Deactivate_Inactive (d : Dealer.t) (positions : list Z) :
  Dealer.R d = -1 ∨ Dealer.R d = 0 →
  ∃ d',
    Dealer.Deactivate d positions = (true, d') ∧
    d' = Dealer.set_Active d (Dealer.Active d') ∧
    (∀ i, i ∈ Dealer.Inactive d' ↔
          i ∈ Dealer.Inactive d ∨ (0 ≤ i < Dealer.Count d ∧ i ∈ positions)) ∧
    StronglySorted Z.lt (Dealer.Inactive d').
Proof.
  intros HR. rewrite DealerFacts.Deactivate_accepted by done.
  eexists. split; [done|]. split; [done|]. split.
  - intros i. rewrite !elem_of_Inactive. simpl.
    rewrite is_active_deletes.
    destruct (Dealer.is_active (Dealer.Active d) i); simpl.
    + rewrite bool_decide_eq_false. split.
      * intros [Hi Hp]. right. split; [done|].
        by destruct (decide (i ∈ positions)).
      * intros [[_ ?]|[Hi Hp]]; [done|]. split; [done|]. by intros Hn.
    + tauto.
  - apply filter_sorted, range_sorted.
Qed.

Lemma Deactivate_Inactive_witness :
  ∃ d', Dealer.Deactivate Fixture.at_flop [2; 7; 0; 2] = (true, d') ∧
        StronglySorted Z.lt (Dealer.Inactive d').
Proof.
  destruct (Deactivate_Inactive Fixture.at_flop [2; 7; 0; 2])
    as (d' & H & _ & _ & Hs); [by right|].
  exists d'. split; [exact H | exact Hs].
Defined.

(** On a dealer whose active positions are positions, marked true, every
    position is either active or listed by [Inactive]: the two numbers
    add up to [Count]. *)
Lemma Inactive_count (d : Dealer.t) :
  0 ≤ Dealer.Count d →
  (∀ k b, Dealer.Active d !! k = Some b → b = true ∧ 0 ≤ k < Dealer.Count d) →
  Dealer.len_Active d + len (Dealer.Inactive d) = Dealer.Count d.
Proof.
  intros Hc Hact. unfold Dealer.len_Active, Dealer.Inactive, len.
  set (P := λ i, Dealer.is_active (Dealer.Active d) i = false).
  assert (size (Dealer.Active d)
          = length (filter (λ i, ¬ P i) (range (Dealer.Count d)))) as ->.
  { rewrite <- (length_map_to_list (Dealer.Active d)).
    rewrite <- (length_fmap fst). apply Permutation_length.
    apply NoDup_Permutation.
    - apply NoDup_fst_map_to_list.
    - apply NoDup_filter, range_NoDup.
    - intros k. rewrite list_elem_of_filter, elem_of_range.
      rewrite list_elem_of_fmap. unfold P, Dealer.is_active. split.
      + intros ([k' b] & -> & Hkb). apply elem_of_map_to_list in Hkb.
        simpl. destruct (Hact _ _ Hkb) as [-> Hk]. rewrite Hkb. by split.
      + intros [Hk _]. destruct (Dealer.Active d !! k) as [b|] eqn:Hb;
          [|done].
        exists (k, b). split; [done|]. by apply elem_of_map_to_list. }
  pose proof (Permutation_length
                (filter_app_complement P (range (Dealer.Count d)))) as Hsum.
  rewrite length_app, range_length in Hsum. lia.
Qed.

End PositionFacts.

(** ** Dealer: what every call keeps *)

Module CallFacts.
Import GoInt GoIntFacts DealFacts.

Lemma burn_frame d run n s s' :
  Dealer.burn n s = Some s' →
  Dealer.Deal_frame d run s → Dealer.Deal_frame d run s'.
Proof.
  unfold Dealer.burn. destruct (0 <? n); [|by intros [= <-]].
  destruct s as [d1 run1]. intros H [(deck & Hd & HL & HV) Hp].
  simpl in *. subst d1. simpl in H.
  destruct (Deck.Draw deck n) as [[cards deck']|] eqn:Hdraw; [simpl in H|done].
  apply DeckFacts.Draw_frame in Hdraw as [HL' HV']. injection H as <-.
  split; [|done]. exists deck'. simpl. split; [done|]. split; congruence.
Qed.

Lemma deal_hi_frame d run b s s' :
  Dealer.deal_hi b s = Some s' →
  Dealer.Deal_frame d run s → Dealer.Deal_frame d run s'.
Proof.
  unfold Dealer.deal_hi.
  destruct s as [d1 run1]. intros H [(deck & Hd & HL & HV) Hp].
  simpl in *. subst d1. simpl in H.
  destruct (Deck.Draw deck b) as [[cards deck']|] eqn:Hdraw; [simpl in H|done].
  apply DeckFacts.Draw_frame in Hdraw as [HL' HV']. injection H as <-.
  split; [|done]. exists deck'. simpl. split; [done|]. split; congruence.
Qed.

Lemma deal_lo_frame d run b s s' :
  Dealer.deal_lo b s = Some s' →
  Dealer.Deal_frame d run s → Dealer.Deal_frame d run s'.
Proof.
  unfold Dealer.deal_lo.
  destruct s as [d1 run1]. intros H [(deck & Hd & HL & HV) Hp].
  simpl in *. subst d1. simpl in H.
  destruct (Deck.Draw deck b) as [[cards deck']|] eqn:Hdraw; [simpl in H|done].
  apply DeckFacts.Draw_frame in Hdraw as [HL' HV']. injection H as <-.
  split; [|done]. exists deck'. simpl. split; [done|]. split; congruence.
Qed.

Lemma deal_pocket_frame d run i s s' :
  Dealer.deal_pocket i s = Some s' →
  Dealer.Deal_frame d run s → Dealer.Deal_frame d run s'.
Proof.
  unfold Dealer.deal_pocket.
  destruct s as [d1 run1]. intros H [(deck & Hd & HL & HV) Hp].
  simpl in *. subst d1. simpl in H.
  destruct (index (Run.Pockets run1) i) as [pocket|]; [simpl in H|done].
  destruct (Deck.Draw deck 1) as [[cards deck']|] eqn:Hdraw; [simpl in H|done].
  apply DeckFacts.Draw_frame in Hdraw as [HL' HV'].
  unfold store in H. destruct (_ || _); [done|]. simpl in H.
  injection H as <-. split.
  - exists deck'. simpl. split; [done|]. split; congruence.
  - simpl. by rewrite length_insert.
Qed.

(** A [Deal] that returns has changed the dealer in the cursor of its
    deck only, and has left the run its number of pockets. *)
Lemma Deal_framed (d d' : Dealer.t) (street : Z) (run run' : Run.t) :
  Dealer.Deal d street run = Some (d', run') →
  Dealer.Deal_frame d run (d', run').
Proof.
  unfold Dealer.Deal.
  destruct (index (Dealer.Streets d) street) as [desc|]; [simpl|done].
  assert (Dealer.Deal_frame d run (d, run)) as H0.
  { split; [|done]. exists (Dealer.Deck d). by destruct d. }
  destruct (Dealer.Deal_pockets d desc (d, run)) as [s1|] eqn:H1; [simpl|done].
  assert (Dealer.Deal_frame d run s1) as Hs1.
  { unfold Dealer.Deal_pockets in H1.
    destruct (0 <? StreetDesc.Pocket desc); [|by injection H1 as <-].
    destruct (Dealer.burn _ _) as [s0|] eqn:Hb; [simpl in H1|done].
    apply (burn_frame d run) in Hb; [|done].
    revert H1 Hb. apply for_each_preserves. intros _ s2 s3.
    apply for_each_preserves. intros i s4 s5. apply deal_pocket_frame. }
  unfold Dealer.Deal_board. destruct (0 <? StreetDesc.Board desc);
    [|by intros [= <-]].
  destruct (Dealer.burn _ s1) as [s2|] eqn:H2; [simpl|done].
  apply (burn_frame d run) in H2; [|done].
  destruct (Dealer.deal_hi _ s2) as [s3|] eqn:H3; [simpl|done].
  apply (deal_hi_frame d run) in H3; [|done].
  destruct (TypeDesc.Double (Dealer.Desc d)); [|by intros [= <-]].
  destruct (Dealer.burn _ s3) as [s4|] eqn:H4; [simpl|done].
  apply (burn_frame d run) in H4; [|done].
  intros H5. by apply (deal_lo_frame d run) in H5.
Qed.

Section WithType.
Variable Type_Max : TypeId → Z.

(** The outcomes of a call of [Next] that returns: it stopped, and moved
    the indexes only; or it dealt a street into a run, the next street
    of the run it is on or, at the end of that run, the street after the
    split of the run that follows. *)
Lemma Next_cases (d d' : Dealer.t) (b : bool) :
  Dealer.Next Type_Max d = Some (b, d') →
  let first := (Dealer.S d =? -1) && (Dealer.R d =? -1) in
  let s1 := if first then 0 else add (Dealer.S d) 1 in
  let r1 := if first then 0 else Dealer.R d in
  (b = false ∧ d' = Dealer.set_R (Dealer.set_S d s1) r1) ∨
  ∃ s r run d2 run',
    ((s = s1 ∧ r = r1) ∨
     (s = add (Dealer.ST d) 1 ∧ r = add r1 1 ∧
      len (Dealer.Streets d) ≤ s1 ∧ r1 ≠ sub (Dealer.RunCount d) 1)) ∧
    Dealer.HasActive Type_Max (Dealer.set_S d s1) = true ∧
    index (Dealer.Runs d) r = Some run ∧
    Dealer.Deal (Dealer.set_R (Dealer.set_S d s) r) s run = Some (d2, run') ∧
    d' = Dealer.set_Runs d2 (<[Z.to_nat r := run']> (Dealer.Runs d)) ∧
    b = (s <? len (Dealer.Streets d)) || (r <? sub (Dealer.RunCount d) 1).
Proof.
  intros H first s1 r1.
  assert ((if first then Dealer.set_R (Dealer.set_S d 0) 0
           else Dealer.set_S d (add (Dealer.S d) 1))
          = Dealer.set_R (Dealer.set_S d s1) r1) as Hstep.
  { subst s1 r1. destruct first; [done|]. by destruct d. }
  unfold Dealer.Next in H. fold first in H. rewrite Hstep in H. clear Hstep.
  change (Dealer.Streets (Dealer.set_R (Dealer.set_S d s1) r1))
    with (Dealer.Streets d) in H.
  change (Dealer.S (Dealer.set_R (Dealer.set_S d s1) r1)) with s1 in H.
  change (Dealer.R (Dealer.set_R (Dealer.set_S d s1) r1)) with r1 in H.
  change (Dealer.RunCount (Dealer.set_R (Dealer.set_S d s1) r1))
    with (Dealer.RunCount d) in H.
  change (Dealer.ST (Dealer.set_R (Dealer.set_S d s1) r1))
    with (Dealer.ST d) in H.
  change (Dealer.HasActive Type_Max (Dealer.set_R (Dealer.set_S d s1) r1))
    with (Dealer.HasActive Type_Max (Dealer.set_S d s1)) in H.
  generalize dependent s1. generalize dependent r1. intros r1 s1 H.
  destruct ((len (Dealer.Streets d) <=? s1)
            && (r1 =? sub (Dealer.RunCount d) 1)) eqn:Hend;
    [injection H as <- <-; by left|].
  destruct (Dealer.HasActive Type_Max (Dealer.set_S d s1)) eqn:Hact;
    [|injection H as <- <-; by left].
  simpl in H. right.
  destruct ((len (Dealer.Streets d) <=? s1) && (r1 <? Dealer.RunCount d))
    eqn:Hswitch.
  - apply andb_prop in Hswitch as [Hs Hr]. rewrite Hs in Hend. simpl in Hend.
    apply Z.leb_le in Hs. apply Z.eqb_neq in Hend.
    assert (Dealer.set_R
              (Dealer.set_S (Dealer.set_R (Dealer.set_S d s1) r1)
                 (add (Dealer.ST d) 1)) (add r1 1)
            = Dealer.set_R (Dealer.set_S d (add (Dealer.ST d) 1)) (add r1 1))
      as Heq by (by destruct d).
    rewrite Heq in H. clear Heq.
    set (s := add (Dealer.ST d) 1) in *. set (r := add r1 1) in *.
    change (Dealer.Runs (Dealer.set_R (Dealer.set_S d s) r))
      with (Dealer.Runs d) in H.
    change (Dealer.R (Dealer.set_R (Dealer.set_S d s) r)) with r in H.
    change (Dealer.S (Dealer.set_R (Dealer.set_S d s) r)) with s in H.
    destruct (index (Dealer.Runs d) r) as [run|] eqn:Hrun; [simpl in H|done].
    destruct (Dealer.Deal _ s run) as [[d2 run']|] eqn:Hdeal;
      [simpl in H|done].
    destruct (Deal_framed _ _ _ _ _ Hdeal) as [(deck & Hd2 & _) _].
    simpl in Hd2. subst d2.
    change (Dealer.Runs (Dealer.set_Deck _ deck)) with (Dealer.Runs d) in H.
    change (Dealer.R (Dealer.set_Deck _ deck)) with r in H.
    unfold store in H. destruct (_ || _); [done|]. simpl in H.
    injection H as <- <-.
    eexists s, r, run, _, run'. split_and!; try done.
    right. repeat split; first [assumption | reflexivity].
  - change (Dealer.Runs (Dealer.set_R (Dealer.set_S d s1) r1))
      with (Dealer.Runs d) in H.
    change (Dealer.R (Dealer.set_R (Dealer.set_S d s1) r1)) with r1 in H.
    change (Dealer.S (Dealer.set_R (Dealer.set_S d s1) r1)) with s1 in H.
    destruct (index (Dealer.Runs d) r1) as [run|] eqn:Hrun; [simpl in H|done].
    destruct (Dealer.Deal _ s1 run) as [[d2 run']|] eqn:Hdeal;
      [simpl in H|done].
    destruct (Deal_framed _ _ _ _ _ Hdeal) as [(deck & Hd2 & _) _].
    simpl in Hd2. subst d2.
    change (Dealer.Runs (Dealer.set_Deck _ deck)) with (Dealer.Runs d) in H.
    change (Dealer.R (Dealer.set_Deck _ deck)) with r1 in H.
    unfold store in H. destruct (_ || _); [done|]. simpl in H.
    injection H as <- <-.
    eexists s1, r1, run, _, run'. split_and!; try done. by left.
Qed.

Lemma activate_lookup (l : list Z) : ∀ (m : gmap Z bool) (k : Z) (b : bool),
  foldl (λ a i, <[i := true]> a) m l !! k = Some b →
  (b = true ∧ k ∈ l) ∨ m !! k = Some b.
Proof.
  induction l as [|i l IH]; intros m k b; simpl; [by right|].
  intros H. apply IH in H as [[-> Hk]|H].
  - left. split; [done|]. by right.
  - destruct (decide (k = i)) as [->|Hne].
    + rewrite lookup_insert_eq in H. injection H as <-. left.
      split; [done|]. by left.
    + rewrite lookup_insert_ne in H by done. by right.
Qed.

Lemma deactivate_lookup (l : list Z) : ∀ (m : gmap Z bool) (k : Z) (b : bool),
  foldl (λ a position, delete position a) m l !! k = Some b →
  m !! k = Some b.
Proof.
  induction l as [|i l IH]; intros m k b; simpl; [done|].
  intros H. apply IH in H. by apply lookup_delete_Some in H as [_ H].
Qed.

Lemma init_consistent (desc : TypeDesc.t) (deck : Deck.t) (count : Z)
    (d : Dealer.t) :
  Dealer.init desc deck count = Some d → Dealer.consistent d.
Proof.
  unfold Dealer.init, Run.NewRun.
  destruct (Z.ltb_spec count 0); [done|]. simpl. intros [= <-].
  unfold Dealer.consistent. simpl. split_and!; try done; try lia.
  - constructor; [|done]. unfold len. simpl. rewrite length_replicate. lia.
  - intros k b Hk. apply activate_lookup in Hk as [[-> Hk]|Hk]; [|done].
    by apply elem_of_range in Hk.
Qed.

Lemma Deactivate_consistent (d : Dealer.t) (positions : list Z) :
  Dealer.consistent d → Dealer.consistent (Dealer.Deactivate d positions).2.
Proof.
  intros (Hruns & Hrc & HR & Hp & Hact). unfold Dealer.Deactivate.
  destruct (_ && _); [done|]. unfold Dealer.consistent. simpl.
  split_and!; try done; try lia.
  intros k b Hk. apply deactivate_lookup in Hk. by apply Hact.
Qed.

Lemma ChangeRuns_consistent (d d' : Dealer.t) (runs : Z) (b : bool) :
  Dealer.consistent d → min_int < runs ≤ max_int →
  Dealer.ChangeRuns Type_Max d runs = Some (b, d') →
  Dealer.consistent d'.
Proof.
  intros Hc Hruns. unfold Dealer.ChangeRuns.
  destruct (_ || _) eqn:Hg; [by intros [= _ <-]|].
  apply DealerFacts.ChangeRuns_guard in Hg as (HR & Hrc1 & Hlen & _ & _).
  rewrite sub_small by (unfold min_int, max_int in *; lia).
  destruct (Z.ltb_spec (runs - 1) 0); [done|].
  destruct Hc as (_ & _ & _ & Hp & Hact).
  destruct (Dealer.Runs d) as [|run0 [|]] eqn:Hr;
    unfold len in Hlen; simpl in Hlen; try lia.
  simpl. intros [= _ <-]. unfold Dealer.consistent. simpl.
  split_and!; try done; try lia.
  - unfold len. simpl. rewrite length_replicate. lia.
  - apply Forall_cons in Hp as [Hp _]. constructor; [done|].
    apply Forall_replicate. unfold Run.Dupe. simpl.
    by rewrite list_fmap_id.
Qed.

Lemma Next_consistent (d d' : Dealer.t) (b : bool) :
  Dealer.consistent d →
  Dealer.Next Type_Max d = Some (b, d') →
  Dealer.consistent d'.
Proof.
  intros (Hruns & Hrc & HR & Hp & Hact) H.
  apply Next_cases in H
    as [[_ ->]|(s & r & run & d2 & run' & _ & _ & Hrun & Hdeal & -> & _)].
  - unfold Dealer.consistent. simpl. split_and!; try done; try lia.
    destruct ((Dealer.S d =? -1) && (Dealer.R d =? -1)); [right; lia|done].
  - destruct (Deal_framed _ _ _ _ _ Hdeal) as [(deck & Hd2 & _) Hlen].
    simpl in Hd2, Hlen. subst d2. apply index_Some in Hrun as [Hr0 Hrun].
    unfold Dealer.consistent. simpl. split_and!; try done; try lia.
    + unfold len in *. by rewrite length_insert.
    + right. apply lookup_lt_Some in Hrun. unfold len in *. lia.
    + apply Forall_insert; [done|].
      eapply Forall_lookup_1 in Hp; [|done]. unfold len in *. simpl in Hp.
      lia.
Qed.

End WithType.

Section WithEval.
Variable Type_Max : TypeId → Z.
Variable evals calcs : TypeId → Eval.EvalFunc.
Variable EvalOf : TypeId → Eval.t.
Variable Type_Low Type_Double : TypeId → bool.
Variable Order : list (option Eval.t) → bool → option (list Z) * Z.

Local Abbreviation NextResult :=
  (Dealer.NextResult evals calcs EvalOf Type_Low Type_Double Order).
Local Abbreviation do_call :=
  (Dealer.do_call Type_Max evals calcs EvalOf Type_Low Type_Double Order).
Local Abbreviation do_calls :=
  (Dealer.do_calls Type_Max evals calcs EvalOf Type_Low Type_Double Order).

(** [NextResult] writes the results and the result index only. *)
Lemma NextResult_frame (d d' : Dealer.t) (b : bool) :
  NextResult d = Some (b, d') →
  d' = Dealer.set_E (Dealer.set_Results d (Dealer.Results d')) (Dealer.E d').
Proof.
  unfold Dealer.NextResult.
  destruct (Dealer.compute_Results _ _ _ _ _ _ d) as [d1|] eqn:Hc;
    [simpl|done].
  assert (d1 = Dealer.set_Results d (Dealer.Results d1)) as Hd1.
  { unfold Dealer.compute_Results in Hc.
    destruct (Dealer.Results d) eqn:Hres.
    { injection Hc as <-. rewrite Hres. destruct d; simpl in *. by subst. }
    destruct (_ && _); [by injection Hc as <-|].
    destruct (_ || _); [|injection Hc as <-; rewrite Hres;
                         destruct d; simpl in *; by subst].
    destruct (_ <? _); [done|].
    destruct (mapM _ _); [simpl in Hc|done]. by injection Hc as <-. }
  destruct (_ <=? _); intros [= _ <-]; rewrite Hd1; by destruct d.
Qed.

Lemma do_call_consistent (d d' : Dealer.t) (c : Dealer.call) :
  Dealer.consistent d → Dealer.proper c →
  do_call d c = Some d' → Dealer.consistent d'.
Proof.
  intros Hc Hp. destruct c as [|runs|positions|]; simpl.
  - destruct (Dealer.Next Type_Max d) as [[b d1]|] eqn:H; [simpl|done].
    intros [= <-]. by eapply Next_consistent.
  - destruct (Dealer.ChangeRuns Type_Max d runs) as [[b d1]|] eqn:H;
      [simpl|done].
    intros [= <-]. by eapply ChangeRuns_consistent.
  - intros [= <-]. by apply Deactivate_consistent.
  - destruct (NextResult d) as [[b d1]|] eqn:H; [simpl|done].
    intros [= <-]. apply NextResult_frame in H. rewrite H. by destruct d.
Qed.

(** What no call changes: the descriptor, the number of positions, and
    the cards and the limit of the deck. *)
Lemma do_call_frame (d d' : Dealer.t) (c : Dealer.call) :
  do_call d c = Some d' →
  Dealer.Desc d' = Dealer.Desc d ∧ Dealer.Count d' = Dealer.Count d ∧
  Deck.L (Dealer.Deck d') = Deck.L (Dealer.Deck d) ∧
  Deck.V (Dealer.Deck d') = Deck.V (Dealer.Deck d).
Proof.
  destruct c as [|runs|positions|]; simpl.
  - destruct (Dealer.Next Type_Max d) as [[b d1]|] eqn:H; [simpl|done].
    intros [= <-].
    apply Next_cases in H
      as [[_ ->]|(s & r & run & d2 & run' & _ & _ & _ & Hdeal & -> & _)];
      [done|].
    destruct (Deal_framed _ _ _ _ _ Hdeal) as [(deck & Hd2 & ? & ?) _].
    simpl in Hd2. by subst d2.
  - unfold Dealer.ChangeRuns. destruct (_ || _); [by intros [= <-]|].
    destruct (_ <? _); [done|].
    destruct (index _ _); simpl; [|done]. by intros [= <-].
  - unfold Dealer.Deactivate. destruct (_ && _); by intros [= <-].
  - destruct (NextResult d) as [[b d1]|] eqn:H; [simpl|done].
    intros [= <-]. apply NextResult_frame in H. by rewrite H.
Qed.

Lemma do_calls_frame (cs : list Dealer.call) : ∀ (d d' : Dealer.t),
  do_calls d cs = Some d' →
  Dealer.Desc d' = Dealer.Desc d ∧ Dealer.Count d' = Dealer.Count d ∧
  Deck.L (Dealer.Deck d') = Deck.L (Dealer.Deck d) ∧
  Deck.V (Dealer.Deck d') = Deck.V (Dealer.Deck d).
Proof.
  unfold Dealer.do_calls.
  induction cs as [|c cs IH]; intros d d'; simpl.
  - by intros [= <-].
  - destruct (do_call d c) as [d1|] eqn:H1; [simpl|done].
    intros H. apply IH in H as (-> & -> & -> & ->). by eapply do_call_frame.
Qed.

Lemma do_calls_consistent (cs : list Dealer.call) : ∀ (d d' : Dealer.t),
  Dealer.consistent d → Forall Dealer.proper cs →
  do_calls d cs = Some d' → Dealer.consistent d'.
Proof.
  unfold Dealer.do_calls.
  induction cs as [|c cs IH]; intros d d' Hd Hcs; simpl.
  - by intros [= <-].
  - apply Forall_cons in Hcs as [Hc Hcs].
    destruct (do_call d c) as [d1|] eqn:H1; [simpl|done].
    apply IH; [|done]. by eapply do_call_consistent.
Qed.

Lemma NewDealer_frame (desc : TypeDesc.t) (deck : Deck.t) (count : Z)
    (d0 : Dealer.t) :
  Dealer.NewDealer desc deck count = Some d0 →
  Dealer.Desc d0 = desc ∧ Dealer.Count d0 = count ∧ Dealer.Deck d0 = deck.
Proof.
  unfold Dealer.NewDealer, Dealer.init.
  destruct (Run.NewRun count); [simpl|done]. by intros [= <-].
Qed.

(** X10. The invariant of a dealer. A new dealer has as many runs as
    [RunCount] says, at least one, a run index that is -1 or the index
    of a run, a pocket for each position in every run, and active
    positions that are positions of the dealer; and every call of
    [Next], [ChangeRuns], [Deactivate] and [NextResult] that returns
    keeps it so, and leaves the descriptor, the number of positions and
    the cards and the limit of the deck as they were. *)
Theorem consistent_kept (desc : TypeDesc.t) (deck : Deck.t) (count : Z)
    (d0 d : Dealer.t) (cs : list Dealer.call) :
  Dealer.NewDealer desc deck count = Some d0 →
  Forall Dealer.proper cs →
  do_calls d0 cs = Some d →
  Dealer.consistent d ∧
  Dealer.Desc d = desc ∧ Dealer.Count d = count ∧
  Deck.L (Dealer.Deck d) = Deck.L deck ∧
  Deck.V (Dealer.Deck d) = Deck.V deck.
Proof.
  intros Hnew Hcs Hcalls. split.
  - eapply do_calls_consistent; [|done..]. by eapply init_consistent.
  - apply NewDealer_frame in Hnew as (<- & <- & <-).
    by apply do_calls_frame in Hcalls.
Qed.

(** X11. [Reset] after any calls gives the dealer that [NewDealer] gives for
    the same descriptor and number of positions over the rewound deck:
    when the deck had nothing drawn, the dealer as it was new. *)
Theorem Reset_restarts (desc : TypeDesc.t) (deck : Deck.t) (count : Z)
    (d0 d : Dealer.t) (cs : list Dealer.call) :
  Dealer.NewDealer desc deck count = Some d0 →
  do_calls d0 cs = Some d →
  Dealer.Reset d = Dealer.NewDealer desc (Deck.Reset deck) count ∧
  (Deck.I deck = 0 → Dealer.Reset d = Some d0).
Proof.
  intros Hnew Hcs.
  pose proof (NewDealer_frame _ _ _ _ Hnew) as (Hd0 & Hc0 & Hk0).
  apply do_calls_frame in Hcs as (Hd & Hc & HL & HV).
  rewrite Hd0, Hc0, Hk0 in *.
  assert (Dealer.Reset d = Dealer.NewDealer desc (Deck.Reset deck) count)
    as Hreset.
  { unfold Dealer.Reset, Dealer.NewDealer, Deck.Reset.
    by rewrite Hd, Hc, HL, HV. }
  split; [done|]. intros HI. rewrite Hreset, <- Hnew. f_equal.
  unfold Deck.Reset. destruct deck; simpl in *. by subst.
Qed.

End WithEval.

Section Accessors.
Variable Type_Cactus : TypeId → bool.
Variable Type_Pocket Type_Board : TypeId → Z.

(** X12. On a dealer that keeps its invariant, [Run], [Discarded] and
    [HasCalc] do not panic. Before the first call of [Next] they answer
    with no run, no discarded card and false; afterwards [Run] returns
    the run that the run index points at and, while the street index is
    at most the number of streets, [Discarded] its discard pile. *)
Theorem run_accessors (d : Dealer.t) :
  Dealer.consistent d →
  is_Some (Dealer.HasCalc Type_Cactus Type_Pocket Type_Board d) ∧
  (Dealer.R d = -1 →
   Dealer.Run d = Some (-1, None) ∧ Dealer.Discarded d = Some [] ∧
   Dealer.HasCalc Type_Cactus Type_Pocket Type_Board d = Some false) ∧
  (0 ≤ Dealer.R d →
   ∃ run,
     index (Dealer.Runs d) (Dealer.R d) = Some run ∧
     Dealer.Run d = Some (Dealer.R d, Some run) ∧
     Dealer.Discarded d =
       Some (if (0 <=? Dealer.S d) && (Dealer.S d <=? len (Dealer.Streets d))
             then Run.Discard run else [])).
Proof.
  intros (Hruns & Hrc & HR & Hp & Hact). split_and!.
  - unfold Dealer.HasCalc.
    destruct (Z.eqb_spec (Dealer.Count d) 0) as [|Hc]; [done|].
    destruct (Z.leb_spec 0 (Dealer.R d)) as [H0|]; [|done].
    destruct (Z.ltb_spec (Dealer.R d) (Dealer.RunCount d)) as [H1|]; [|done].
    simpl. destruct (Type_Cactus _); [|done].
    destruct (_ && _); [done|]. destruct (negb _); [|done].
    destruct (index_is_Some (Dealer.Runs d) (Dealer.R d)) as [run Hrun];
      [lia|].
    rewrite Hrun. simpl.
    apply index_Some in Hrun as [_ Hrun].
    eapply Forall_lookup_1 in Hp; [|done]. simpl in Hp.
    destruct (index_is_Some (Run.Pockets run) 0) as [pocket ->];
      [unfold len in *; lia|].
    done.
  - intros Hr. unfold Dealer.Run, Dealer.Discarded, Dealer.HasCalc.
    rewrite Hr. simpl. by rewrite !andb_false_r.
  - intros Hr. destruct HR as [HR|HR]; [lia|].
    destruct (index_is_Some (Dealer.Runs d) (Dealer.R d)) as [run Hrun];
      [lia|].
    exists run. split; [done|]. unfold Dealer.Run, Dealer.Discarded.
    rewrite Hrun.
    destruct (Z.leb_spec 0 (Dealer.R d)); [|lia].
    destruct (Z.ltb_spec (Dealer.R d) (Dealer.RunCount d)); [|lia].
    simpl. split; [done|]. rewrite !andb_true_r.
    by destruct (_ && _).
Qed.

End Accessors.

Lemma split_calls_reached :
  (d0 ← Dealer.NewDealer Fixture.holdem Fixture.deck52 3;
   Dealer.do_calls Fixture.max10 Fixture.no_eval Fixture.no_eval
     Fixture.empty_eval Fixture.never Fixture.never Fixture.first_wins
     d0 Fixture.split_calls)
  = Some Fixture.on_second_run.
Proof. by vm_compute. Qed.

Lemma split_calls_proper : Forall Dealer.proper Fixture.split_calls.
Proof. repeat constructor; by vm_compute. Qed.

Lemma on_second_run_consistent : Dealer.consistent Fixture.on_second_run.
Proof.
  pose proof split_calls_reached as H.
  destruct (Dealer.NewDealer Fixture.holdem Fixture.deck52 3) as [d0|] eqn:Hnew;
    [|done].
  eapply do_calls_consistent; [|apply split_calls_proper|exact H].
  by eapply init_consistent.
Qed.

Lemma consistent_kept_witness : Dealer.consistent Fixture.on_second_run.
Proof.
  pose proof split_calls_reached as H.
  destruct (Dealer.NewDealer Fixture.holdem Fixture.deck52 3) as [d0|] eqn:Hnew;
    [|discriminate H].
  exact (proj1 (consistent_kept Fixture.max10 Fixture.no_eval Fixture.no_eval
                  Fixture.empty_eval Fixture.never Fixture.never
                  Fixture.first_wins Fixture.holdem Fixture.deck52 3 d0
                  Fixture.on_second_run Fixture.split_calls
                  Hnew split_calls_proper H)).
Defined.

Lemma Reset_restarts_witness :
  Dealer.Reset Fixture.on_second_run
  = Dealer.NewDealer Fixture.holdem Fixture.deck52 3.
Proof.
  pose proof split_calls_reached as H.
  destruct (Dealer.NewDealer Fixture.holdem Fixture.deck52 3) as [d0|] eqn:Hnew;
    [|discriminate H].
  exact (proj2 (Reset_restarts Fixture.max10 Fixture.no_eval Fixture.no_eval
                  Fixture.empty_eval Fixture.never Fixture.never
                  Fixture.first_wins Fixture.holdem Fixture.deck52 3 d0
                  Fixture.on_second_run Fixture.split_calls Hnew H)
               eq_refl).
Defined.

Lemma run_accessors_witness :
  ∃ run,
    Dealer.Run Fixture.on_second_run = Some (1, Some run) ∧
    Dealer.Discarded Fixture.on_second_run = Some [14].
Proof.
  destruct (run_accessors Fixture.never (λ _, 2) (λ _, 5)
              Fixture.on_second_run on_second_run_consistent)
    as (_ & _ & H).
  destruct H as (run & Hrun & HRun & HDisc); [by vm_compute|].
  exists run. split; [exact HRun|].
  rewrite HDisc. injection Hrun as <-. reflexivity.
Defined.

(** X13. Every position is either active or listed by [Inactive]: on a
    dealer that keeps its invariant the number of active positions and
    the number of inactive ones add up to [Count], and an inactive
    position has no entry among the active ones. *)
Theorem active_or_inactive (d : Dealer.t) :
  Dealer.consistent d →
  Dealer.len_Active d + len (Dealer.Inactive d) = Dealer.Count d ∧
  (∀ i, i ∈ Dealer.Inactive d → Dealer.Active d !! i = None).
Proof.
  intros (Hruns & Hrc & _ & Hp & Hact). split.
  - apply PositionFacts.Inactive_count; [|done].
    destruct (Dealer.Runs d) as [|run runs];
      [unfold len in *; simpl in *; lia|].
    apply Forall_cons in Hp as [<- _]. apply len_nonneg.
  - intros i Hi. apply PositionFacts.elem_of_Inactive in Hi as [_ Hi].
    unfold Dealer.is_active in Hi.
    destruct (Dealer.Active d !! i) as [b|] eqn:Hb; [|done].
    by destruct (Hact _ _ Hb) as [-> _].
Qed.

Lemma active_or_inactive_witness :
  Dealer.len_Active Fixture.on_second_run
  + len (Dealer.Inactive Fixture.on_second_run) = 3.
Proof.
  exact (proj1 (active_or_inactive Fixture.on_second_run
                  on_second_run_consistent)).
Defined.

End CallFacts.

(** ** Dealer: where the cards go *)

Module CardFacts.
Import GoInt GoIntFacts DealFacts.

Lemma Draw_loop_drawn (n : nat) : ∀ (d d' : Deck.t) (acc cards : list Card),
  Deck.Draw_loop n d acc = Some (cards, d') →
  0 ≤ Deck.I d → len (Deck.V d) ≤ max_int →
  cards = acc ++ take n (drop (Z.to_nat (Deck.I d)) (Deck.V d)) ∧
  d' = Deck.mk (Deck.I d + Z.of_nat n) (Deck.L d) (Deck.V d).
Proof.
  induction n as [|n IH]; intros [i l v] d' acc cards; simpl.
  - intros [= <- <-] _ _. rewrite app_nil_r. split; [done|]. f_equal. lia.
  - destruct (index v i) as [c|] eqn:Hc; [simpl|done].
    intros H Hi Hv. apply index_Some in Hc as [_ Hc].
    pose proof (lookup_lt_Some _ _ _ Hc) as Hlt. unfold len in Hv.
    rewrite add_small in H by (unfold min_int, max_int in *; lia).
    apply IH in H as [-> ->]; simpl; [|lia|unfold len; lia].
    rewrite <- app_assoc. simpl.
    replace (Z.to_nat (i + 1)) with (S (Z.to_nat i)) by lia.
    rewrite (drop_S v c (Z.to_nat i) Hc). split; [done|]. f_equal. lia.
Qed.

(** What [Draw] returns is what its cursor passed. *)
Lemma Draw_drawn (d d' : Deck.t) (count : Z) (cards : list Card) :
  Deck.Draw d count = Some (cards, d') →
  0 ≤ Deck.I d → len (Deck.V d) ≤ max_int →
  Deck.V d' = Deck.V d ∧ Deck.I d ≤ Deck.I d' ∧
  cards = Dealer.drawn_between d d'.
Proof.
  unfold Deck.Draw, Dealer.drawn_between.
  destruct (count <? 0).
  { intros [= <- <-] _ _. rewrite Z.sub_diag. by split_and!. }
  intros H Hi Hv. apply Draw_loop_drawn in H as [-> ->]; [|done..].
  simpl. split_and!; [done|lia|]. f_equal. lia.
Qed.

Lemma drawn_between_app (d0 d1 d2 : Deck.t) :
  Deck.V d1 = Deck.V d0 →
  0 ≤ Deck.I d0 ≤ Deck.I d1 → Deck.I d1 ≤ Deck.I d2 →
  Dealer.drawn_between d0 d1 ++ Dealer.drawn_between d1 d2
  = Dealer.drawn_between d0 d2.
Proof.
  unfold Dealer.drawn_between. intros -> H01 H12.
  replace (Z.to_nat (Deck.I d1))
    with (Z.to_nat (Deck.I d0) + Z.to_nat (Deck.I d1 - Deck.I d0))%nat by lia.
  rewrite <- drop_drop, take_take_drop. f_equal. lia.
Qed.

Lemma concat_insert_app {A} (l : list (list A)) (i : nat) (x y z : list A) :
  l !! i = Some x → y ≡ₚ x ++ z → concat (<[i := y]> l) ≡ₚ concat l ++ z.
Proof.
  intros Hi Hy.
  assert (concat l = concat (take i l) ++ x ++ concat (drop (S i) l)) as ->.
  { rewrite <- (take_drop_middle l i x Hi) at 1. by rewrite concat_app. }
  rewrite insert_take_drop by (by eapply lookup_lt_Some).
  rewrite concat_app. simpl. rewrite Hy, <- !app_assoc.
  apply Permutation_app_head, Permutation_app_head, Permutation_app_comm.
Qed.

Section Trace.
Variables (d : Dealer.t) (run : Run.t).
Hypothesis HI : 0 ≤ Deck.I (Dealer.Deck d).
Hypothesis HV : len (Deck.V (Dealer.Deck d)) ≤ max_int.

Local Ltac draw_step H deck Hd Hv Hi Hc :=
  let cards := fresh "cards" in
  let deck' := fresh "deck'" in
  let Hdraw := fresh "Hdraw" in
  destruct (Deck.Draw deck _) as [[cards deck']|] eqn:Hdraw;
    [simpl in H|done];
  apply Draw_drawn in Hdraw as (Hv' & Hi' & ->); [|lia|by rewrite Hv];
  injection H as <-; exists deck'; simpl;
  split_and!; [done|congruence|lia|];
  rewrite <- (drawn_between_app (Dealer.Deck d) deck deck')
    by (done || lia).

Lemma burn_trace n s s' :
  Dealer.burn n s = Some s' →
  Dealer.Deal_trace d run s → Dealer.Deal_trace d run s'.
Proof.
  unfold Dealer.burn. destruct (0 <? n); [|by intros [= <-]].
  destruct s as [d1 run1]. intros H (deck & Hd & Hv & Hi & Hc).
  simpl in *. subst d1. simpl in H.
  draw_step H deck Hd Hv Hi Hc.
  rewrite (app_assoc (Run.cards_of run)), <- Hc.
  unfold Run.cards_of. simpl. solve_Permutation.
Qed.

Lemma deal_hi_trace b s s' :
  Dealer.deal_hi b s = Some s' →
  Dealer.Deal_trace d run s → Dealer.Deal_trace d run s'.
Proof.
  unfold Dealer.deal_hi.
  destruct s as [d1 run1]. intros H (deck & Hd & Hv & Hi & Hc).
  simpl in *. subst d1. simpl in H.
  draw_step H deck Hd Hv Hi Hc.
  rewrite (app_assoc (Run.cards_of run)), <- Hc.
  unfold Run.cards_of. simpl. solve_Permutation.
Qed.

Lemma deal_lo_trace b s s' :
  Dealer.deal_lo b s = Some s' →
  Dealer.Deal_trace d run s → Dealer.Deal_trace d run s'.
Proof.
  unfold Dealer.deal_lo.
  destruct s as [d1 run1]. intros H (deck & Hd & Hv & Hi & Hc).
  simpl in *. subst d1. simpl in H.
  draw_step H deck Hd Hv Hi Hc.
  rewrite (app_assoc (Run.cards_of run)), <- Hc.
  unfold Run.cards_of. simpl. solve_Permutation.
Qed.

Lemma deal_pocket_trace i s s' :
  Dealer.deal_pocket i s = Some s' →
  Dealer.Deal_trace d run s → Dealer.Deal_trace d run s'.
Proof.
  unfold Dealer.deal_pocket.
  destruct s as [d1 run1]. intros H (deck & Hd & Hv & Hi & Hc).
  simpl in *. subst d1. simpl in H.
  destruct (index (Run.Pockets run1) i) as [pocket|] eqn:Hp;
    [simpl in H|done].
  apply index_Some in Hp as [Hi0 Hp].
  destruct (Deck.Draw deck 1) as [[cards deck']|] eqn:Hdraw;
    [simpl in H|done].
  apply Draw_drawn in Hdraw as (Hv' & Hi' & ->); [|lia|by rewrite Hv].
  unfold store in H. destruct (_ || _); [done|]. simpl in H.
  injection H as <-. exists deck'. simpl.
  split_and!; [done|congruence|lia|].
  rewrite <- (drawn_between_app (Dealer.Deck d) deck deck')
    by (done || lia).
  rewrite (app_assoc (Run.cards_of run)), <- Hc. unfold Run.cards_of. simpl.
  rewrite (concat_insert_app _ _ pocket _ (Dealer.drawn_between deck deck'))
    by done.
  solve_Permutation.
Qed.

(** The steps put together: a [Deal] that returns has done what each
    of its steps does. *)
Lemma Deal_traced (street : Z) (d' : Dealer.t) (run' : Run.t) :
  Dealer.Deal d street run = Some (d', run') →
  Dealer.Deal_trace d run (d', run').
Proof.
  unfold Dealer.Deal.
  destruct (index (Dealer.Streets d) street) as [desc|]; [simpl|done].
  assert (Dealer.Deal_trace d run (d, run)) as H0.
  { exists (Dealer.Deck d). split_and!; [by destruct d|done|lia|].
    unfold Dealer.drawn_between. rewrite Z.sub_diag. simpl.
    by rewrite app_nil_r. }
  destruct (Dealer.Deal_pockets d desc (d, run)) as [s1|] eqn:H1; [simpl|done].
  assert (Dealer.Deal_trace d run s1) as Hs1.
  { unfold Dealer.Deal_pockets in H1.
    destruct (0 <? StreetDesc.Pocket desc); [|by injection H1 as <-].
    destruct (Dealer.burn _ _) as [s0|] eqn:Hb; [simpl in H1|done].
    apply burn_trace in Hb; [|done].
    revert H1 Hb. apply for_each_preserves. intros _ s2 s3.
    apply for_each_preserves. intros i s4 s5. apply deal_pocket_trace. }
  intros H.
  unfold Dealer.Deal_board in H. destruct (0 <? StreetDesc.Board desc);
    [|by injection H as <-].
  destruct (Dealer.burn _ s1) as [s2|] eqn:H2; [simpl in H|done].
  apply burn_trace in H2; [|done].
  destruct (Dealer.deal_hi _ s2) as [s3|] eqn:H3; [simpl in H|done].
  apply deal_hi_trace in H3; [|done].
  destruct (TypeDesc.Double (Dealer.Desc d)); [|by injection H as <-].
  destruct (Dealer.burn _ s3) as [s4|] eqn:H4; [simpl in H|done].
  apply burn_trace in H4; [|done].
  by apply deal_lo_trace in H.
Qed.

End Trace.

(** X14. [Deal] puts every card it draws into the run, once: when it returns,
    the run holds, besides the cards it held, exactly the cards that the
    cursor of the deck passed, and the cards of the deck are as they
    were. *)
Theorem Deal_conserves (d d' : Dealer.t) (street : Z) (run run' : Run.t) :
  0 ≤ Deck.I (Dealer.Deck d) → len (Deck.V (Dealer.Deck d)) ≤ max_int →
  Dealer.Deal d street run = Some (d', run') →
  Run.cards_of run' ≡ₚ
    Run.cards_of run
    ++ Dealer.drawn_between (Dealer.Deck d) (Dealer.Deck d') ∧
  Deck.I (Dealer.Deck d) ≤ Deck.I (Dealer.Deck d') ∧
  Deck.V (Dealer.Deck d') = Deck.V (Dealer.Deck d).
Proof.
  intros HI HV Hdeal.
  destruct (Deal_traced d run HI HV street d' run' Hdeal)
    as (deck & Hd' & Hv & Hi & Hcards).
  simpl in Hd', Hcards. subst d'. simpl. by split_and!.
Qed.

Section WithType.
Variable Type_Max : TypeId → Z.

(** A call of [Next] that returns has added to the runs the cards that
    the cursor of the deck passed, and nothing else. *)
Lemma Next_drawn (d d' : Dealer.t) (b : bool) :
  Dealer.Next Type_Max d = Some (b, d') →
  0 ≤ Deck.I (Dealer.Deck d) → len (Deck.V (Dealer.Deck d)) ≤ max_int →
  Dealer.dealt_cards d' ≡ₚ
    Dealer.dealt_cards d
    ++ Dealer.drawn_between (Dealer.Deck d) (Dealer.Deck d') ∧
  Deck.I (Dealer.Deck d) ≤ Deck.I (Dealer.Deck d') ∧
  Deck.V (Dealer.Deck d') = Deck.V (Dealer.Deck d).
Proof.
  intros H HI HV.
  apply CallFacts.Next_cases in H
    as [[_ ->]|(s & r & run & d2 & run' & _ & _ & Hrun & Hdeal & -> & _)].
  - simpl. unfold Dealer.drawn_between, Dealer.dealt_cards.
    rewrite Z.sub_diag. simpl. rewrite app_nil_r. by split_and!.
  - apply Deal_traced in Hdeal as (deck & Hd2 & Hv & Hi & Hc); [|done..].
    simpl in *. subst d2. simpl. split_and!; [|done..].
    unfold Dealer.dealt_cards. simpl. rewrite list_fmap_insert.
    apply index_Some in Hrun as [_ Hrun].
    apply (concat_insert_app _ _ (Run.cards_of run)); [|done].
    by rewrite list_lookup_fmap, Hrun.
Qed.

End WithType.

Section WithEval.
Variable Type_Max : TypeId → Z.
Variable evals calcs : TypeId → Eval.EvalFunc.
Variable EvalOf : TypeId → Eval.t.
Variable Type_Low Type_Double : TypeId → bool.
Variable Order : list (option Eval.t) → bool → option (list Z) * Z.

Local Abbreviation do_calls :=
  (Dealer.do_calls Type_Max evals calcs EvalOf Type_Low Type_Double Order).

(** In a hand that is not split the run holds the cards drawn since
    the dealer was made. *)
Lemma hand_drawn (desc : TypeDesc.t) (deck : Deck.t) (count : Z)
    (d0 d : Dealer.t) (cs : list Dealer.call) :
  Dealer.NewDealer desc deck count = Some d0 →
  0 ≤ Deck.I deck → len (Deck.V deck) ≤ max_int →
  Forall Dealer.unsplit cs →
  do_calls d0 cs = Some d →
  Dealer.dealt_cards d ≡ₚ Dealer.drawn_between deck (Dealer.Deck d).
Proof.
  intros Hnew HI HV Hcs Hcalls.
  assert (Dealer.dealt_cards d0 ≡ₚ
            Dealer.drawn_between deck (Dealer.Deck d0) ∧
          Deck.I deck ≤ Deck.I (Dealer.Deck d0) ∧
          Deck.V (Dealer.Deck d0) = Deck.V deck) as H0.
  { unfold Dealer.NewDealer, Dealer.init, Run.NewRun in Hnew.
    destruct (count <? 0); [done|]. simpl in Hnew. injection Hnew as <-.
    unfold Dealer.dealt_cards, Dealer.drawn_between, Run.cards_of. simpl.
    rewrite Z.sub_diag, !app_nil_r. simpl. split_and!; [|lia|done].
    change (Z.to_nat 0) with 0%nat. rewrite take_0.
    assert (∀ n, concat (replicate n (@nil Card)) = []) as ->
      by (intros n; induction n; done).
    reflexivity. }
  clear Hnew. revert d0 H0 Hcalls. unfold Dealer.do_calls.
  induction Hcs as [|c cs Hc Hcs IH]; intros d0 (Hp & Hi & Hv); simpl.
  - by intros [= <-].
  - destruct (Dealer.do_call _ _ _ _ _ _ _ d0 c) as [d1|] eqn:H1;
      [simpl|done].
    apply IH. clear IH. destruct c as [|runs|positions|]; simpl in *.
    + destruct (Dealer.Next Type_Max d0) as [[b d']|] eqn:Hn;
        [simpl in H1|done].
      injection H1 as <-.
      apply Next_drawn in Hn as (Hp' & Hi' & Hv');
        [|lia|by rewrite Hv].
      split_and!; [|lia|congruence].
      rewrite Hp', Hp.
      by rewrite (drawn_between_app deck (Dealer.Deck d0) (Dealer.Deck d'))
        by (done || lia).
    + done.
    + injection H1 as <-. unfold Dealer.Deactivate.
      by destruct (_ && _).
    + destruct (Dealer.NextResult _ _ _ _ _ _ d0) as [[b d']|] eqn:Hn;
        [simpl in H1|done].
      injection H1 as <-. apply CallFacts.NextResult_frame in Hn.
      rewrite Hn. by destruct d0.
Qed.

Lemma drawn_between_sublist (d d' : Deck.t) :
  Dealer.drawn_between d d' `sublist_of` Deck.V d.
Proof.
  unfold Dealer.drawn_between.
  etransitivity; [apply sublist_take|apply sublist_drop].
Qed.

(** X15. No card is dealt twice. In a hand that is not split, whatever calls
    of [Next], [Deactivate] and [NextResult] were made, the run holds
    exactly the cards that were drawn from the deck since the dealer was
    made, each once: if no card is twice in the deck, no card is twice
    in the discard pile, the pockets and the boards together. *)
Theorem hand_conserves (desc : TypeDesc.t) (deck : Deck.t) (count : Z)
    (d0 d : Dealer.t) (cs : list Dealer.call) :
  Dealer.NewDealer desc deck count = Some d0 →
  0 ≤ Deck.I deck → len (Deck.V deck) ≤ max_int →
  Forall Dealer.unsplit cs →
  do_calls d0 cs = Some d →
  Dealer.dealt_cards d ≡ₚ Dealer.drawn_between deck (Dealer.Deck d) ∧
  (NoDup (Deck.V deck) → NoDup (Dealer.dealt_cards d)).
Proof.
  intros Hnew HI HV Hcs Hcalls.
  pose proof (hand_drawn _ _ _ _ _ _ Hnew HI HV Hcs Hcalls) as Hperm.
  split; [done|]. intros Hnd. rewrite Hperm.
  eapply sublist_NoDup; [done|apply drawn_between_sublist].
Qed.

Section WithDeck.
Variable v : DeckType.t → list Card.
Variable TypeDesc_Deck : TypeDesc.t → DeckType.t.

(** X16. A dealer made by [NewShuffledDealer] deals from the deck of its
    type: in a hand that is not split, every card that the run holds is
    a card of the deck of the type and, when that deck has no card
    twice, is held once. *)
Theorem shuffled_hand (desc : TypeDesc.t) (shuffler : Deck.Shuffler)
    (shuffles count : Z) (d0 d : Dealer.t) (cs : list Dealer.call) :
  len (v (TypeDesc_Deck desc)) ≤ max_int →
  Dealer.NewShuffledDealer v TypeDesc_Deck desc shuffler shuffles count
    = Some d0 →
  Forall Dealer.unsplit cs →
  do_calls d0 cs = Some d →
  Dealer.dealt_cards d ⊆ v (TypeDesc_Deck desc) ∧
  (NoDup (v (TypeDesc_Deck desc)) → NoDup (Dealer.dealt_cards d)).
Proof.
  intros Hm Hnew Hcs Hcalls. unfold Dealer.NewShuffledDealer in Hnew.
  destruct (DeckType.Shuffle _ _ _ _) as [deck|] eqn:Hsh; [simpl in Hnew|done].
  unfold DeckType.Shuffle in Hsh.
  rewrite (DeckTypeFacts.Shoe_decks v) in Hsh by lia. simpl in Hsh.
  pose proof (DrawFacts.Shuffle_Permutation _ _ _ _ Hsh) as Hperm.
  destruct (DeckFacts.Shuffle_cursor _ _ _ _ Hsh) as [HI _].
  simpl in Hperm, HI. rewrite app_nil_r in Hperm.
  assert (len (Deck.V deck) ≤ max_int) as HV.
  { apply Permutation_length in Hperm. unfold len in *. lia. }
  pose proof (hand_drawn _ _ _ _ _ _ Hnew (Z.eq_le_incl _ _ (eq_sym HI)) HV
                Hcs Hcalls) as Hhand.
  split.
  - intros c Hc. rewrite Hhand in Hc. rewrite <- Hperm.
    eapply elem_of_sublist; [done|apply drawn_between_sublist].
  - intros Hnd. rewrite Hhand.
    eapply sublist_NoDup; [|apply drawn_between_sublist]. by rewrite Hperm.
Qed.

End WithDeck.

End WithEval.
Lemma Deal_conserves_witness :
  ∃ d' run',
    Dealer.Deal Fixture.at_flop 2
      (Run.mk [6] [[0; 3]; [1; 4]; [2; 5]] [7; 8; 9] []) = Some (d', run') ∧
    Run.cards_of run' ≡ₚ [6; 0; 3; 1; 4; 2; 5; 7; 8; 9] ++ [10; 11].
Proof.
  assert (Dealer.Deal Fixture.at_flop 2
            (Run.mk [6] [[0; 3]; [1; 4]; [2; 5]] [7; 8; 9] [])
          = Some (Dealer.set_Deck Fixture.at_flop (Deck.mk 12 52 (range 52)),
                  Run.mk [6; 10] [[0; 3]; [1; 4]; [2; 5]] [7; 8; 9; 11] []))
    as H by (by vm_compute).
  eexists _, _. split; [exact H|].
  refine (proj1 (Deal_conserves _ _ _ _ _ _ _ H)); by vm_compute.
Defined.

Lemma at_flop_calls :
  (d0 ← Dealer.NewDealer Fixture.holdem Fixture.deck52 3;
   Dealer.do_calls Fixture.max10 Fixture.no_eval Fixture.no_eval
     Fixture.empty_eval Fixture.never Fixture.never Fixture.first_wins
     d0 [Dealer.Call_Next; Dealer.Call_Next])
  = Some Fixture.at_flop.
Proof. by vm_compute. Qed.

Lemma hand_conserves_witness : NoDup (Dealer.dealt_cards Fixture.at_flop).
Proof.
  pose proof at_flop_calls as H.
  destruct (Dealer.NewDealer Fixture.holdem Fixture.deck52 3) as [d0|] eqn:Hnew;
    [|discriminate H].
  refine (proj2 (hand_conserves Fixture.max10 Fixture.no_eval Fixture.no_eval
                   Fixture.empty_eval Fixture.never Fixture.never
                   Fixture.first_wins Fixture.holdem Fixture.deck52 3 d0
                   Fixture.at_flop [Dealer.Call_Next; Dealer.Call_Next]
                   Hnew _ _ _ H) _).
  - by vm_compute.
  - by vm_compute.
  - by repeat constructor.
  - apply range_NoDup.
Defined.

Lemma at_flop_shuffled :
  (d0 ← Dealer.NewShuffledDealer (λ _, range 52) (λ _, 0) Fixture.holdem
          Fixture.no_swap 1 3;
   Dealer.do_calls Fixture.max10 Fixture.no_eval Fixture.no_eval
     Fixture.empty_eval Fixture.never Fixture.never Fixture.first_wins
     d0 [Dealer.Call_Next; Dealer.Call_Next])
  = Some Fixture.at_flop.
Proof. by vm_compute. Qed.

Lemma shuffled_hand_witness : NoDup (Dealer.dealt_cards Fixture.at_flop).
Proof.
  pose proof at_flop_shuffled as H.
  destruct (Dealer.NewShuffledDealer (λ _, range 52) (λ _, 0) Fixture.holdem
              Fixture.no_swap 1 3) as [d0|] eqn:Hnew; [|discriminate H].
  refine (proj2 (shuffled_hand Fixture.max10 Fixture.no_eval Fixture.no_eval
                   Fixture.empty_eval Fixture.never Fixture.never
                   Fixture.first_wins (λ _, range 52) (λ _, 0)
                   Fixture.holdem Fixture.no_swap 1 3 d0
                   Fixture.at_flop [Dealer.Call_Next; Dealer.Call_Next]
                   _ Hnew _ H) _).
  - by vm_compute.
  - by repeat constructor.
  - apply range_NoDup.
Defined.

End CardFacts.

(** ** Dealer: the current street *)

Module StreetFacts.
Import GoInt GoIntFacts DealFacts.

Lemma index_None {A} (l : list A) (i : Z) :
  index l i = None ↔ i < 0 ∨ len l ≤ i.
Proof.
  unfold index, len. destruct (Z.ltb_spec i 0).
  - split; [by left|done].
  - rewrite lookup_ge_None. lia.
Qed.

(** X17. The accessors of the current street never panic. While the street
    index is the index of a street they return the fields of its
    descriptor, and their zero values otherwise, that is before the first
    call of [Next] and after the last street; [HasPocket] and [HasBoard]
    say whether [Pocket] and [Board] are positive, and when [HasNext]
    holds [NextId] is the id of the street that follows. *)
Theorem street_accessors (d : Dealer.t) :
  Dealer.HasPocket d = (λ p, 0 <? p) <$> Dealer.Pocket d ∧
  Dealer.HasBoard d = (λ b, 0 <? b) <$> Dealer.Board d ∧
  (∀ st, index (Dealer.Streets d) (Dealer.S d) = Some st →
     Dealer.Id d = Some (StreetDesc.Id st) ∧
     Dealer.Name d = Some (StreetDesc.Name st) ∧
     Dealer.Pocket d = Some (StreetDesc.Pocket st) ∧
     Dealer.PocketUp d = Some (StreetDesc.PocketUp st) ∧
     Dealer.PocketDiscard d = Some (StreetDesc.PocketDiscard st) ∧
     Dealer.PocketDraw d = Some (StreetDesc.PocketDraw st) ∧
     Dealer.Board d = Some (StreetDesc.Board st) ∧
     Dealer.BoardDiscard d = Some (StreetDesc.BoardDiscard st)) ∧
  (index (Dealer.Streets d) (Dealer.S d) = None →
     Dealer.Id d = Some 0 ∧
     Dealer.Name d = Some "" ∧
     Dealer.Pocket d = Some 0 ∧
     Dealer.PocketUp d = Some 0 ∧
     Dealer.PocketDiscard d = Some 0 ∧
     Dealer.PocketDraw d = Some 0 ∧
     Dealer.Board d = Some 0 ∧
     Dealer.BoardDiscard d = Some 0) ∧
  (Dealer.HasNext d = true → -1 ≤ Dealer.S d →
   len (Dealer.Streets d) ≤ max_int →
   ∃ st, index (Dealer.Streets d) (Dealer.S d + 1) = Some st ∧
         Dealer.NextId d = Some (StreetDesc.Id st)).
Proof.
  assert (Dealer.HasNext d = true → -1 ≤ Dealer.S d →
          len (Dealer.Streets d) ≤ max_int →
          ∃ st, index (Dealer.Streets d) (Dealer.S d + 1) = Some st ∧
                Dealer.NextId d = Some (StreetDesc.Id st)) as Hnext.
  { unfold Dealer.HasNext, Dealer.NextId. intros Hn HS Hmax.
    pose proof (len_nonneg (Dealer.Streets d)).
    rewrite sub_small in * by (unfold min_int, max_int in *; lia).
    apply andb_prop in Hn as [_ Hn%Z.ltb_lt]. 
    destruct (Z.leb_spec (-1) (Dealer.S d)); [|lia].
    destruct (Z.ltb_spec (Dealer.S d) (len (Dealer.Streets d) - 1)); [|lia].
    simpl. rewrite add_small by (unfold min_int, max_int in *; lia).
    destruct (index_is_Some (Dealer.Streets d) (Dealer.S d + 1)) as [st Hst];
      [lia|].
    exists st. by rewrite Hst. }
  unfold Dealer.HasPocket, Dealer.HasBoard, Dealer.Id, Dealer.Name,
    Dealer.Pocket, Dealer.PocketUp, Dealer.PocketDiscard, Dealer.PocketDraw,
    Dealer.Board, Dealer.BoardDiscard.
  destruct (index (Dealer.Streets d) (Dealer.S d)) as [st|] eqn:Hst.
  - pose proof Hst as [H0 Hlt%lookup_lt_Some]%index_Some.
    destruct (Z.leb_spec 0 (Dealer.S d)); [|lia].
    destruct (Z.ltb_spec (Dealer.S d) (len (Dealer.Streets d)));
      [|unfold len in *; lia].
    simpl. split_and!; try done. by intros st' [= <-].
  - apply index_None in Hst.
    destruct (Z.leb_spec 0 (Dealer.S d));
      destruct (Z.ltb_spec (Dealer.S d) (len (Dealer.Streets d)));
      try lia; simpl; by split_and!.
Qed.

Lemma street_accessors_witness :
  Dealer.Pocket Fixture.at_flop = Some 0 ∧
  Dealer.Board Fixture.at_flop = Some 3.
Proof.
  destruct (street_accessors Fixture.at_flop) as (_ & _ & H & _ & _).
  destruct (H (Fixture.street 0 0 3 1) eq_refl)
    as (_ & _ & Hp & _ & _ & _ & Hb & _).
  split; [exact Hp | exact Hb].
Defined.

Lemma add_1_neq (r : Z) : add r 1 ≠ r.
Proof.
  unfold add, wrap. intros H.
  pose proof (Z.mod_pos_bound (r + 1 + 2 ^ 63) (2 ^ 64)) as Hb.
  pose proof (Z.div_mod (r + 1 + 2 ^ 63) (2 ^ 64)) as Hdm.
  lia.
Qed.

Section WithType.
Variable Type_Max : TypeId → Z.

(** X18. [NextId] tells the street that [Next] moves to: after a call of
    [Next] that stays on the run it was on, [Id] is what [NextId] was
    before the call. *)
Theorem NextId_Next (d d' : Dealer.t) (b : bool) :
  Dealer.Next Type_Max d = Some (b, d') →
  min_int ≤ Dealer.S d ≤ max_int →
  len (Dealer.Streets d) ≤ max_int →
  Dealer.R d' =
    (if (Dealer.S d =? -1) && (Dealer.R d =? -1) then 0 else Dealer.R d) →
  Dealer.Id d' = Dealer.NextId d.
Proof.
  intros H HS Hn HR.
  assert (Dealer.S d' = add (Dealer.S d) 1 ∧
          Dealer.Streets d' = Dealer.Streets d) as [HS' Hst].
  { apply CallFacts.Next_cases in H
      as [[_ ->]|(s & r & run & d2 & run' & Hsr & _ & _ & Hdeal & -> & _)].
    - simpl. split; [|done].
      destruct (Z.eqb_spec (Dealer.S d) (-1)) as [->|]; [|done].
      by destruct (_ =? _).
    - destruct (CallFacts.Deal_framed _ _ _ _ _ Hdeal) as [(deck & Hd2 & _) _].
      simpl in Hd2. subst d2. simpl in *. split; [|done].
      destruct Hsr as [[-> ->]|(-> & -> & _)].
      + destruct (Z.eqb_spec (Dealer.S d) (-1)) as [->|]; [|done].
        by destruct (_ =? _).
      + exfalso. by apply add_1_neq in HR. }
  unfold Dealer.Id, Dealer.NextId. rewrite HS', Hst.
  pose proof (len_nonneg (Dealer.Streets d)).
  rewrite sub_small by (unfold min_int, max_int in *; lia).
  destruct (Z.eq_dec (Dealer.S d) max_int) as [Hmax|Hmax].
  - rewrite Hmax. change (add max_int 1) with min_int.
    destruct (Z.ltb_spec max_int (len (Dealer.Streets d) - 1)); [lia|].
    by rewrite andb_false_r.
  - rewrite add_small by (unfold min_int, max_int in *; lia).
    destruct (Z.leb_spec 0 (Dealer.S d + 1));
      destruct (Z.leb_spec (-1) (Dealer.S d)); try lia; [|done].
    destruct (Z.ltb_spec (Dealer.S d + 1) (len (Dealer.Streets d)));
      destruct (Z.ltb_spec (Dealer.S d) (len (Dealer.Streets d) - 1));
      try lia; done.
Qed.

End WithType.

Lemma NextId_Next_witness :
  ∃ d', Dealer.Next Fixture.max10 Fixture.at_flop = Some (true, d') ∧
        Dealer.Id d' = Dealer.NextId Fixture.at_flop.
Proof.
  eexists. split; [reflexivity|].
  apply (NextId_Next Fixture.max10 Fixture.at_flop _ true);
    [reflexivity | by vm_compute | by vm_compute | reflexivity].
Defined.

End StreetFacts.

(** ** Dealer: a hand split into runs *)

Module SplitFacts.
Import GoInt GoIntFacts DealFacts.

Lemma schedule_succ (m : nat) (st n : Z) :
  Dealer.schedule (Z.of_nat (S m)) st n =
    Dealer.schedule (Z.of_nat m) st n
    ++ ((λ k, (Z.of_nat m, st + 1 + k)) <$> range (n - 1 - st)).
Proof.
  unfold Dealer.schedule. rewrite range_succ, bind_app. simpl.
  by rewrite app_nil_r.
Qed.

Lemma schedule_length (m : nat) (st n : Z) :
  length (Dealer.schedule (Z.of_nat m) st n) = (m * Z.to_nat (n - 1 - st))%nat.
Proof.
  induction m as [|m IH]; [done|].
  rewrite schedule_succ, length_app, IH, length_fmap, range_length. lia.
Qed.

Lemma schedule_lookup (m : nat) (st n q p : Z) :
  0 ≤ q < Z.of_nat m → 0 ≤ p < n - 1 - st →
  Dealer.schedule (Z.of_nat m) st n !! Z.to_nat (q * (n - 1 - st) + p)
  = Some (q, st + 1 + p).
Proof.
  intros Hq Hp. induction m as [|m IH]; [lia|].
  rewrite schedule_succ.
  destruct (decide (q < Z.of_nat m)) as [Hlt|Hge].
  - rewrite lookup_app_l by (rewrite schedule_length; nia). apply IH. lia.
  - assert (q = Z.of_nat m) as -> by lia.
    rewrite lookup_app_r by (rewrite schedule_length; nia).
    rewrite schedule_length.
    replace (Z.to_nat (Z.of_nat m * (n - 1 - st) + p)
             - m * Z.to_nat (n - 1 - st))%nat with (Z.to_nat p) by nia.
    rewrite list_lookup_fmap. unfold range. rewrite list_lookup_fmap.
    rewrite lookup_seq_lt by lia. simpl. do 3 f_equal. lia.
Qed.

Section WithType.
Variable Type_Max : TypeId → Z.

Lemma HasActive_split (n m st : Z) (pos : Z * Z) (d : Dealer.t) (s r : Z) :
  Dealer.split_state Type_Max n m st pos d → 0 ≤ s →
  Dealer.HasActive Type_Max (Dealer.set_R (Dealer.set_S d s) r) = true.
Proof.
  intros (_ & _ & _ & _ & _ & _ & Hact & _) Hs.
  unfold Dealer.HasActive. dealer_simpl.
  destruct (Z.leb_spec 0 s); [|lia]. simpl.
  destruct Hact as [-> | Hact]; [done|].
  destruct (Z.ltb_spec 1 (Z.of_nat (size (Dealer.Active d)))); [|lia].
  by rewrite orb_true_r.
Qed.

(** The street [s] dealt into the run [r] of a split hand. *)
Lemma deal_run_street_split (n m st : Z) (pos : Z * Z) (d : Dealer.t)
    (r s : Z) :
  Dealer.split_state Type_Max n m st pos d →
  0 ≤ r < m → 0 ≤ s < n →
  ∃ d',
    Dealer.deal_run_street d (r, s) = Some d' ∧
    Dealer.split_state Type_Max n m st (r, s) d'.
Proof.
  intros (HR & HS & Hrc & HST & Hn & Hm & Hact & Hdeck & Hp) Hr Hs.
  unfold Dealer.deal_run_street. simpl.
  change (Dealer.Runs (Dealer.set_R (Dealer.set_S d s) r))
    with (Dealer.Runs d).
  destruct (index_is_Some (Dealer.Runs d) r) as [run Hrun]; [lia|].
  rewrite Hrun. simpl.
  pose proof Hrun as [_ Hrun']%index_Some.
  pose proof (Forall_lookup_1 _ _ _ _ Hp Hrun') as Hprun. simpl in Hprun.
  destruct (Deal_runs (Dealer.set_R (Dealer.set_S d s) r) s run)
    as (deck' & run' & -> & Hdeck' & Hp'); [done|by rewrite <- Hn in Hs|done|].
  simpl. rewrite store_Some by lia. simpl.
  eexists. split; [done|].
  unfold Dealer.split_state. dealer_simpl. split_and!; try done.
  - unfold len in *. by rewrite length_insert.
  - by apply Forall_insert.
Qed.

Lemma Next_same_run (n m st : Z) (d : Dealer.t) (r s : Z) :
  Dealer.split_state Type_Max n m st (r, s) d →
  0 ≤ r < m → 0 ≤ s → s + 1 < n → n ≤ max_int → m ≤ max_int →
  Dealer.Next Type_Max d =
    d' ← Dealer.deal_run_street d (r, s + 1); Some (true, d').
Proof.
  intros Hst Hr Hs0 Hs Hn Hm.
  pose proof (HasActive_split _ _ _ _ d (s + 1) r Hst) as Hact.
  destruct Hst as (HR & HS & Hrc & HST & Hlen & Hruns & _).
  simpl in HR, HS.
  unfold Dealer.Next, Dealer.deal_run_street.
  assert ((if (Dealer.S d =? -1) && (Dealer.R d =? -1)
           then Dealer.set_R (Dealer.set_S d 0) 0
           else Dealer.set_S d (add (Dealer.S d) 1))
          = Dealer.set_R (Dealer.set_S d (s + 1)) r) as ->.
  { destruct (Z.eqb_spec (Dealer.S d) (-1)); [lia|]. simpl.
    rewrite add_small by (unfold min_int, max_int in *; lia).
    destruct d; dealer_simpl; by subst. }
  rewrite Hact by lia. simpl.
  change (Dealer.Streets (Dealer.set_R (Dealer.set_S d (s + 1)) r))
    with (Dealer.Streets d).
  change (Dealer.S (Dealer.set_R (Dealer.set_S d (s + 1)) r)) with (s + 1).
  change (Dealer.R (Dealer.set_R (Dealer.set_S d (s + 1)) r)) with r.
  rewrite Hlen.
  destruct (Z.leb_spec n (s + 1)); [lia|]. simpl.
  change (Dealer.Runs (Dealer.set_R (Dealer.set_S d (s + 1)) r))
    with (Dealer.Runs d).
  destruct (index (Dealer.Runs d) r) as [run|]; [simpl|done].
  destruct (Dealer.Deal _ (s + 1) run) as [[d2 run']|] eqn:Hdeal;
    [simpl|done].
  destruct (CallFacts.Deal_framed _ _ _ _ _ Hdeal) as [(deck & Hd2 & _) _].
  simpl in Hd2. subst d2. dealer_simpl.
  destruct (store _ _ _); [simpl|done]. rewrite Hlen.
  destruct (Z.ltb_spec (s + 1) n); [done|lia].
Qed.

Lemma Next_next_run (n m st : Z) (d : Dealer.t) (r : Z) :
  Dealer.split_state Type_Max n m st (r, n - 1) d →
  0 ≤ r → r + 1 < m → 0 ≤ st → st + 1 < n → n ≤ max_int → m ≤ max_int →
  Dealer.Next Type_Max d =
    d' ← Dealer.deal_run_street d (r + 1, st + 1); Some (true, d').
Proof.
  intros Hst Hr0 Hr Hst0 Hst1 Hn Hm.
  pose proof (HasActive_split _ _ _ _ d n r Hst) as Hact.
  destruct Hst as (HR & HS & Hrc & HST & Hlen & Hruns & _).
  simpl in HR, HS.
  unfold Dealer.Next, Dealer.deal_run_street.
  assert ((if (Dealer.S d =? -1) && (Dealer.R d =? -1)
           then Dealer.set_R (Dealer.set_S d 0) 0
           else Dealer.set_S d (add (Dealer.S d) 1))
          = Dealer.set_R (Dealer.set_S d n) r) as ->.
  { destruct (Z.eqb_spec (Dealer.S d) (-1)); [lia|]. simpl.
    rewrite add_small by (unfold min_int, max_int in *; lia).
    destruct d; dealer_simpl; subst; f_equal; lia. }
  rewrite Hact by lia. simpl.
  change (Dealer.Streets (Dealer.set_R (Dealer.set_S d n) r))
    with (Dealer.Streets d).
  change (Dealer.S (Dealer.set_R (Dealer.set_S d n) r)) with n.
  change (Dealer.R (Dealer.set_R (Dealer.set_S d n) r)) with r.
  change (Dealer.RunCount (Dealer.set_R (Dealer.set_S d n) r))
    with (Dealer.RunCount d).
  change (Dealer.ST (Dealer.set_R (Dealer.set_S d n) r)) with (Dealer.ST d).
  rewrite Hlen, Hrc, HST, Z.leb_refl.
  rewrite sub_small by (unfold min_int, max_int in *; lia).
  destruct (Z.eqb_spec r (m - 1)); [lia|]. simpl.
  destruct (Z.ltb_spec r m); [|lia]. simpl.
  rewrite !add_small by (unfold min_int, max_int in *; lia).
  assert (Dealer.set_R
            (Dealer.set_S (Dealer.set_R (Dealer.set_S d n) r) (st + 1))
            (r + 1)
          = Dealer.set_R (Dealer.set_S d (st + 1)) (r + 1)) as ->
    by (by destruct d).
  change (Dealer.Runs (Dealer.set_R (Dealer.set_S d (st + 1)) (r + 1)))
    with (Dealer.Runs d).
  change (Dealer.S (Dealer.set_R (Dealer.set_S d (st + 1)) (r + 1)))
    with (st + 1).
  change (Dealer.R (Dealer.set_R (Dealer.set_S d (st + 1)) (r + 1)))
    with (r + 1).
  destruct (index (Dealer.Runs d) (r + 1)) as [run|]; [simpl|done].
  destruct (Dealer.Deal _ (st + 1) run) as [[d2 run']|] eqn:Hdeal;
    [simpl|done].
  destruct (CallFacts.Deal_framed _ _ _ _ _ Hdeal) as [(deck & Hd2 & _) _].
  simpl in Hd2. subst d2. dealer_simpl.
  destruct (store _ _ _); [simpl|done]. rewrite Hlen.
  destruct (Z.ltb_spec (st + 1) n); [done|lia].
Qed.

Lemma Next_split_done (n m st : Z) (d : Dealer.t) :
  Dealer.split_state Type_Max n m st (m - 1, n - 1) d →
  1 ≤ n ≤ max_int → 1 ≤ m ≤ max_int →
  Dealer.Next Type_Max d = Some (false, Dealer.set_S d n).
Proof.
  intros (HR & HS & Hrc & HST & Hlen & Hruns & _) Hn Hm.
  simpl in HR, HS. unfold Dealer.Next.
  assert ((if (Dealer.S d =? -1) && (Dealer.R d =? -1)
           then Dealer.set_R (Dealer.set_S d 0) 0
           else Dealer.set_S d (add (Dealer.S d) 1))
          = Dealer.set_S d n) as ->.
  { destruct (Z.eqb_spec (Dealer.S d) (-1)); [lia|]. simpl.
    rewrite add_small by (unfold min_int, max_int in *; lia).
    f_equal. lia. }
  dealer_simpl. rewrite Hlen, Hrc, HR, Z.leb_refl.
  rewrite sub_small by (unfold min_int, max_int in *; lia).
  by rewrite Z.eqb_refl.
Qed.

Lemma Next_past_last (n m st : Z) (d : Dealer.t) (r : Z) :
  Dealer.split_state Type_Max n m st (r, n - 1) d →
  0 ≤ r → r + 1 < m → st + 1 = n → 1 ≤ n ≤ max_int → m ≤ max_int →
  Dealer.Next Type_Max d = None.
Proof.
  intros Hst Hr0 Hr Hst1 Hn Hm.
  pose proof (HasActive_split _ _ _ _ d n r Hst) as Hact.
  destruct Hst as (HR & HS & Hrc & HST & Hlen & Hruns & _).
  simpl in HR, HS.
  unfold Dealer.Next.
  assert ((if (Dealer.S d =? -1) && (Dealer.R d =? -1)
           then Dealer.set_R (Dealer.set_S d 0) 0
           else Dealer.set_S d (add (Dealer.S d) 1))
          = Dealer.set_R (Dealer.set_S d n) r) as ->.
  { destruct (Z.eqb_spec (Dealer.S d) (-1)); [lia|]. simpl.
    rewrite add_small by (unfold min_int, max_int in *; lia).
    destruct d; dealer_simpl; subst; f_equal; lia. }
  rewrite Hact by lia. simpl.
  change (Dealer.Streets (Dealer.set_R (Dealer.set_S d n) r))
    with (Dealer.Streets d).
  change (Dealer.S (Dealer.set_R (Dealer.set_S d n) r)) with n.
  change (Dealer.R (Dealer.set_R (Dealer.set_S d n) r)) with r.
  change (Dealer.RunCount (Dealer.set_R (Dealer.set_S d n) r))
    with (Dealer.RunCount d).
  change (Dealer.ST (Dealer.set_R (Dealer.set_S d n) r)) with (Dealer.ST d).
  rewrite Hlen, Hrc, HST, Z.leb_refl.
  rewrite sub_small by (unfold min_int, max_int in *; lia).
  destruct (Z.eqb_spec r (m - 1)); [lia|]. simpl.
  destruct (Z.ltb_spec r m); [|lia]. simpl.
  rewrite !add_small by (unfold min_int, max_int in *; lia).
  assert (Dealer.set_R
            (Dealer.set_S (Dealer.set_R (Dealer.set_S d n) r) (st + 1))
            (r + 1)
          = Dealer.set_R (Dealer.set_S d (st + 1)) (r + 1)) as ->
    by (by destruct d).
  change (Dealer.Runs (Dealer.set_R (Dealer.set_S d (st + 1)) (r + 1)))
    with (Dealer.Runs d).
  change (Dealer.S (Dealer.set_R (Dealer.set_S d (st + 1)) (r + 1)))
    with (st + 1).
  change (Dealer.R (Dealer.set_R (Dealer.set_S d (st + 1)) (r + 1)))
    with (r + 1).
  destruct (index (Dealer.Runs d) (r + 1)) as [run|]; [simpl|done].
  unfold Dealer.Deal.
  change (Dealer.Streets (Dealer.set_R (Dealer.set_S d (st + 1)) (r + 1)))
    with (Dealer.Streets d).
  assert (index (Dealer.Streets d) (st + 1) = None) as ->; [|done].
  apply StreetFacts.index_None. lia.
Qed.

(** [ChangeRuns] on a single-run hand of which [k] streets have been
    dealt, [k] at least 1: the hand is split after the street [k-1]. *)
Lemma ChangeRuns_split (n : Z) (k : nat) (d : Dealer.t) (runs : Z) :
  Dealer.dealt Type_Max n k d → (1 ≤ k)%nat → Z.of_nat k ≤ n →
  1 ≤ runs ≤ max_int →
  ∃ d1,
    Dealer.ChangeRuns Type_Max d runs = Some (true, d1) ∧
    Dealer.split_state Type_Max n runs (Z.of_nat k - 1)
      (0, Z.of_nat k - 1) d1.
Proof.
  intros (Hk & Hrc & Hn & Hact & Hdeck & run & Hruns & Hp) Hk1 Hkn Hr.
  destruct Hk as [(-> & _)|(_ & HS & HR)]; [lia|].
  assert (Dealer.ChangeRuns_allowed Type_Max d) as Hok.
  { unfold Dealer.ChangeRuns_allowed. rewrite Hruns. split_and!; try done.
    - lia.
    - unfold Dealer.HasActive. rewrite HS.
      destruct (Z.leb_spec 0 (Z.of_nat k - 1)); [|lia]. simpl.
      destruct Hact as [-> | Hact]; [done|].
      destruct (Z.ltb_spec 1 (Dealer.len_Active d)); [|lia].
      by rewrite orb_true_r. }
  unfold Dealer.ChangeRuns. apply DealerFacts.ChangeRuns_guard in Hok as ->.
  rewrite sub_small by (unfold min_int, max_int in *; lia).
  destruct (Z.ltb_spec (runs - 1) 0); [lia|].
  rewrite Hruns. cbn [index Z.ltb Z.compare Z.to_nat lookup list_lookup
                      mbind option_bind app].
  eexists. split; [done|].
  unfold Dealer.split_state.
  unfold Dealer.set_RunCount, Dealer.set_ST, Dealer.set_Runs,
    Dealer.Streets, Dealer.len_Active in *.
  cbn [Dealer.R Dealer.S Dealer.RunCount Dealer.ST Dealer.Desc Dealer.Runs
       Dealer.Active Dealer.Deck Dealer.Count fst snd].
  split_and!; try done.
  - unfold len. cbn [length]. rewrite length_replicate. lia.
  - constructor; [done|]. apply Forall_replicate. unfold Run.Dupe.
    cbn [Run.Pockets]. by rewrite list_fmap_id.
Qed.

(** X19. A hand must not be split on its last street. When [ChangeRuns] is
    called there with two runs or more it returns true, and the next
    call of [Next] panics: it moves to the second run and to the street
    after the last, which [Deal] indexes. *)
Theorem ChangeRuns_last_street (n : Z) (d : Dealer.t) (runs : Z) :
  Dealer.dealt Type_Max n (Z.to_nat n) d → 1 ≤ n ≤ max_int →
  2 ≤ runs ≤ max_int →
  ∃ d',
    Dealer.ChangeRuns Type_Max d runs = Some (true, d') ∧
    Dealer.Next Type_Max d' = None.
Proof.
  intros Hd Hn Hruns.
  destruct (ChangeRuns_split n (Z.to_nat n) d runs) as (d1 & Hc & Hst);
    [done|lia..|].
  exists d1. split; [done|]. rewrite Z2Nat.id in Hst by lia.
  apply (Next_past_last n runs (n - 1) d1 0); [done|lia..].
Qed.

(** The calls of [Next] that deal the first [j] entries of the schedule
    of a split hand. *)
Lemma Nexts_schedule (n st : Z) (m : nat) (d1 : Dealer.t) (j : nat) :
  Dealer.split_state Type_Max n (Z.of_nat m) st (0, st) d1 →
  0 ≤ st → st + 1 < n → n ≤ max_int → Z.of_nat m ≤ max_int →
  (j ≤ length (Dealer.schedule (Z.of_nat m) st n))%nat →
  ∃ dj,
    Dealer.deal_schedule (take j (Dealer.schedule (Z.of_nat m) st n)) d1
      = Some dj ∧
    Dealer.Nexts Type_Max j d1 = Some (replicate j true, dj) ∧
    ((j = 0%nat ∧ dj = d1) ∨
     ∃ q p, Z.of_nat j = q * (n - 1 - st) + p + 1 ∧
            0 ≤ q < Z.of_nat m ∧ 0 ≤ p < n - 1 - st ∧
            Dealer.split_state Type_Max n (Z.of_nat m) st
              (q, st + 1 + p) dj).
Proof.
  intros H1 Hst0 Hst1 Hn Hm. rewrite schedule_length.
  induction j as [|j IH]; intros Hj.
  { exists d1. split_and!; [done..|by left]. }
  destruct IH as (dj & Hdeal & Hnexts & Hinv); [lia|].
  assert (∃ q p,
            Z.of_nat j = q * (n - 1 - st) + p ∧
            0 ≤ q < Z.of_nat m ∧ 0 ≤ p < n - 1 - st ∧
            ∃ d', Dealer.deal_run_street dj (q, st + 1 + p) = Some d' ∧
                  Dealer.Next Type_Max dj = Some (true, d') ∧
                  Dealer.split_state Type_Max n (Z.of_nat m) st
                    (q, st + 1 + p) d')
    as (q & p & Hjqp & Hq & Hp & d' & Hd' & Hnext & Hst').
  { destruct Hinv as [[-> ->]|(q & p & Hjqp & Hq & Hp & Hst)].
    - exists 0, 0. split_and!; try lia.
      destruct (deal_run_street_split n (Z.of_nat m) st _ d1 0 (st + 1) H1)
        as (d' & Hd' & Hst'); [lia..|].
      exists d'. rewrite Z.add_0_r. split_and!; try done.
      rewrite (Next_same_run n (Z.of_nat m) st d1 0 st) by (done || lia).
      by rewrite Hd'.
    - destruct (decide (p + 1 < n - 1 - st)) as [Hlt|Hge].
      + exists q, (p + 1). split_and!; try lia.
        destruct (deal_run_street_split n (Z.of_nat m) st _ dj q
                    (st + 1 + (p + 1)) Hst) as (d' & Hd' & Hst'); [lia..|].
        exists d'. split_and!; try done.
        rewrite (Next_same_run n (Z.of_nat m) st dj q (st + 1 + p))
          by (done || lia).
        replace (st + 1 + p + 1) with (st + 1 + (p + 1)) by lia.
        by rewrite Hd'.
      + assert (p = n - 1 - st - 1) as -> by lia.
        exists (q + 1), 0. split_and!; try nia.
        destruct (deal_run_street_split n (Z.of_nat m) st _ dj (q + 1)
                    (st + 1 + 0) Hst) as (d' & Hd' & Hst'); [nia|lia|].
        exists d'. split_and!; try done.
        replace (st + 1 + (n - 1 - st - 1)) with (n - 1) in Hst by lia.
        rewrite (Next_next_run n (Z.of_nat m) st dj q) by (done || nia).
        rewrite Z.add_0_r in Hd'. by rewrite Hd'. }
  exists d'. split_and!.
  - rewrite (take_S_r _ _ (q, st + 1 + p)).
    + unfold Dealer.deal_schedule in *. rewrite for_each_app, Hdeal. simpl.
      by rewrite Hd'.
    + replace j with (Z.to_nat (q * (n - 1 - st) + p)) by lia.
      by apply schedule_lookup.
  - simpl. rewrite Hnexts. simpl. rewrite Hnext. simpl.
    by rewrite <- replicate_S_end.
  - right. exists q, p. split_and!; try done; lia.
Qed.

(** X20. Running it twice, or more. A single-run hand of which [k] streets
    have been dealt, [k] at least one and less than their number, is
    split into [runs] runs. Then the calls of [Next] all return true
    while they deal, each once and in this order, the streets that
    are left into the first run, then the same streets into the second
    run, and so on; and the call after the last street of the last run
    returns false and changes neither the runs nor the deck. *)
Theorem Next_split (n : Z) (k : nat) (d : Dealer.t) (runs : Z) :
  Dealer.dealt Type_Max n k d → (1 ≤ k)%nat → Z.of_nat k < n →
  n ≤ max_int → 1 ≤ runs ≤ max_int →
  let sched := Dealer.schedule runs (Z.of_nat k - 1) n in
  ∃ d1,
    Dealer.ChangeRuns Type_Max d runs = Some (true, d1) ∧
    (∀ j, (j ≤ length sched)%nat →
       ∃ dj, Dealer.deal_schedule (take j sched) d1 = Some dj ∧
             Dealer.Nexts Type_Max j d1 = Some (replicate j true, dj)) ∧
    ∃ d2 d_end,
      Dealer.deal_schedule sched d1 = Some d2 ∧
      Dealer.Nexts Type_Max (S (length sched)) d1
        = Some (replicate (length sched) true ++ [false], d_end) ∧
      Dealer.Runs d_end = Dealer.Runs d2 ∧
      Dealer.Deck d_end = Dealer.Deck d2.
Proof.
  intros Hd Hk1 Hkn Hn Hruns sched.
  destruct (ChangeRuns_split n k d runs) as (d1 & Hc & Hst); [done|lia..|].
  exists d1. split; [done|]. subst sched.
  rewrite <- (Z2Nat.id runs) in * by lia.
  set (m := Z.to_nat runs) in *.
  set (st := Z.of_nat k - 1) in *.
  split.
  - intros j Hj.
    destruct (Nexts_schedule n st m d1 j) as (dj & H1 & H2 & _);
      [done|lia..|done|].
    by exists dj.
  - destruct (Nexts_schedule n st m d1
                (length (Dealer.schedule (Z.of_nat m) st n)))
      as (d2 & H1 & H2 & Hinv); [done|lia..|].
    rewrite firstn_all in H1. exists d2.
    assert (Dealer.split_state Type_Max n (Z.of_nat m) st
              (Z.of_nat m - 1, n - 1) d2) as Hst2.
    { rewrite schedule_length in Hinv.
      destruct Hinv as [[Hz _]|(q & p & Hjqp & Hq & Hp & Hst2)]; [nia|].
      assert (q = Z.of_nat m - 1 ∧ p = n - 1 - st - 1) as [-> ->] by nia.
      by replace (st + 1 + (n - 1 - st - 1)) with (n - 1) in Hst2 by lia. }
    eexists. split; [done|]. split.
    + cbn [Dealer.Nexts]. rewrite H2. simpl.
      rewrite (Next_split_done n (Z.of_nat m) st d2) by (done || lia).
      reflexivity.
    + done.
Qed.

End WithType.

Lemma at_river_reached :
  (d0 ← Dealer.NewDealer Fixture.holdem Fixture.deck52 3;
   Dealer.Nexts Fixture.max10 4 d0)
  = Some ([true; true; true; true], Fixture.at_river).
Proof. by vm_compute. Qed.

Lemma at_flop_dealt : Dealer.dealt Fixture.max10 4 2 Fixture.at_flop.
Proof.
  unfold Dealer.dealt. split_and!.
  - right. by split_and!.
  - reflexivity.
  - reflexivity.
  - right. by vm_compute.
  - by vm_compute.
  - eexists. split; reflexivity.
Qed.

Lemma at_river_dealt : Dealer.dealt Fixture.max10 4 4 Fixture.at_river.
Proof.
  unfold Dealer.dealt. split_and!.
  - right. by split_and!.
  - reflexivity.
  - reflexivity.
  - right. by vm_compute.
  - by vm_compute.
  - eexists. split; reflexivity.
Qed.

Lemma ChangeRuns_last_street_witness :
  ∃ d',
    Dealer.ChangeRuns Fixture.max10 Fixture.at_river 2 = Some (true, d') ∧
    Dealer.Next Fixture.max10 d' = None.
Proof.
  apply (ChangeRuns_last_street Fixture.max10 4 Fixture.at_river 2).
  - exact at_river_dealt.
  - by vm_compute.
  - by vm_compute.
Defined.

Lemma Next_split_witness :
  ∃ d1 d_end,
    Dealer.ChangeRuns Fixture.max10 Fixture.at_flop 2 = Some (true, d1) ∧
    Dealer.Nexts Fixture.max10 5 d1
      = Some ([true; true; true; true; false], d_end).
Proof.
  destruct (Next_split Fixture.max10 4 2 Fixture.at_flop 2)
    as (d1 & H1 & _ & d2 & d_end & _ & H2 & _).
  - exact at_flop_dealt.
  - lia.
  - lia.
  - by vm_compute.
  - by vm_compute.
  - exists d1, d_end. split; [exact H1 | exact H2].
Defined.

End SplitFacts.

(** ** Run: evaluations *)

Module EvalFacts.
Import GoInt GoIntFacts.

Section WithEval.
Variable evals calcs : TypeId → Eval.EvalFunc.
Variable EvalOf : TypeId → Eval.t.
Variable Type_Double : TypeId → bool.

(** X21. [Run.Eval] returns one entry per pocket. The entry of a position
    that is not active is nil, and it is the only kind of entry that is
    nil: with no map of active positions every position is evaluated.
    Without a double board the entry of an active position is what the
    evaluator of the type, or its calculator when [calc] is set, makes
    of the pocket and the high board. *)
Theorem Eval_active (run : Run.t) (typ : TypeId)
    (active : option (gmap Z bool)) (calc : bool) :
  let evs := Run.Eval evals calcs EvalOf Type_Double run typ active calc in
  let on i := match active with
              | None => true
              | Some a => Dealer.is_active a (Z.of_nat i)
              end in
  length evs = length (Run.Pockets run) ∧
  (∀ i, evs !! i = Some None ↔
        (i < length (Run.Pockets run))%nat ∧ on i = false) ∧
  (∀ i pocket,
     Run.Pockets run !! i = Some pocket → on i = true →
     Type_Double typ = false →
     evs !! i =
       Some (Some ((if calc then calcs typ else evals typ)
                     (EvalOf typ) pocket (Run.Hi run)))).
Proof.
  intros evs on. subst evs. unfold Run.Eval.
  split_and!.
  - by rewrite length_fmap, length_imap.
  - intros i. rewrite list_lookup_fmap, list_lookup_imap.
    destruct (Run.Pockets run !! i) as [pocket|] eqn:Hp; simpl.
    + apply lookup_lt_Some in Hp.
      assert (on i = match active with
                     | None => true
                     | Some a => default false (a !! Z.of_nat i)
                     end) as <- by done.
      destruct (on i); [|by split].
      split; [|by intros [_ ?]].
      by destruct (Type_Double typ).
    + apply lookup_ge_None in Hp. split; [done|lia].
  - intros i pocket Hp Hon Hd.
    rewrite list_lookup_fmap, list_lookup_imap, Hp. simpl.
    assert (on i = match active with
                   | None => true
                   | Some a => default false (a !! Z.of_nat i)
                   end) as <- by done.
    by rewrite Hon, Hd.
Qed.

End WithEval.

Lemma Eval_active_witness :
  Run.Eval (λ _ ev _ _, ev) (λ _ ev _ _, ev)
           (λ typ, Eval.mk typ 0 [] [] 0 [] []) (λ _, false)
           Fixture.flop_run 0 (Some {[0 := true]}) false !! 1%nat
  = Some None.
Proof.
  apply (proj1 (proj2 (Eval_active (λ _ ev _ _, ev) (λ _ ev _ _, ev)
                         (λ typ, Eval.mk typ 0 [] [] 0 [] []) (λ _, false)
                         Fixture.flop_run 0 (Some {[0 := true]}) false))).
  split; [simpl; lia|reflexivity].
Defined.

End EvalFacts.

(** ** Win: descriptions *)

Module WinViewFacts.
Import GoInt GoIntFacts.

Lemma for_each_grows {Ix A} (body : Ix → list A → option (list A))
    (l : list Ix) : ∀ (acc v : list A),
  (∀ i acc acc', body i acc = Some acc' → ∃ more, acc' = acc ++ more) →
  for_each l body acc = Some v → ∃ more, v = acc ++ more.
Proof.
  induction l as [|i l IH]; intros acc v Hbody; simpl.
  - intros [= <-]. exists []. by rewrite app_nil_r.
  - destruct (body i acc) as [acc'|] eqn:H1; [simpl|done].
    intros H. apply Hbody in H1 as [m1 ->].
    apply IH in H as [m2 ->]; [|done].
    exists (m1 ++ m2). by rewrite app_assoc.
Qed.

Section WithDesc.
Variable Eval_Desc : option Eval.t → bool → option EvalDesc.t.
Variable InvalidRank : Z.

Local Abbreviation valid :=
  (λ d : EvalDesc.t, EvalDesc.Rank d ≠ 0 ∧ EvalDesc.Rank d ≠ InvalidRank).

(** X22. [Desc] returns descriptions with a valid rank only, at most [Pivot]
    of them and none when the pivot is not positive. With a positive
    pivot, when it returns, [Invalid] does not panic either, and a win
    that [Invalid] does not reject has a description. *)
Theorem Desc_valid (win : Win.t) (v : list EvalDesc.t) :
  Win.Desc Eval_Desc InvalidRank win = Some v →
  Forall valid v ∧
  len v ≤ Z.max 0 (Win.Pivot win) ∧
  (Win.Pivot win ≤ 0 → v = []) ∧
  (0 < Win.Pivot win →
   ∃ b, Win.Invalid Eval_Desc InvalidRank (Some win) = Some b ∧
        (b = false → v ≠ [])).
Proof.
  unfold Win.Desc. intros H.
  set (body := λ (i : Z) (v : list EvalDesc.t),
         pos ← index (Win.Order win) i;
         ev ← index (Win.Evals win) pos;
         match Eval_Desc ev (Win.Low win) with
         | Some d =>
             if negb (EvalDesc.Rank d =? 0)
                && negb (EvalDesc.Rank d =? InvalidRank)
             then Some (v ++ [d]) else Some v
         | None => Some v
         end) in *.
  assert (∀ i acc acc', body i acc = Some acc' →
            (acc' = acc ∨ ∃ d, acc' = acc ++ [d] ∧ valid d)) as Hbody.
  { intros i acc acc'. unfold body.
    destruct (index (Win.Order win) i) as [pos|]; [simpl|done].
    destruct (index (Win.Evals win) pos) as [ev|]; [simpl|done].
    destruct (Eval_Desc ev (Win.Low win)) as [d|]; [|intros [= <-]; by left].
    destruct (Z.eqb_spec (EvalDesc.Rank d) 0);
      destruct (Z.eqb_spec (EvalDesc.Rank d) InvalidRank); simpl;
      intros [= <-]; try by left.
    right. by exists d. }
  split_and!.
  - eapply (for_each_preserves (Forall valid)); [|exact H|constructor].
    intros i acc acc' Hi Hacc.
    apply Hbody in Hi as [->|(d & -> & Hd)]; [done|].
    apply Forall_app. split; [done|]. by constructor.
  - assert (∀ l acc v,
              for_each l body acc = Some v →
              (length v ≤ length acc + length l)%nat) as Hlen.
    { clear H. induction l as [|i l IH]; intros acc v'; simpl.
      - intros [= <-]. lia.
      - destruct (body i acc) as [acc'|] eqn:H1; [simpl|done].
        intros H. apply IH in H.
        apply Hbody in H1 as [->|(d & -> & _)]; [lia|].
        rewrite length_app in H. simpl in H. lia. }
    apply Hlen in H. rewrite range_length in H. unfold len. simpl in H. lia.
  - intros Hp. unfold range in H.
    replace (Z.to_nat (Win.Pivot win)) with 0%nat in H by lia.
    by injection H as <-.
  - intros Hp.
    assert (∃ l, range (Win.Pivot win) = 0 :: l) as [l Hl].
    { unfold range.
      destruct (Z.to_nat (Win.Pivot win)) as [|k] eqn:Hk; [lia|].
      by eexists. }
    rewrite Hl in H. cbn [for_each] in H.
    destruct (body 0 []) as [acc|] eqn:H0; [cbn [mbind option_bind] in H|done].
    apply for_each_grows in H as [more ->].
    2:{ intros i a a' Hi. apply Hbody in Hi as [->|(d & -> & _)].
        - exists []. by rewrite app_nil_r.
        - by exists [d]. }
    unfold body in H0.
    destruct (index (Win.Order win) 0) as [pos|] eqn:Hpos; [simpl in H0|done].
    destruct (index (Win.Evals win) pos) as [ev|] eqn:Hev; [simpl in H0|done].
    rewrite (WinFacts.Invalid_head Eval_Desc InvalidRank win pos ev)
      by (done || lia).
    eexists. split; [done|].
    destruct (Eval_Desc ev (Win.Low win)) as [d|]; [|done].
    destruct (Z.eqb_spec (EvalDesc.Rank d) 0); [done|].
    destruct (Z.eqb_spec (EvalDesc.Rank d) InvalidRank); [done|].
    simpl in H0. injection H0 as <-. intros _. by destruct more.
Qed.

End WithDesc.

Lemma Desc_valid_witness :
  Forall (λ d, EvalDesc.Rank d ≠ 0 ∧ EvalDesc.Rank d ≠ 9)
         [EvalDesc.mk 5 [] []].
Proof.
  apply (Desc_valid
           (λ ev _, (λ e, EvalDesc.mk (Eval.HiRank e) [] []) <$> ev) 9
           (Win.NewWin [Some (Eval.mk 0 5 [] [] 0 [] []);
                        Some (Eval.mk 0 9 [] [] 0 [] [])]
                       [0; 1] 2 false false [])).
  reflexivity.
Defined.

End WinViewFacts.

(** ** Dealer: going through the results *)

Module ResultIterFacts.
Import GoInt GoIntFacts.

Lemma mapM_index {A B} (f : A → B) (l : list A) :
  mapM (λ i, x ← index l i; Some (f x)) (range (len l)) = Some (f <$> l).
Proof.
  apply mapM_Some, Forall2_same_length_lookup. split.
  - rewrite range_length, length_fmap. unfold len. lia.
  - intros i z y Hz Hy. unfold range in Hz.
    rewrite list_lookup_fmap in Hz. rewrite list_lookup_fmap in Hy.
    destruct (l !! i) as [a|] eqn:Ha; [|done]. injection Hy as <-.
    apply lookup_lt_Some in Ha as Hlt.
    unfold len in Hz. rewrite Nat2Z.id, lookup_seq_lt in Hz by done.
    injection Hz as <-. by rewrite index_of_nat, Ha.
Qed.

Lemma filter_none {A} (P : A → Prop) `{∀ x, Decision (P x)} (l : list A) :
  (∀ i, i ∈ l → ¬ P i) → filter P l = [].
Proof.
  induction l as [|x l IH]; intros HP; [done|].
  rewrite filter_cons_False by (apply HP; by left).
  apply IH. intros i Hi. apply HP. by right.
Qed.

Lemma filter_single {A} (P : A → Prop) `{∀ x, Decision (P x)}
    (l : list A) (p : A) :
  NoDup l → p ∈ l → (∀ i, i ∈ l → P i ↔ i = p) → filter P l = [p].
Proof.
  induction 1 as [|x l Hx Hl IH]; intros Hp HP; [by apply elem_of_nil in Hp|].
  destruct (decide (P x)) as [HPx|HPx].
  - rewrite filter_cons_True by done.
    apply HP in HPx as ->; [|by left]. f_equal.
    apply filter_none. intros i Hi HPi.
    apply HP in HPi; [|by right]. by subst.
  - rewrite filter_cons_False by done. apply IH.
    + apply elem_of_cons in Hp as [->|Hp]; [|done].
      exfalso. apply HPx, HP; [by left|done].
    + intros i Hi. apply HP. by right.
Qed.

Section WithEval.
Variable evals calcs : TypeId → Eval.EvalFunc.
Variable EvalOf : TypeId → Eval.t.
Variable Type_Low Type_Double : TypeId → bool.
Variable Order : list (option Eval.t) → bool → option (list Z) * Z.

Local Abbreviation compute_Results :=
  (Dealer.compute_Results evals calcs EvalOf Type_Low Type_Double Order).
Local Abbreviation NextResult :=
  (Dealer.NextResult evals calcs EvalOf Type_Low Type_Double Order).
Local Abbreviation NextResults :=
  (Dealer.NextResults evals calcs EvalOf Type_Low Type_Double Order).
Local Abbreviation NewResult :=
  (Result.NewResult evals calcs EvalOf Type_Low Type_Double Order).

(** The results of a hand with several active positions, or of a type
    whose maximum is 1: one for each run, evaluated for the active
    positions. *)
Lemma compute_Results_runs (d : Dealer.t) :
  Dealer.Results d = None →
  len (Dealer.Runs d) = Dealer.RunCount d →
  1 < Dealer.len_Active d ∨ TypeDesc.Max (Dealer.Desc d) = 1 →
  compute_Results d =
    Some (Dealer.set_Results d
            (Some ((λ run, Some (NewResult (TypeDesc.Type_ (Dealer.Desc d))
                                   run (Some (Dealer.Active d)) false))
                   <$> Dealer.Runs d))).
Proof.
  intros Hnil Hruns Hcase. unfold Dealer.compute_Results. rewrite Hnil.
  assert ((Dealer.len_Active d =? 1) && (Dealer.RunCount d =? 1)
          && negb (TypeDesc.Max (Dealer.Desc d) =? 1) = false) as ->.
  { destruct Hcase as [Hn| ->]; [|by rewrite andb_false_r].
    destruct (Z.eqb_spec (Dealer.len_Active d) 1); [lia|done]. }
  assert ((1 <? Dealer.len_Active d)
          || (TypeDesc.Max (Dealer.Desc d) =? 1) = true) as ->.
  { destruct Hcase as [Hn| ->]; [|by rewrite orb_true_r].
    by destruct (Z.ltb_spec 1 (Dealer.len_Active d)); [|lia]. }
  pose proof (len_nonneg (Dealer.Runs d)).
  destruct (Z.ltb_spec (Dealer.RunCount d) 0); [lia|].
  rewrite <- Hruns.
  by rewrite (mapM_index
                (λ run, Some (NewResult (TypeDesc.Type_ (Dealer.Desc d)) run
                                (Some (Dealer.Active d)) false))).
Qed.

(** Once the results are there, [NextResult] moves the result index
    only, and only up to [RunCount]. *)
Lemma NextResult_computed (d : Dealer.t) (rs : list (option Result.t)) :
  Dealer.Results d = Some rs →
  -1 ≤ Dealer.E d → Dealer.RunCount d ≤ max_int →
  NextResult d =
    Some (if Dealer.RunCount d <=? Dealer.E d then (false, d)
          else (Dealer.E d + 1 <? Dealer.RunCount d,
                Dealer.set_E d (Dealer.E d + 1))).
Proof.
  intros Hrs HE Hrc. unfold Dealer.NextResult, Dealer.compute_Results.
  rewrite Hrs. simpl.
  destruct (Z.leb_spec (Dealer.RunCount d) (Dealer.E d)); [done|].
  rewrite add_small by (unfold min_int, max_int in *; lia). done.
Qed.

Section Iterate.
Variables (d : Dealer.t) (results : list Result.t).
Hypothesis Hres : Dealer.Results d = Some (Some <$> results).
Hypothesis Hlen : len results = Dealer.RunCount d.
Hypothesis Hrc : Dealer.RunCount d ≤ max_int.

Local Abbreviation seen :=
  (imap (λ i res, (true, (Z.of_nat i, Some res))) results).

Lemma NextResults_seen (j : nat) :
  (j ≤ length results)%nat →
  NextResults j (Dealer.set_E d (-1)) =
    Some (take j seen,
          if j is O then Dealer.set_E d (-1)
          else Dealer.set_E d (Z.of_nat j - 1)).
Proof.
  induction j as [|j IH]; intros Hj; [done|].
  cbn [Dealer.NextResults]. rewrite IH by lia. cbn [mbind option_bind].
  assert ((if j is O then Dealer.set_E d (-1)
           else Dealer.set_E d (Z.of_nat j - 1))
          = Dealer.set_E d (Z.of_nat j - 1)) as -> by (by destruct j).
  rewrite (NextResult_computed _ (Some <$> results));
    [|done|simpl; lia|done].
  unfold len in Hlen. simpl.
  destruct (Z.leb_spec (Dealer.RunCount d) (Z.of_nat j - 1)); [lia|].
  cbn [mbind option_bind].
  destruct (Z.ltb_spec (Z.of_nat j - 1 + 1) (Dealer.RunCount d)); [|lia].
  unfold Dealer.Result. simpl. rewrite Hres. simpl.
  replace (Z.of_nat j - 1 + 1) with (Z.of_nat j) by lia.
  destruct (Z.leb_spec 0 (Z.of_nat j)); [|lia].
  destruct (Z.ltb_spec (Z.of_nat j) (Dealer.RunCount d)); [|lia]. simpl.
  destruct (lookup_lt_is_Some_2 results j) as [res Hj']; [lia|].
  rewrite index_of_nat, list_lookup_fmap, Hj'. simpl.
  rewrite (take_S_r _ _ (true, (Z.of_nat j, Some res)))
    by (by rewrite list_lookup_imap, Hj').
  do 4 f_equal. lia.
Qed.

Lemma NextResults_over (k : nat) :
  (1 ≤ length results)%nat →
  NextResults (length results + k) (Dealer.set_E d (-1)) =
    Some (seen ++ replicate k (false, (-1, None)),
          if k is O then Dealer.set_E d (Dealer.RunCount d - 1)
          else Dealer.set_E d (Dealer.RunCount d)).
Proof.
  intros H1. unfold len in Hlen. induction k as [|k IH].
  - rewrite Nat.add_0_r, NextResults_seen by done.
    rewrite firstn_all2 by (by rewrite length_imap). simpl. rewrite app_nil_r.
    destruct (length results) eqn:Hl; [lia|]. do 3 f_equal. lia.
  - rewrite Nat.add_succ_r. cbn [Dealer.NextResults]. rewrite IH.
    cbn [mbind option_bind].
    assert (NextResult (if k is O then Dealer.set_E d (Dealer.RunCount d - 1)
                        else Dealer.set_E d (Dealer.RunCount d))
            = Some (false, Dealer.set_E d (Dealer.RunCount d))) as ->.
    { destruct k.
      - rewrite (NextResult_computed _ (Some <$> results));
          [|done|simpl; lia|done].
        simpl.
        destruct (Z.leb_spec (Dealer.RunCount d) (Dealer.RunCount d - 1));
          [lia|].
        rewrite Z.sub_add.
        by destruct (Z.ltb_spec (Dealer.RunCount d) (Dealer.RunCount d));
          [lia|].
      - rewrite (NextResult_computed _ (Some <$> results));
          [|done|simpl; lia|done].
        simpl. by rewrite Z.leb_refl. }
    cbn [mbind option_bind]. unfold Dealer.Result. simpl.
    destruct (Z.ltb_spec (Dealer.RunCount d) (Dealer.RunCount d)); [lia|].
    rewrite andb_false_r. simpl.
    by rewrite <- app_assoc, <- replicate_S_end.
Qed.

End Iterate.

(** X23. [NextResult] and [Result] go through the runs, once each and in
    order. With several active positions, or a type whose maximum is 1,
    the call after the hand computes a result for every run; then as
    many calls of [NextResult] as there are runs return true, [Result]
    giving after each the index and the result of the next run,
    evaluated for the active positions; every later call returns false
    and [Result] then gives no result. *)
Theorem NextResult_iterates (d : Dealer.t) (k : nat) :
  Dealer.Results d = None → Dealer.E d = -1 →
  len (Dealer.Runs d) = Dealer.RunCount d →
  1 ≤ Dealer.RunCount d ≤ max_int →
  1 < Dealer.len_Active d ∨ TypeDesc.Max (Dealer.Desc d) = 1 →
  let results :=
    (λ run, NewResult (TypeDesc.Type_ (Dealer.Desc d)) run
              (Some (Dealer.Active d)) false) <$> Dealer.Runs d in
  ∃ d',
    NextResults (length results + k) d =
      Some (imap (λ i res, (true, (Z.of_nat i, Some res))) results
            ++ replicate k (false, (-1, None)), d') ∧
    Dealer.Results d' = Some (Some <$> results).
Proof.
  intros Hnil HE Hruns Hrc Hcase results.
  set (dc := Dealer.set_Results d (Some (Some <$> results))).
  assert (NextResult d = NextResult dc) as Hsame.
  { unfold Dealer.NextResult. rewrite compute_Results_runs by done.
    subst dc results. unfold Dealer.compute_Results at 1.
    cbn [Dealer.Results Dealer.set_Results].
    by rewrite <- list_fmap_compose. }
  assert (length results ≠ 0%nat) as Hne.
  { subst results. rewrite length_fmap. unfold len in Hruns. lia. }
  assert (∀ j, NextResults (S j) d = NextResults (S j) dc) as Hsames.
  { induction j as [|j IH].
    - cbn [Dealer.NextResults mbind option_bind]. by rewrite Hsame.
    - cbn [Dealer.NextResults] in *. by rewrite IH. }
  destruct (length results + k)%nat as [|j] eqn:Hj; [lia|].
  rewrite Hsames, <- Hj.
  assert (dc = Dealer.set_E dc (-1)) as Hdc.
  { subst dc. destruct d; simpl in *. by subst. }
  rewrite Hdc.
  rewrite (NextResults_over dc results); try done; try lia.
  - eexists. split; [done|]. by destruct k.
  - subst results. unfold len in *. simpl. by rewrite length_fmap.
  - simpl. lia.
Qed.

(** X24. The last position standing. When a single position is active in a
    hand that was not split, of a type that seats more than one,
    [NextResult] makes up a result without evaluating anything: the
    position is alone in the order, with a pivot of 1. [Win] on this
    result panics unless the position is 0, because the result has a
    single evaluation and [Win] indexes the evaluations by the
    position. *)
Theorem NextResult_last_standing (d : Dealer.t) (p : Z)
    (names : list string) :
  Dealer.Results d = None → Dealer.E d = -1 →
  Dealer.RunCount d = 1 →
  TypeDesc.Max (Dealer.Desc d) ≠ 1 →
  Dealer.len_Active d = 1 →
  0 ≤ p < Dealer.Count d →
  (∀ i, 0 ≤ i < Dealer.Count d →
        Dealer.is_active (Dealer.Active d) i = true ↔ i = p) →
  ∃ d' res,
    NextResult d = Some (true, d') ∧
    Dealer.Result d' = Some (0, Some res) ∧
    Result.Evals res = [Some (EvalOf (TypeDesc.Type_ (Dealer.Desc d)))] ∧
    Result.HiOrder res = Some [p] ∧ Result.HiPivot res = 1 ∧
    (p ≠ 0 → Result.Win Type_Low res names = None) ∧
    (p = 0 →
     ∃ hi lo,
       Result.Win Type_Low res names = Some (hi, lo) ∧
       Win.Order hi = [0] ∧ Win.Pivot hi = 1 ∧
       Win.Verb hi = (if Win.Scoop hi then "scoops" else "wins")).
Proof.
  intros Hnil HE Hrc Hmax Hn Hp Hact.
  assert (Dealer.first_active d = p) as Hfirst.
  { unfold Dealer.first_active.
    rewrite (filter_single _ _ p); [done|apply range_NoDup| |].
    - by apply elem_of_range.
    - intros i Hi. apply elem_of_range in Hi. by apply Hact. }
  unfold Dealer.NextResult, Dealer.compute_Results.
  rewrite Hnil, Hn, Hrc, Hfirst. simpl.
  apply Z.eqb_neq in Hmax as ->. simpl. rewrite Hrc, HE. simpl.
  eexists _, _. split; [done|].
  unfold Dealer.Result. simpl. rewrite Hrc. simpl.
  split; [done|]. split_and!; try done.
  - intros Hp0. unfold Result.Win.
    cbn [Result.HiOrder Result.Evals default].
    change (index (id [p]) 0) with (Some p). cbn [mbind option_bind].
    assert (index [Some (EvalOf (TypeDesc.Type_ (Dealer.Desc d)))] p = None)
      as ->; [|done].
    apply StreetFacts.index_None. unfold len. simpl. lia.
  - intros ->. unfold Result.Win. simpl. eexists _, _. split; [done|].
    by split_and!.
Qed.

End WithEval.

Lemma NextResult_iterates_witness :
  ∃ res d',
    Dealer.NextResults Fixture.no_eval Fixture.no_eval
      Fixture.empty_eval Fixture.never Fixture.never
      Fixture.first_wins 2 Fixture.at_river
    = Some ([(true, (0, Some res)); (false, (-1, None))], d').
Proof.
  destruct (NextResult_iterates Fixture.no_eval Fixture.no_eval
              Fixture.empty_eval Fixture.never Fixture.never
              Fixture.first_wins Fixture.at_river 1)
    as (d' & H & _).
  - reflexivity.
  - reflexivity.
  - reflexivity.
  - by vm_compute.
  - left. by vm_compute.
  - eexists _, d'. exact H.
Defined.

Lemma NextResult_last_standing_witness :
  ∃ res,
    Result.HiOrder res = Some [2] ∧
    Result.Win (λ _, false) res [] = None.
Proof.
  destruct (NextResult_last_standing Fixture.no_eval Fixture.no_eval
              Fixture.empty_eval Fixture.never Fixture.never
              Fixture.first_wins
              (Dealer.Deactivate Fixture.at_river [0; 1]).2 2 [])
    as (d' & res & _ & _ & _ & Ho & _ & Hw & _).
  - reflexivity.
  - reflexivity.
  - reflexivity.
  - discriminate.
  - by vm_compute.
  - by vm_compute.
  - intros i Hi.
    assert (i = 0 ∨ i = 1 ∨ i = 2) as [->|[->| ->]]
      by (change (Dealer.Count _) with 3 in Hi; lia);
      by vm_compute.
  - exists res. split; [exact Ho|]. apply Hw. discriminate.
Defined.

End ResultIterFacts.

(** ** Dealer: a new dealer *)

Module NewDealerFacts.
Import GoInt GoIntFacts.

Lemma activate_elem (l : list Z) : ∀ (m : gmap Z bool) (k : Z),
  k ∈ l ∨ m !! k = Some true →
  foldl (λ a i, <[i := true]> a) m l !! k = Some true.
Proof.
  induction l as [|i l IH]; intros m k; simpl.
  - intros [Hk|Hk]; [by apply elem_of_nil in Hk|done].
  - intros Hk. apply IH. destruct (decide (k = i)) as [->|Hne].
    + right. apply lookup_insert_eq.
    + rewrite lookup_insert_ne by done.
      destruct Hk as [Hk|Hk]; [|by right].
      apply elem_of_cons in Hk as [?|Hk]; [done|by left].
Qed.

Section WithType.
Variable Type_Max : TypeId → Z.

(** X25. [NewDealer] panics on a negative number of positions. Otherwise the
    dealer has one run with an empty pocket for each position, every
    position is active and none inactive, and nothing has started: the
    street is -1, there is no current run and no result; [HasActive] is
    false, however many positions there are, and [ChangeRuns] is
    refused until [Next] has been called. *)
Theorem NewDealer_fresh (desc : TypeDesc.t) (deck : Deck.t) (count : Z) :
  (count < 0 → Dealer.NewDealer desc deck count = None) ∧
  (0 ≤ count →
   ∃ d,
     Dealer.NewDealer desc deck count = Some d ∧
     Dealer.Runs d = [Run.mk [] (replicate (Z.to_nat count) []) [] []] ∧
     (∀ i, Dealer.is_active (Dealer.Active d) i = true ↔ 0 ≤ i < count) ∧
     Dealer.Inactive d = [] ∧
     Dealer.len_Active d = count ∧
     Dealer.Street d = -1 ∧
     Dealer.Run d = Some (-1, None) ∧
     Dealer.Result d = Some (-1, None) ∧
     Dealer.HasActive Type_Max d = false ∧
     (∀ runs, Dealer.ChangeRuns Type_Max d runs = Some (false, d))).
Proof.
  unfold Dealer.NewDealer. split.
  - intros Hc. unfold Dealer.init, Run.NewRun.
    by destruct (Z.ltb_spec count 0); [|lia].
  - intros Hc.
    destruct (Dealer.init desc deck count) as [d|] eqn:Hd.
    2:{ unfold Dealer.init, Run.NewRun in Hd.
        by destruct (Z.ltb_spec count 0); [lia|]. }
    exists d. split; [done|].
    destruct (DealFacts.init_Active _ _ _ _ Hd) as [_ Hsize].
    unfold Dealer.init, Run.NewRun in Hd.
    destruct (Z.ltb_spec count 0); [lia|]. simpl in Hd. injection Hd as <-.
    assert (∀ i, Dealer.is_active
                   (foldl (λ a i, <[i := true]> a) ∅ (range count)) i = true
                 ↔ 0 ≤ i < count) as Hact.
    { intros i. unfold Dealer.is_active. split.
      - destruct (_ !! i) as [b|] eqn:Hb; [|done]. intros _.
        apply CallFacts.activate_lookup in Hb as [[_ Hi]|Hb]; [|done].
        by apply elem_of_range.
      - intros Hi. rewrite activate_elem; [done|]. left.
        by apply elem_of_range. }
    split_and!; try done.
    unfold Dealer.Inactive. simpl. apply ResultIterFacts.filter_none.
    intros i Hi. apply elem_of_range in Hi. apply Hact in Hi.
    rewrite Hi. done.
Qed.

End WithType.

Lemma NewDealer_fresh_witness :
  ∃ d, Dealer.NewDealer Fixture.holdem Fixture.deck52 3 = Some d ∧
       Dealer.Inactive d = [] ∧
       Dealer.HasActive Fixture.max10 d = false.
Proof.
  destruct (proj2 (NewDealer_fresh Fixture.max10 Fixture.holdem
                     Fixture.deck52 3))
    as (d & H & _ & _ & Hi & _ & _ & _ & _ & Ha & _); [lia|].
  exists d. split_and!; [exact H | exact Hi | exact Ha].
Defined.

End NewDealerFacts.

(** ** Result: the wins *)

Module ScoopFacts.

Section WithType.
Variable Type_Low : TypeId → bool.

(** X26. [Win] makes the high win from the high order and pivot, and a low
    win only when there is a low order with a pivot that is not 0. The
    high win scoops exactly when the type of the leading evaluation has
    a low hand and there is no low win, and its verb then is
    "scoops". *)
Theorem Win_scoop (res : Result.t) (names : list string) (hi : Win.t)
    (lo : option Win.t) :
  Result.Win Type_Low res names = Some (hi, lo) →
  Win.Evals hi = Result.Evals res ∧
  Win.Order hi = default [] (Result.HiOrder res) ∧
  Win.Pivot hi = Result.HiPivot res ∧
  Win.Low hi = false ∧ Win.Names hi = names ∧
  (lo = None ↔ Result.LoOrder res = None ∨ Result.LoPivot res = 0) ∧
  (∀ w, lo = Some w →
        Win.Evals w = Result.Evals res ∧
        Some (Win.Order w) = Result.LoOrder res ∧
        Win.Pivot w = Result.LoPivot res ∧
        Win.Low w = true ∧ Win.Scoop w = false ∧ Win.Names w = names) ∧
  (∃ pos ev,
     index (default [] (Result.HiOrder res)) 0 = Some pos ∧
     index (Result.Evals res) pos = Some (Some ev) ∧
     Win.Scoop hi = Type_Low (Eval.Type_ ev) && bool_decide (lo = None)) ∧
  (Win.Scoop hi = true → lo = None ∧ Win.Verb hi = "scoops").
Proof.
  unfold Result.Win.
  destruct (index (default [] (Result.HiOrder res)) 0) as [pos|] eqn:Hpos;
    [simpl|done].
  destruct (index (Result.Evals res) pos) as [[ev|]|] eqn:Hev; [simpl|done..].
  intros [= <- <-]. simpl. split_and!; try done.
  - destruct (Result.LoOrder res) as [order|]; [|by split; [left|]].
    destruct (Z.eqb_spec (Result.LoPivot res) 0) as [->|Hne]; simpl.
    + split; [by right|done].
    + split; [done|]. by intros [?|?].
  - intros w. destruct (Result.LoOrder res) as [order|]; [|done].
    destruct (Result.LoPivot res =? 0); [done|]. simpl.
    by intros [= <-].
  - by exists pos, ev.
  - intros Hs. pose proof Hs as [_ Hlo%bool_decide_eq_true]%andb_prop.
    split; [done|]. unfold Win.Verb. simpl. by rewrite Hs.
Qed.

End WithType.
Lemma Win_scoop_witness :
  ∃ hi,
    Result.Win (λ _, true)
      (Result.mk [Some (Fixture.empty_eval 0)] (Some [0]) 1 None 0) []
    = Some (hi, None) ∧
    Win.Verb hi = "scoops".
Proof.
  exists (Win.NewWin [Some (Fixture.empty_eval 0)] [0] 1 false true []).
  split; [reflexivity|].
  destruct (Win_scoop (λ _, true)
              (Result.mk [Some (Fixture.empty_eval 0)] (Some [0]) 1 None 0)
              [] _ None eq_refl) as (_ & _ & _ & _ & _ & _ & _ & _ & H).
  exact (proj2 (H eq_refl)).
Defined.

End ScoopFacts.
